(** * VeriXmith: a shallow embedding of the IR loader, the Verilator naming
  helper, the byte-coverage vector, the SMT equivalence engine and the
  equivalence-class grouping, with the properties proved about them.

  Python objects are modelled by value.  Where the source mutates an
  object that is shared through a dictionary (the compound items of a
  module), the dictionary is the store and the mutation is an update of
  the entry.  Exceptions are the [Raise] case of [result]. *)

From Stdlib Require Import ZArith QArith Ascii String DecimalString DecimalNat DecimalFacts.
From stdpp Require Import gmap strings list fin_maps sorting.

Set Default Proof Using "Type".
Set Warnings "-clear-no-such-hyp,-register-all".

(* ===================================================================== *)
(** * Part I: definitions                                                  *)
(* ===================================================================== *)

(** ** Exceptions and results *)

Inductive exn :=
| ValueError (msg : string)
| NotImplementedError (msg : string)
| AssertionError
| KeyError
| IndexError
| ItemNotFoundError
| ZeroDivisionError.

Definition is_ValueError (e : exn) : bool :=
  match e with ValueError _ => true | _ => false end.

Inductive result (A : Type) :=
| Ok (a : A)
| Raise (e : exn).
Arguments Ok {A} a.
Arguments Raise {A} e.

Definition bind {A B} (r : result A) (k : A -> result B) : result B :=
  match r with
  | Ok a => k a
  | Raise e => Raise e
  end.

#[export] Instance result_bind : MBind result := λ A B k r, bind r k.
#[export] Instance result_ret : MRet result := @Ok.

(** [mapM f l]: run [f] on the elements from left to right, stop at the
  first exception. *)
Fixpoint mapM {A B} (f : A -> result B) (l : list A) : result (list B) :=
  match l with
  | [] => Ok []
  | a :: l' => b ← f a; bs ← mapM f l'; Ok (b :: bs)
  end.

(** [foldM f l s]: a [for] loop over [l] threading the state [s]. *)
Fixpoint foldM {A S} (f : S -> A -> result S) (l : list A) (s : S) : result S :=
  match l with
  | [] => Ok s
  | a :: l' => s' ← f s a; foldM f l' s'
  end.

(** ** core/ir/item.py *)

Module Item.

Inductive PortDirection := INPUT | OUTPUT | INOUT.

#[export] Instance PortDirection_eq_dec : EqDecision PortDirection.
Proof. solve_decision. Defined.

(** [PortDirection.parse] on a string: an unknown string falls through
    the inner [if] chain and yields [None]. *)
Definition PortDirection_parse (direction : string) : option PortDirection :=
  if String.eqb direction "input" then Some INPUT
  else if String.eqb direction "output" then Some OUTPUT
  else if String.eqb direction "inout" then Some INOUT
  else None.

(** Attributes attached at instantiation ([**kwargs], e.g. offset, bytes). *)
Abbreviation InstAttrs := (gmap string Z).

Record PrimitiveItem := {
  p_name : string;
  p_width : Z;
  p_is_reg : bool;
  p_direction : option PortDirection;
  p_inst_attrs : option InstAttrs
}.

Record CompoundItem := {
  c_name : string;
  c_is_reg : bool;
  c_element_width : Z;
  c_element_indices : gset Z;
  c_inst_attrs : option InstAttrs
}.

Inductive ModuleItem :=
| Primitive (p : PrimitiveItem)
| Compound (c : CompoundItem).

(** [PrimitiveItem.__init__] with a direction given as a string or absent. *)
Definition PrimitiveItem_init (name : string) (width : Z) (is_reg : bool)
    (direction : option string) : PrimitiveItem :=
  {| p_name := name; p_width := width; p_is_reg := is_reg;
     p_direction := direction ≫= PortDirection_parse;
     p_inst_attrs := None |}.

(** [CompoundItem.__init__] with the default [element_indices] and
    [inst_attrs]. *)
Definition CompoundItem_init (name : string) (is_reg : bool) (element_width : Z)
    : CompoundItem :=
  {| c_name := name; c_is_reg := is_reg; c_element_width := element_width;
     c_element_indices := ∅; c_inst_attrs := None |}.

Definition is_register (i : ModuleItem) : bool :=
  match i with
  | Primitive p => p_is_reg p
  | Compound c => c_is_reg c
  end.

Definition is_wide (p : PrimitiveItem) : bool := bool_decide (64 < p_width p)%Z.

Definition is_port (i : ModuleItem) : bool :=
  match i with
  | Primitive p => bool_decide (p_direction p ≠ None)
  | Compound _ => false
  end.

Definition is_input_port (p : PrimitiveItem) : bool :=
  bool_decide (p_direction p = Some INPUT).

Definition is_output_port (p : PrimitiveItem) : bool :=
  bool_decide (p_direction p = Some OUTPUT).

Definition name (i : ModuleItem) : string :=
  match i with
  | Primitive p => p_name p
  | Compound c => c_name c
  end.

Definition capacity (c : CompoundItem) : nat := size (c_element_indices c).

(** [dict.setdefault]: the value found, or the default after storing it. *)
Definition setdefault {V} (m : gmap string V) (k : string) (d : V)
    : V * gmap string V :=
  match m !! k with
  | Some v => (v, m)
  | None => (d, <[k:=d]> m)
  end.

(** [CompoundItem.register_element].  The dictionary
    [compound_items_in_module] is the store of the compound items; the
    call returns the store as it is when the call ends, also when it
    ends by an exception.  [item._element_indices.add] mutates the
    object held by the dictionary, which is an update of its entry. *)
Definition register_element (compound_items_in_module : gmap string ModuleItem)
    (module_name item_name : string) (is_reg : bool)
    (element_index element_width : Z)
    : result CompoundItem * gmap string ModuleItem :=
  let '(item, store) :=
    setdefault compound_items_in_module item_name
      (Compound (CompoundItem_init item_name is_reg element_width)) in
  match item with
  | Primitive _ => (Raise AssertionError, store)
  | Compound item =>
    if negb (eqb is_reg (c_is_reg item)) then
      (Raise (ValueError "incompatible types of elements"), store)
    else if negb (element_width =? c_element_width item)%Z then
      (Raise (ValueError "incompatible widths of elements"), store)
    else if bool_decide (element_index ∈ c_element_indices item) then
      (Raise (ValueError "duplicate index"), store)
    else
      let item' :=
        {| c_name := c_name item; c_is_reg := c_is_reg item;
           c_element_width := c_element_width item;
           c_element_indices := {[element_index]} ∪ c_element_indices item;
           c_inst_attrs := c_inst_attrs item |} in
      (Ok item', <[item_name := Compound item']> store)
  end.

(** *** [CompoundItem.ARRAY_ELEMENT]: the pattern
    [(?P<name>[!-~]+)\[(?P<index>\d+)\]], used with [match] (anchored at
    the start only).  Names are ASCII strings. *)

Definition is_graph (c : ascii) : bool :=
  (33 <=? nat_of_ascii c)%nat && (nat_of_ascii c <=? 126)%nat.

Definition is_digit (c : ascii) : bool :=
  (48 <=? nat_of_ascii c)%nat && (nat_of_ascii c <=? 57)%nat.

Definition digit_value (c : ascii) : Z := Z.of_nat (nat_of_ascii c - 48).

(** [\d+\]] at the head of [s]; [acc] is the value of the digits read so
    far ([None] when none was read).  The result is [int(index)]. *)
Fixpoint match_index (s : string) (acc : option Z) : option Z :=
  match s with
  | String c s' =>
    if is_digit c then match_index s' (Some (10 * default 0 acc + digit_value c))%Z
    else if Ascii.eqb c "]" then acc
    else None
  | EmptyString => None
  end.

(** [[!-~]*\[\d+\]] at the head of [s], the longest name first (the
    quantifier is greedy and backtracks from the longest run). *)
Fixpoint match_rest (s : string) : option (string * Z) :=
  match s with
  | String c s' =>
    if is_graph c then
      match match_rest s' with
      | Some (n, i) => Some (String c n, i)
      | None =>
        if Ascii.eqb c "[" then i ← match_index s' None; Some (EmptyString, i)
        else None
      end
    else None
  | EmptyString => None
  end.

Definition ARRAY_ELEMENT_match (s : string) : option (string * Z) :=
  match s with
  | String c s' =>
    if is_graph c then '(n, i) ← match_rest s'; Some (String c n, i)
    else None
  | EmptyString => None
  end.

(** [PrimitiveItem.new_instance] and [CompoundItem.new_instance] with the
    keyword arguments [kwargs].  A compound item that is an instance
    already is returned as it is, after the consistency assertion. *)
Definition new_instance (i : ModuleItem) (kwargs : InstAttrs) : result ModuleItem :=
  match i with
  | Primitive p =>
    Ok (Primitive {| p_name := p_name p; p_width := p_width p;
                     p_is_reg := p_is_reg p; p_direction := p_direction p;
                     p_inst_attrs := Some kwargs |})
  | Compound c =>
    match c_inst_attrs c with
    | Some attrs =>
      if decide (attrs = kwargs) then Ok (Compound c) else Raise AssertionError
    | None =>
      Ok (Compound {| c_name := c_name c; c_is_reg := c_is_reg c;
                      c_element_width := c_element_width c;
                      c_element_indices := c_element_indices c;
                      c_inst_attrs := Some kwargs |})
    end
  end.

Definition is_instance (i : ModuleItem) : bool :=
  match i with
  | Primitive p => bool_decide (p_inst_attrs p ≠ None)
  | Compound c => bool_decide (c_inst_attrs c ≠ None)
  end.

(** [str(i)] for a natural number. *)
Definition str_of_nat (i : nat) : string :=
  DecimalString.NilZero.string_of_uint (Nat.to_uint i).

(** The name [f'{name}[{i}]'] of an element of an array. *)
Definition element_name (name : string) (i : nat) : string :=
  name +:+ "[" +:+ str_of_nat i +:+ "]".

(** Every character of the string is in [[!-~]]. *)
Fixpoint all_graph (s : string) : bool :=
  match s with
  | EmptyString => true
  | String c s' => is_graph c && all_graph s'
  end.

End Item.

(** ** core/ir/module.py *)

Module Decl.
Import Item.

(** The JSON object written by yosys, as [json.loads] returns it.  A JSON
    object is a dictionary in insertion order: an association list whose
    keys are distinct. *)
Inductive JsonBit := BitNet (n : Z) | BitConst (s : string).

Record PortDetails := { port_direction : string; port_bits : list JsonBit }.
Record NetDetails := { net_hide_name : Z; net_bits : list JsonBit }.
Record CellDetails := { cell_hide_name : Z; cell_type : string }.

Record ModuleDetails := {
  memories : bool;  (* ['memories' in module_details.keys()] *)
  ports : list (string * PortDetails);
  netnames : list (string * NetDetails);
  cells : list (string * CellDetails)
}.

(** [info['modules']] *)
Abbreviation Modules := (list (string * ModuleDetails)).

(** A declaration.  The back reference [_model_design] is the dictionary
    [parse_verilog] returns next to the top-level declaration. *)
Record ModuleDeclaration := {
  _name : string;
  _ports : gmap string PrimitiveItem;
  _internals : gmap string ModuleItem;
  _submodules : gmap string string
}.

(** [ModuleDeclaration.__init__]: [{p.name: p for p in ports}] and
    [{i.name: i for i in internals}].  The sets are given as lists; where
    two internals share a name the source keeps the one its set yields
    last, here the one later in the list. *)
Definition ModuleDeclaration_init (name : string) (ports : list PrimitiveItem)
    (internals : list ModuleItem) (submodules : gmap string string)
    : ModuleDeclaration :=
  {| _name := name;
     _ports := foldl (λ m p, <[p_name p := p]> m) ∅ ports;
     _internals := foldl (λ m i, <[Item.name i := i]> m) ∅ internals;
     _submodules := submodules |}.

Definition not_hidden_net (d : NetDetails) : bool := (net_hide_name d =? 0)%Z.
Definition not_hidden_cell (d : CellDetails) : bool := (cell_hide_name d =? 0)%Z.

(** The ports of a module: primitive items whose [is_reg] is the literal
    [False]. *)
Definition build_ports (d : ModuleDetails) : list PrimitiveItem :=
  map (λ '(port_name, port_details),
         PrimitiveItem_init port_name (Z.of_nat (length (port_bits port_details)))
           false (Some (port_direction port_details)))
      (ports d).

(** One iteration of the loop over [netnames].  The state is the set
    [internals], split into its primitive items (in the order they were
    added) and the dictionary [compound_items_in_module], whose items the
    set shares. *)
Definition net_step (module_name : string) (register_names : gset string)
    (port_names : list string)
    (st : list PrimitiveItem * gmap string ModuleItem)
    (net : string * NetDetails)
    : result (list PrimitiveItem * gmap string ModuleItem) :=
  let '(prims, compound_items_in_module) := st in
  let '(net_name, net_details) := net in
  if not_hidden_net net_details && negb (bool_decide (net_name ∈ port_names)) then
    match ARRAY_ELEMENT_match net_name with
    | Some (arr_name, index) =>
      match register_element compound_items_in_module module_name arr_name
              (bool_decide (arr_name ∈ register_names)) index
              (Z.of_nat (length (net_bits net_details))) with
      | (Ok _, store) => Ok (prims, store)
      | (Raise e, _) => Raise e
      end
    | None =>
      Ok (prims ++ [PrimitiveItem_init net_name
                      (Z.of_nat (length (net_bits net_details)))
                      (bool_decide (net_name ∈ register_names)) None],
          compound_items_in_module)
    end
  else Ok st.

Definition build_internals (module_name : string) (register_names : gset string)
    (d : ModuleDetails) : result (list ModuleItem) :=
  '(prims, compounds) ← foldM (net_step module_name register_names (ports d).*1)
                           (netnames d) ([], ∅);
  Ok (map Primitive prims ++ (map_to_list compounds).*2).

(** The types of the cells that are not hidden, in order. *)
Definition visible_cells (d : ModuleDetails) : list (string * string) :=
  map (λ '(cell_name, cell_details), (cell_name, cell_type cell_details))
      (filter (λ c, not_hidden_cell c.2 = true) (cells d)).

(** One iteration of the loop over the modules; the state is
    [(model_design, non_top_modules)]. *)
Definition load_module (registers_by_module : gmap string (gset string))
    (st : gmap string ModuleDeclaration * gset string)
    (m : string * ModuleDetails)
    : result (gmap string ModuleDeclaration * gset string) :=
  let '(model_design, non_top_modules) := st in
  let '(module_name, module_details) := m in
  if memories module_details then Raise (NotImplementedError "memories is not supported")
  else
    let register_names := default ∅ (registers_by_module !! module_name) in
    internals ← build_internals module_name register_names module_details;
    let submodules : gmap string string :=
      foldl (λ acc c, <[c.1 := c.2]> acc) ∅ (visible_cells module_details) in
    Ok (<[module_name :=
            ModuleDeclaration_init module_name (build_ports module_details)
              internals submodules]> model_design,
        non_top_modules ∪ list_to_set (visible_cells module_details).*2).

(** [ModuleDeclaration.parse_verilog].  [registers_by_module] is the
    result of the tree-sitter scan and [modules] the JSON of yosys.  The
    result is the value of [model_design.get(top)] and [model_design]. *)
Definition parse_verilog (registers_by_module : gmap string (gset string))
    (modules : Modules)
    : result (option ModuleDeclaration * gmap string ModuleDeclaration) :=
  '(model_design, non_top_modules) ← foldM (load_module registers_by_module)
                                        modules (∅, ∅);
  let top_modules := dom model_design ∖ non_top_modules in
  if bool_decide (size top_modules ≠ 1) then
    Raise (ValueError "multiple top-level modules found")
  else
    match elements top_modules with
    | top :: _ => Ok (model_design !! top, model_design)
    | [] => Raise KeyError
    end.

(** *** [ModuleInstance] *)

Record ModuleInstance := {
  _declaration : ModuleDeclaration;
  _port_instances : gmap string ModuleItem;
  _internal_instances : gmap string ModuleItem
}.

(** [ModuleDeclaration.new_instance] *)
Definition ModuleInstance_init (module_decl : ModuleDeclaration) : ModuleInstance :=
  {| _declaration := module_decl; _port_instances := ∅; _internal_instances := ∅ |}.

Definition module_type (inst : ModuleInstance) : string := _name (_declaration inst).

(** [find_decl]: the declaration of the name, an internal item before a
    port, or [None]. *)
Definition find_decl (inst : ModuleInstance) (name : string) : option ModuleItem :=
  match _internals (_declaration inst) !! name with
  | Some i => Some i
  | None => Primitive <$> _ports (_declaration inst) !! name
  end.

(** [find_instance]: the instance, or [inr decl] for the exception
    [ItemNotFoundError(decl)] that carries the declaration found. *)
Definition find_instance (inst : ModuleInstance) (name : string)
    : ModuleItem + option ModuleItem :=
  match _internal_instances inst !! name with
  | Some i => inl i
  | None =>
    match _port_instances inst !! name with
    | Some i => inl i
    | None => inr (find_decl inst name)
    end
  end.

(** [instantiate_item(item_name, **attrs)]: the instance after the call. *)
Definition instantiate_item (inst : ModuleInstance) (item_name : string)
    (attrs : InstAttrs) : result ModuleInstance :=
  match find_decl inst item_name with
  | Some decl =>
    if is_port decl then
      i ← new_instance decl attrs;
      Ok {| _declaration := _declaration inst;
            _port_instances := <[item_name := i]> (_port_instances inst);
            _internal_instances := _internal_instances inst |}
    else if bool_decide (_internal_instances inst !! item_name = None) then
      i ← new_instance decl attrs;
      Ok {| _declaration := _declaration inst;
            _port_instances := _port_instances inst;
            _internal_instances := <[item_name := i]> (_internal_instances inst) |}
    else
      match decl with
      | Compound _ => Ok inst
      | Primitive _ => Raise (ValueError "duplicate instantiation")
      end
  | None => Raise (ValueError "not found in module")
  end.

(** The instances a module instance holds were made from declarations of
    the module, the internal ones from items that are not ports. *)
Definition instances_declared (inst : ModuleInstance) : Prop :=
  ∀ name i, _internal_instances inst !! name = Some i →
    ∃ decl, find_decl inst name = Some decl ∧ is_port decl = false
            ∧ Item.name i = Item.name decl ∧ is_register i = is_register decl
            ∧ is_instance i = true.

(** The details of a module with a port, a hidden net, a register and an
    array of two elements, used as an example. *)
Definition example_details : ModuleDetails :=
  {| memories := false;
     ports := [("clk", {| port_direction := "input"; port_bits := [BitNet 2] |})];
     netnames := [("clk", {| net_hide_name := 0; net_bits := [BitNet 2] |});
                  ("$tmp", {| net_hide_name := 1; net_bits := [BitNet 3] |});
                  ("state", {| net_hide_name := 0; net_bits := [BitNet 4; BitNet 5] |});
                  ("mem[0]", {| net_hide_name := 0; net_bits := [BitNet 6] |});
                  ("mem[1]", {| net_hide_name := 0; net_bits := [BitNet 7] |})];
     cells := [] |}.

(** A declaration with an internal wire [w], an array [arr] and a port
    [clk], used as an example. *)
Definition example_declaration : ModuleDeclaration :=
  ModuleDeclaration_init "m"
    [PrimitiveItem_init "clk" 1 false (Some "input")]
    [Primitive (PrimitiveItem_init "w" 4 false None);
     Compound {| c_name := "arr"; c_is_reg := true; c_element_width := 8;
                 c_element_indices := {[0%Z; 1%Z]}; c_inst_attrs := None |}]
    ∅.

(** *** Vocabulary of the statements about [parse_verilog] *)

Definition is_Ok {A} (r : result A) : bool :=
  match r with Ok _ => true | Raise _ => false end.

(** The names of the modules of the unit. *)
Definition module_names (modules : Modules) : gset string :=
  list_to_set modules.*1.

(** The module types that some cell which is not hidden instantiates, in
    any module of the unit. *)
Definition referenced (modules : Modules) : gset string :=
  list_to_set (mjoin (map (λ m, (visible_cells m.2).*2) modules)).

(** The modules of the unit that no such cell instantiates. *)
Definition top_candidates (modules : Modules) : gset string :=
  module_names modules ∖ referenced modules.

Definition no_memories (modules : Modules) : Prop :=
  Forall (λ m, memories m.2 = false) modules.

(** The items of every module can be built: no array has elements of two
    widths or kinds, or twice the same index. *)
Definition items_ok (registers_by_module : gmap string (gset string))
    (modules : Modules) : Prop :=
  Forall (λ m, is_Ok (build_internals m.1
                        (default ∅ (registers_by_module !! m.1)) m.2) = true)
         modules.

(** Every port of every declaration of the dictionary is not a register. *)
Definition ports_not_registers (model_design : gmap string ModuleDeclaration)
    : Prop :=
  ∀ m d, model_design !! m = Some d →
    ∀ n p, _ports d !! n = Some p → is_register (Primitive p) = false.

(** *** Units used as examples *)

Definition bit0 : list JsonBit := [BitNet 2].

(** [module counter(output reg q); reg [0:0] q; ... endmodule]: the port
    [q] is declared [reg] and the scan finds it. *)
Definition unit_reg_port : Modules :=
  [("counter",
    {| memories := false;
       ports := [("q", {| port_direction := "output"; port_bits := bit0 |})];
       netnames := [("q", {| net_hide_name := 0; net_bits := bit0 |});
                    ("tmp", {| net_hide_name := 0; net_bits := bit0 |})];
       cells := [] |})].

Definition scan_reg_port : gmap string (gset string) :=
  {["counter" := {["q"; "tmp"]}]}.

(** A top module with one instance of a leaf module. *)
Definition unit_two_modules : Modules :=
  [("leaf",
    {| memories := false;
       ports := [("a", {| port_direction := "input"; port_bits := bit0 |})];
       netnames := [("a", {| net_hide_name := 0; net_bits := bit0 |})];
       cells := [] |});
   ("top",
    {| memories := false;
       ports := [("a", {| port_direction := "input"; port_bits := bit0 |})];
       netnames := [("a", {| net_hide_name := 0; net_bits := bit0 |});
                    ("w[0]", {| net_hide_name := 0; net_bits := bit0 |});
                    ("w[1]", {| net_hide_name := 0; net_bits := bit0 |})];
       cells := [("u0", {| cell_hide_name := 0; cell_type := "leaf" |})] |})].

(** A single module that holds a memory. *)
Definition unit_memory : Modules :=
  [("ram",
    {| memories := true;
       ports := [("a", {| port_direction := "input"; port_bits := bit0 |})];
       netnames := [("a", {| net_hide_name := 0; net_bits := bit0 |})];
       cells := [] |})].

(** [top] instantiates [leaf] through a cell whose name yosys created. *)
Definition unit_hidden_cell : Modules :=
  [("leaf", {| memories := false; ports := []; netnames := []; cells := [] |});
   ("top",
    {| memories := false; ports := []; netnames := [];
       cells := [("$auto$1", {| cell_hide_name := 1; cell_type := "leaf" |})] |})].

(** *** [registers_by_module_in], from the captures of the query *)

(** A capture as the loop sees it: [(node.start_byte, node.text.decode(),
    label)]. *)
Abbreviation Capture := (nat * string * string)%type.

(** The order of Python on these tuples. *)
Definition capture_lt (a b : Capture) : bool :=
  let '(p1, n1, l1) := a in
  let '(p2, n2, l2) := b in
  (p1 <? p2)
  || ((p1 =? p2)
      && (String.ltb n1 n2 || (String.eqb n1 n2 && String.ltb l1 l2))).

(** [sorted(set(...))]: the distinct tuples in increasing order. *)
Fixpoint insert_capture (c : Capture) (l : list Capture) : list Capture :=
  match l with
  | [] => [c]
  | x :: l' =>
    if decide (c = x) then l
    else if capture_lt c x then c :: l
    else x :: insert_capture c l'
  end.

Definition sorted_set (captures : list Capture) : list Capture :=
  foldr insert_capture [] captures.

(** One round of the loop; the state is [current_module] and [result]. *)
Definition scan_step (st : option string * gmap (option string) (gset string))
    (c : Capture) : option string * gmap (option string) (gset string) :=
  let '(current_module, result) := st in
  let '(_, name, label) := c in
  if String.eqb label "module-id" then (Some name, result)
  else if String.eqb label "reg-id" then
    (current_module,
     <[current_module := {[name]} ∪ default ∅ (result !! current_module)]> result)
  else st.

Definition registers_by_module_in (captures : list Capture)
    : gmap (option string) (gset string) :=
  (foldl scan_step (None, ∅) (sorted_set captures)).2.

(** [current_module] after the loop has seen the captures [l] (used in
    the proofs). *)
Definition current_module_after (current_module : option string) (l : list Capture)
    : option string :=
  foldl (λ cur c, if String.eqb c.2 "module-id" then Some c.1.2 else cur)
        current_module l.

(** Captures of a file with two modules, given out of order. *)
Definition example_captures : list Capture :=
  [(40, "q", "reg-id"); (7, "top", "module-id"); (90, "r", "reg-id");
   (60, "leaf", "module-id"); (25, "state", "reg-id"); (7, "top", "module-id")].

End Decl.

(** ** core/ir/crossbar.py: [VerilatorNamingHelper] *)

Module VerilatorNamingHelper.

(** A Python [str] is the list of its characters. *)
Abbreviation str := (list ascii).

Definition lit (s : string) : str := list_ascii_of_string s.

(** [s.startswith(p)] *)
Fixpoint startswith (p s : str) : bool :=
  match p, s with
  | [], _ => true
  | a :: p', b :: s' => Ascii.eqb a b && startswith p' s'
  | _ :: _, [] => false
  end.

(** [sub in s] *)
Fixpoint contains (sub s : str) : bool :=
  startswith sub s ||
  match s with
  | [] => false
  | _ :: s' => contains sub s'
  end.

(** [s.replace(old, new)] scans [s] from the left and replaces the
    occurrences of [old] that do not overlap.  [skip] counts the characters
    of the occurrence just replaced that are still to be passed over. *)
Fixpoint replace_from (old new : str) (skip : nat) (s : str) : str :=
  match s with
  | [] => []
  | c :: s' =>
    match skip with
    | S k => replace_from old new k s'
    | O =>
      if startswith old (c :: s') then
        new ++ replace_from old new (length old - 1) s'
      else c :: replace_from old new 0 s'
    end
  end.

Definition replace (old new s : str) : str :=
  match old with
  | [] => new ++ flat_map (λ c, c :: new) s
  | _ :: _ => replace_from old new 0 s
  end.

(** [s.split(sep)] for a separator that is not empty: the pieces between
    the occurrences of [sep] found from the left. *)
Fixpoint split_from (sep : str) (skip : nat) (s : str) : list str :=
  match s with
  | [] => [[]]
  | c :: s' =>
    match skip with
    | S k => split_from sep k s'
    | O =>
      if startswith sep (c :: s') then [] :: split_from sep (length sep - 1) s'
      else
        match split_from sep 0 s' with
        | piece :: pieces => (c :: piece) :: pieces
        | [] => [[c]]
        end
    end
  end.

Definition str_split (sep s : str) : list str := split_from sep 0 s.

(** [sep.join(l)] (also used on sequences of tokens) *)
Fixpoint join {A} (sep : list A) (l : list (list A)) : list A :=
  match l with
  | [] => []
  | x :: l' =>
    match l' with
    | [] => x
    | _ :: _ => x ++ sep ++ join sep l'
    end
  end.

Definition DOT : str := Eval cbv in lit "__DOT__".
Definition LPAREN : str := Eval cbv in lit "__BRA__".
Definition RPAREN : str := Eval cbv in lit "__KET__".
Definition DOLLAR : str := Eval cbv in lit "__024".

Definition split (full_name : str) : list str :=
  let full_name := replace DOLLAR (lit "$") full_name in
  if negb (contains DOT full_name) then
    (* input/output port of the top module *)
    [full_name]
  else
    let name := replace RPAREN (lit "]") (replace LPAREN (lit "[") full_name) in
    str_split DOT name.

(** [merge] appends [item] to the list it is given; the embedding builds
    the extended list instead. *)
Definition merge (submodules : list str) (item : str) (is_port : bool) : str :=
  if (length submodules =? 1)%nat && is_port then
    (* port of the top module *)
    replace (lit "$") DOLLAR item
  else
    let var_name := join DOT (submodules ++ [item]) in
    let var_name := replace (lit "[") LPAREN var_name in
    let var_name := replace (lit "]") RPAREN var_name in
    replace (lit "$") DOLLAR var_name.

(** *** Names for which the round trip is stated: a name that contains
    none of [__], [DOT], [BRA], [KET] and [024]. *)
Definition forbidden : list str :=
  Eval cbv in map lit ["__"; "DOT"; "BRA"; "KET"; "024"].

Definition legal (name : str) : bool :=
  forallb (λ p, negb (contains p name)) forbidden.

(** *** The merged name as a sequence of tokens (used in the proofs) *)

Inductive kind := KDot | KBra | KKet | KDollar.

Inductive tok :=
| Plain (c : ascii)
| Esc (k : kind).

Definition pattern (k : kind) : str :=
  match k with
  | KDot => DOT
  | KBra => LPAREN
  | KKet => RPAREN
  | KDollar => DOLLAR
  end.

Definition plain_of (k : kind) : ascii :=
  match k with
  | KDot => "."
  | KBra => "["
  | KKet => "]"
  | KDollar => "$"
  end%char.

Definition kind_eqb (k1 k2 : kind) : bool :=
  match k1, k2 with
  | KDot, KDot | KBra, KBra | KKet, KKet | KDollar, KDollar => true
  | _, _ => false
  end.

Definition render_tok (t : tok) : str :=
  match t with
  | Plain c => [c]
  | Esc k => pattern k
  end.

Definition render (ts : list tok) : str := flat_map render_tok ts.

(** The token of a character of a name, when the kinds in [enc] are
    escaped. *)
Definition classify (enc : kind → bool) (c : ascii) : tok :=
  if Ascii.eqb c "[" && enc KBra then Esc KBra
  else if Ascii.eqb c "]" && enc KKet then Esc KKet
  else if Ascii.eqb c "$" && enc KDollar then Esc KDollar
  else Plain c.

Definition all_escaped : kind → bool := λ _, true.
Definition dollar_only : kind → bool := kind_eqb KDollar.
Definition without (k : kind) (enc : kind → bool) : kind → bool :=
  λ k', enc k' && negb (kind_eqb k k').

Definition name_toks (enc : kind → bool) (name : str) : list tok :=
  map (classify enc) name.

(** The tokens of the names joined by the separator. *)
Definition names_toks (enc : kind → bool) (names : list str) : list tok :=
  join [Esc KDot] (map (name_toks enc) names).

(** The effect of one pass of [split] on the tokens. *)
Definition decode (k : kind) (ts : list tok) : list tok :=
  map (λ t, match t with
            | Esc k' => if kind_eqb k k' then Plain (plain_of k) else t
            | Plain _ => t
            end) ts.

(** No occurrence of [P] starts inside [w] when [w] is followed by [rest]. *)
Fixpoint clean (P w rest : str) : bool :=
  match w with
  | [] => true
  | c :: w' => negb (startswith P (w ++ rest)) && clean P w' rest
  end.

(** A scan for the escape [k] meets its occurrences only where a token
    [Esc k] starts. *)
Fixpoint safe (k : kind) (ts : list tok) : Prop :=
  match ts with
  | [] => True
  | t :: ts' =>
    (t = Esc k ∨ clean (pattern k) (render_tok t) (render ts') = true) ∧ safe k ts'
  end.

Definition bad3 (a b c : ascii) : bool :=
  existsb (λ p, startswith p [a; b; c]) (tail forbidden).

Definition ok_head (t : tok) (ts : list tok) : Prop :=
  match t, ts with
  | Plain a, Plain b :: ts' =>
    ¬ (a = "_"%char ∧ b = "_"%char)
    ∧ match ts' with
      | Plain c :: _ => bad3 a b c = false
      | _ => True
      end
  | _, _ => True
  end.

Fixpoint wf (ts : list tok) : Prop :=
  match ts with
  | [] => True
  | t :: ts' => ok_head t ts' ∧ wf ts'
  end.

(** The pieces between the tokens [Esc KDot]. *)
Fixpoint tsplit (ts : list tok) : list (list tok) :=
  match ts with
  | [] => [[]]
  | Esc KDot :: ts' => [] :: tsplit ts'
  | t :: ts' =>
    match tsplit ts' with
    | piece :: pieces => (t :: piece) :: pieces
    | [] => [[t]]
    end
  end.

End VerilatorNamingHelper.

(** ** core/ir/crossbar.py: [VerilatorCppCrossbar] and [YosysCxxCrossbar] *)

Module CxxCrossbar.
Import VerilatorNamingHelper.

(** [VerilatorCppCrossbar.escape_name] *)
Definition escape_name (name : str) : str := replace (lit "$") DOLLAR name.

(** [YosysCxxCrossbar.mangle_name] *)
Definition mangle_name (name : str) : str :=
  replace (lit "$") (lit "_24_") (replace (lit "_") (lit "__") name).

(** The code of one character in a mangled name (used in the proofs). *)
Definition mangle_char (c : ascii) : str :=
  if Ascii.eqb c "_" then lit "__"
  else if Ascii.eqb c "$" then lit "_24_"
  else [c].

End CxxCrossbar.

(** ** core/ir/crossbar.py: the atom variables of [KleeSmtCrossbar.to_data] *)

Module KleeSmtCrossbar.
Import Item.

Record AtomVariable := {
  atom_name : string;
  atom_offset : Z;
  atom_bytes : Z
}.

(** The exceptions of the attribute look-ups and of the division. *)
Inductive error :=
| AttributeError (name : string)
| ZeroDivision.

(** [item.<name>] through [__getattr__]: the attribute attached at the
    instantiation. *)
Definition getattr_item (item : ModuleItem) (name : string) : error + Z :=
  let inst_attrs :=
    match item with
    | Primitive p => p_inst_attrs p
    | Compound c => c_inst_attrs c
    end in
  match inst_attrs with
  | Some attrs =>
    match attrs !! name with
    | Some v => inr v
    | None => inl (AttributeError name)
    end
  | None => inl (AttributeError name)
  end.

(** [f'{var_name}_{index}'] *)
Definition indexed_name (var_name : string) (index : nat) : string :=
  var_name +:+ "_" +:+ str_of_nat index.

(** The atoms of one element of a compound item. *)
Definition element_atoms (var_name : string) (offset element_bytes : Z)
    (element_index : nat) : list AtomVariable :=
  let element_offset := (offset + Z.of_nat element_index * element_bytes)%Z in
  if (element_bytes <? 8)%Z then
    [{| atom_name := indexed_name var_name element_index;
        atom_offset := element_offset; atom_bytes := element_bytes |}]
  else (* handle wide variables here *)
    let words := Z.to_nat (element_bytes / 4) in
    map (λ i, {| atom_name := indexed_name var_name (element_index * words + i);
                 atom_offset := (element_offset + Z.of_nat i * 4)%Z;
                 atom_bytes := 4 |})
        (seq 0 words).

(** The list [atom_variables] that the loop body of [to_data] builds for
    the variable name and the instance that [VerilatorNamingHelper.find]
    returns.  The attributes are looked up where the code evaluates them:
    [offset] only when a loop body runs. *)
Definition atom_variables (var_name : string) (item_inst : ModuleItem)
    : error + list AtomVariable :=
  match item_inst with
  | Compound c =>
    match getattr_item item_inst "bytes" with
    | inl e => inl e
    | inr bytes =>
      if (capacity c =? 0)%nat then inl ZeroDivision
      else
        let element_bytes := (bytes / Z.of_nat (capacity c))%Z in
        match getattr_item item_inst "offset" with
        | inl e => inl e
        | inr offset =>
          inr (flat_map (element_atoms var_name offset element_bytes)
                        (seq 0 (capacity c)))
        end
    end
  | Primitive p =>
    if is_wide p then (* primitive wide item *)
      match getattr_item item_inst "bytes" with
      | inl e => inl e
      | inr bytes =>
        let words := Z.to_nat (bytes / 4) in
        match words with
        | O => inr []
        | S _ =>
          match getattr_item item_inst "offset" with
          | inl e => inl e
          | inr offset =>
            inr (map (λ i, {| atom_name := indexed_name var_name i;
                              atom_offset := (offset + Z.of_nat i * 4)%Z;
                              atom_bytes := 4 |})
                     (seq 0 words))
          end
        end
      end
    else
      match getattr_item item_inst "offset" with
      | inl e => inl e
      | inr offset =>
        match getattr_item item_inst "bytes" with
        | inl e => inl e
        | inr bytes =>
          inr [{| atom_name := var_name; atom_offset := offset; atom_bytes := bytes |}]
        end
      end
  end.

(** *** Vocabulary of the statements *)

(** The atoms lie one after the other, in order, within [[lo, hi)]. *)
Fixpoint laid_out (lo hi : Z) (atoms : list AtomVariable) : Prop :=
  match atoms with
  | [] => (lo ≤ hi)%Z
  | a :: atoms' =>
    (lo ≤ atom_offset a)%Z ∧ (0 ≤ atom_bytes a)%Z
    ∧ laid_out (atom_offset a + atom_bytes a) hi atoms'
  end.

(** An array of three elements of 8 bytes at offset 16, instantiated. *)
Definition example_array : ModuleItem :=
  Compound {| c_name := "mem"; c_is_reg := true; c_element_width := 64;
              c_element_indices := {[0%Z; 1%Z; 2%Z]};
              c_inst_attrs := Some {["offset" := 16%Z; "bytes" := 24%Z]} |}.

End KleeSmtCrossbar.

(** ** core/mutators/heuristics.py: [Replacement], [ByteCoverage] and
    [BytesEditor] *)

Module Heuristics.

(** Replace [data[start:end]] with the substitute.  Byte offsets are the
    non-negative offsets of tree-sitter. *)
Record Replacement := {
  start_byte : nat;
  end_byte : nat;
  substitute : list ascii
}.

(** [l[i:j]] for non-negative [i] and [j]: empty when [j <= i], cut at the
    end of [l]. *)
Definition slice {A} (l : list A) (i j : nat) : list A := take (j - i) (drop i l).

Fixpoint count {A} (p : A → bool) (l : list A) : nat :=
  match l with
  | [] => 0
  | a :: l' => (if p a then 1 else 0) + count p l'
  end.

(** [l.count(True)] and [l.count(False)] *)
Definition count_true (l : list bool) : nat := count id l.
Definition count_false (l : list bool) : nat := count negb l.

(** [itertools.zip_longest(l1, l2, fillvalue=fill)], each pair flattened
    as [chain.from_iterable] does. *)
Fixpoint zip_longest_chain {A} (fill : A) (l1 l2 : list A) : list A :=
  match l1 with
  | [] => flat_map (λ b, [fill; b]) l2
  | a :: l1' =>
    match l2 with
    | [] => a :: fill :: zip_longest_chain fill l1' []
    | b :: l2' => a :: b :: zip_longest_chain fill l1' l2'
    end
  end.

(** [ByteCoverage.__init__] *)
Definition ByteCoverage_init (start_byte end_byte : nat) : list bool :=
  replicate (end_byte - start_byte) false.

(** [ByteCoverage.query] *)
Definition query (covered_bytes : list bool) (replacements : list Replacement) : Z :=
  let to_be_covered :=
    foldr Z.add 0%Z
      (map (λ r, (Z.of_nat (count_false (slice covered_bytes (start_byte r) (end_byte r)))
                  + Z.of_nat (length (substitute r))
                  - (Z.of_nat (end_byte r) - Z.of_nat (start_byte r)))%Z)
           replacements) in
  (to_be_covered * Z.of_nat (count_true covered_bytes))%Z.

(** The coverage array [ByteCoverage.update] stores. *)
Definition updated (covered_bytes : list bool) (replacements : list Replacement)
    : list bool :=
  let start_bytes := 0 :: map end_byte replacements in
  let end_bytes := map start_byte replacements ++ [length covered_bytes] in
  let remainders :=
    map (λ '(i, j), slice covered_bytes i j) (zip start_bytes end_bytes) in
  let insertions :=
    map (λ r, replicate (end_byte r - start_byte r) true) replacements in
  concat (zip_longest_chain [] remainders insertions).

(** The value [update] returns: the exact quotient of the two counts (of
    which the Python float is the rounding), or [ZeroDivisionError]. *)
Definition percentage (covered_bytes : list bool) : result Q :=
  match length covered_bytes with
  | O => Raise ZeroDivisionError
  | S _ => Ok (Z.of_nat (count_true covered_bytes)
               # Pos.of_nat (length covered_bytes))
  end.

(** [ByteCoverage.update]: the new array and the value returned. *)
Definition update (covered_bytes : list bool) (replacements : list Replacement)
    : list bool * result Q :=
  let covered_bytes := updated covered_bytes replacements in
  (covered_bytes, percentage covered_bytes).

(** *** [BytesEditor] *)

Definition NEWLINE : ascii := "010"%char.

(** [l.rfind(c)]: the highest index of [c] in [l], or [-1]. *)
Fixpoint rfind (c : ascii) (l : list ascii) : Z :=
  match l with
  | [] => -1
  | a :: l' =>
    let r := rfind c l' in
    if (0 <=? r)%Z then (r + 1)%Z
    else if Ascii.eqb a c then 0%Z else (-1)%Z
  end.

(** [BytesEditor.calculate_point], for an offset that is not negative:
    [count] and [rfind] look at [data[0:offset]]. *)
Definition calculate_point (data : list ascii) (offset : nat) : nat * Z :=
  let line := count (Ascii.eqb NEWLINE) (slice data 0 offset) in
  let column := (Z.of_nat offset - (rfind NEWLINE (slice data 0 offset) + 1))%Z in
  (line, column).

Record BytesEditor := {
  ed_data : list ascii;
  ed_replacements : list Replacement;
  ed_start_byte : nat;
  ed_end_byte : Z
}.

(** The order of the keys [(r.start_byte, r.end_byte)]. *)
Definition key_le (r s : Replacement) : bool :=
  (start_byte r <? start_byte s)
  || ((start_byte r =? start_byte s) && (end_byte r <=? end_byte s)).

(** [sorted(replacements, key=...)]: a stable sort, here by insertion (an
    element goes in front of the later ones with the same key). *)
Fixpoint insert_by_key (r : Replacement) (l : list Replacement) : list Replacement :=
  match l with
  | [] => [r]
  | s :: l' => if key_le r s then r :: s :: l' else s :: insert_by_key r l'
  end.

Definition sorted_by_key (l : list Replacement) : list Replacement :=
  foldr insert_by_key [] l.

(** The assertions of [__init__] over [pairwise(self.replacements)]. *)
Fixpoint pairwise_assert (l : list Replacement) : result unit :=
  match l with
  | [] => Ok tt
  | r :: l' =>
    match l' with
    | [] => Ok tt
    | s :: _ =>
      if end_byte r <=? start_byte s then pairwise_assert l'
      else Raise AssertionError
    end
  end.

(** [BytesEditor.__init__]; [self.replacements[0]] raises [IndexError] on
    the empty list. *)
Definition BytesEditor_init (data : list ascii) (replacements : list Replacement)
    : result BytesEditor :=
  let replacements := sorted_by_key replacements in
  _ ← pairwise_assert replacements;
  match head replacements, last replacements with
  | Some r0, Some rn =>
    Ok {| ed_data := data; ed_replacements := replacements;
          ed_start_byte := start_byte r0;
          ed_end_byte := Z.of_nat (end_byte rn) |}
  | _, _ => Raise IndexError
  end.

(** The data [BytesEditor.apply] builds. *)
Definition new_data (data : list ascii) (replacements : list Replacement)
    : list ascii :=
  let start_bytes := 0 :: map end_byte replacements in
  let end_bytes := map start_byte replacements ++ [length data] in
  let remainders :=
    map (λ '(i, j), slice data i j) (zip start_bytes end_bytes) in
  let insertions := map substitute replacements in
  concat (zip_longest_chain [] remainders insertions).

(** [BytesEditor.apply] *)
Definition apply (self : BytesEditor) : BytesEditor :=
  let data' := new_data (ed_data self) (ed_replacements self) in
  let new_end_byte :=
    (ed_end_byte self
     + (Z.of_nat (length data') - Z.of_nat (length (ed_data self))))%Z in
  {| ed_data := data'; ed_replacements := [];
     ed_start_byte := ed_start_byte self; ed_end_byte := new_end_byte |}.

(** *** [MakeFunction.to_be_replaced] *)

(** A node of the syntax tree: its identity and its range of bytes. *)
Record Node := {
  node_id : nat;
  node_start_byte : nat;
  node_end_byte : nat
}.

#[export] Instance Node_eq_dec : EqDecision Node.
Proof. solve_decision. Defined.

(** [sorted(exprs, key=lambda n: n.start_byte)], a stable sort. *)
Fixpoint insert_by_start (n : Node) (l : list Node) : list Node :=
  match l with
  | [] => [n]
  | s :: l' =>
    if node_start_byte n <=? node_start_byte s then n :: s :: l'
    else s :: insert_by_start n l'
  end.

Definition sorted_by_start (l : list Node) : list Node := foldr insert_by_start [] l.

(** [l.remove(n)]: without the first element equal to [n]; [None] when
    there is none ([ValueError]). *)
Fixpoint list_remove (n : Node) (l : list Node) : option (list Node) :=
  match l with
  | [] => None
  | x :: l' =>
    if decide (x = n) then Some l'
    else l'' ← list_remove n l'; Some (x :: l'')
  end.

(** One round of the loop; the state is [min_start_byte] and the list
    [exprs_to_be_replaced]. *)
Definition to_be_replaced_step (st : nat * list Node) (node : Node)
    : result (nat * list Node) :=
  let '(min_start_byte, exprs_to_be_replaced) := st in
  if min_start_byte <=? node_start_byte node then
    Ok (node_end_byte node, exprs_to_be_replaced)
  else
    match list_remove node exprs_to_be_replaced with
    | Some exprs => Ok (min_start_byte, exprs)
    | None => Raise (ValueError "list.remove(x): x not in list")
    end.

(** [to_be_replaced], from the sample [exprs_to_be_replaced] drawn. *)
Definition to_be_replaced (exprs_to_be_replaced : list Node) : result (list Node) :=
  '(_, exprs) ← foldM to_be_replaced_step (sorted_by_start exprs_to_be_replaced)
                  (0, exprs_to_be_replaced);
  Ok exprs.

(** *** Vocabulary of the statements *)

(** The ranges of no two nodes of the list overlap. *)
Definition disjoint_nodes (l : list Node) : Prop :=
  ∀ i j a b, i ≠ j → l !! i = Some a → l !! j = Some b →
    node_end_byte a ≤ node_start_byte b ∨ node_end_byte b ≤ node_start_byte a.

(** The bytes that the substitutes of a batch add to their ranges. *)
Definition growth (rs : list Replacement) : Z :=
  foldr Z.add 0%Z
    (map (λ r, (Z.of_nat (length (substitute r))
                - (Z.of_nat (end_byte r) - Z.of_nat (start_byte r)))%Z) rs).

(** The data built from position [lo] on (used in the proofs). *)
Fixpoint splice (data : list ascii) (lo : nat) (rs : list Replacement) : list ascii :=
  match rs with
  | [] => slice data lo (length data)
  | r :: rs' =>
    slice data lo (start_byte r) ++ substitute r ++ splice data (end_byte r) rs'
  end.

(** A batch sorted by position whose ranges [[start_byte, end_byte)] do
    not overlap, the first one starting at [lo] or later. *)
Fixpoint batch_from (lo : nat) (rs : list Replacement) : Prop :=
  match rs with
  | [] => True
  | r :: rs' => lo ≤ start_byte r ∧ start_byte r ≤ end_byte r
                ∧ batch_from (end_byte r) rs'
  end.

Definition sorted_batch (rs : list Replacement) : Prop := batch_from 0 rs.

Definition in_ranges (rs : list Replacement) (i : nat) : bool :=
  existsb (λ r, (start_byte r <=? i) && (i <? end_byte r)) rs.

(** The array built from position [lo] on (used in the proofs). *)
Fixpoint weave (cov : list bool) (lo : nat) (rs : list Replacement) : list bool :=
  match rs with
  | [] => slice cov lo (length cov)
  | r :: rs' =>
    slice cov lo (start_byte r) ++ replicate (end_byte r - start_byte r) true
    ++ weave cov (end_byte r) rs'
  end.

Definition Q_le (p1 p2 : result Q) : Prop :=
  match p1, p2 with
  | Ok q1, Ok q2 => (q1 <= q2)%Q
  | _, _ => True
  end.

End Heuristics.

(** ** core/ir/view.py *)

Module View.
Import Item.

Record HierarchicalPathName := {
  module_instance_id : Z;
  item_name : string
}.

#[export] Instance HierarchicalPathName_eq_dec : EqDecision HierarchicalPathName.
Proof. solve_decision. Defined.

#[export] Instance HierarchicalPathName_countable : Countable HierarchicalPathName.
Proof.
  refine (inj_countable' (λ p, (module_instance_id p, item_name p))
                         (λ t, {| module_instance_id := t.1; item_name := t.2 |}) _).
  by intros [].
Defined.

Inductive VIEWS :=
| all_items
| internal_registers
| internal_wires
| input_ports
| output_ports
| combination_inputs
| combination_outputs.

(** A model, as the three iterations over the tree that the views are
    built from: [(path, instance)] pairs in the order they are yielded. *)
Record ModelTreeView := {
  _input_ports : list (HierarchicalPathName * ModuleItem);
  _output_ports : list (HierarchicalPathName * ModuleItem);
  _internals : list (HierarchicalPathName * ModuleItem)
}.

(** [getattr(model, key)] *)
Definition getattr (m : ModelTreeView) (key : VIEWS)
    : list (HierarchicalPathName * ModuleItem) :=
  let registers := filter (λ pi, is_register pi.2 = true) (_internals m) in
  match key with
  | all_items => _input_ports m ++ _output_ports m ++ _internals m
  | internal_registers => registers
  | internal_wires => filter (λ pi, is_register pi.2 = false) (_internals m)
  | input_ports => _input_ports m
  | output_ports => _output_ports m
  | combination_inputs => _input_ports m ++ registers
  | combination_outputs => _output_ports m ++ registers
  end.

End View.

(** ** core/circuits/smt.py *)

Module Smt.
Import Item View.

(** *** Formulas of pysmt *)

Inductive SmtType :=
| BOOL
| BVType (width : N)
| CustomType (name : string).

(** The name of a symbol: given, or made by [FreshSymbol]. *)
Inductive SymName :=
| Named (s : string)
| Fresh (n : nat).

Inductive FNode :=
| Symbol (name : SymName) (ty : SmtType)
| Function (name : string) (ret : SmtType) (args : list FNode)
| BoolConst (b : bool)
| BVConst (value : Z) (width : N)
| BVZExt (e : FNode) (increase : N)
| BVConcat (l r : FNode)
| Ite (c t e : FNode)
| Equals (l r : FNode)
| Iff (l r : FNode)
| And (args : list FNode)
| Or (args : list FNode)
| Not (e : FNode).

(** [FNode.bv_width()]; [None] when the call raises ([AssertionError] or
    [AttributeError]: the node is not a bit-vector). *)
Fixpoint bv_width (x : FNode) : option N :=
  match x with
  | BVConst _ w => Some w
  | Symbol _ (BVType w) => Some w
  | Function _ (BVType w) _ => Some w
  | Ite _ t _ => bv_width t
  | BVZExt e k => w ← bv_width e; Some (w + k)%N
  | BVConcat l r => w1 ← bv_width l; w2 ← bv_width r; Some (w1 + w2)%N
  | _ => None
  end.

(** The width of a node that has one. *)
Definition width (x : FNode) : N := default 0%N (bv_width x).

(** Whether the type of the node is Boolean. *)
Fixpoint is_bool_type (x : FNode) : bool :=
  match x with
  | Symbol _ BOOL | Function _ BOOL _ | BoolConst _
  | Equals _ _ | Iff _ _ | And _ | Or _ | Not _ => true
  | Ite _ t _ => is_bool_type t
  | _ => false
  end.

Definition is_constant (x : FNode) : bool :=
  match x with
  | BoolConst _ | BVConst _ _ => true
  | _ => false
  end.

Definition args (x : FNode) : list FNode :=
  match x with
  | Symbol _ _ | BoolConst _ | BVConst _ _ => []
  | Function _ _ xs | And xs | Or xs => xs
  | BVZExt e _ | Not e => [e]
  | BVConcat l r | Equals l r | Iff l r => [l; r]
  | Ite c t e => [c; t; e]
  end.

(** The shortcuts of pysmt, with the simplifications its formula manager
    makes: [And()] is [TRUE], [And(a)] is [a], [Not(Not(a))] is [a]. *)
Definition And_ (xs : list FNode) : FNode :=
  match xs with
  | [] => BoolConst true
  | [x] => x
  | _ => And xs
  end.

Definition Or_ (xs : list FNode) : FNode :=
  match xs with
  | [] => BoolConst false
  | [x] => x
  | _ => Or xs
  end.

Definition Not_ (x : FNode) : FNode :=
  match x with
  | Not y => y
  | _ => Not x
  end.

Definition EqualsOrIff (l r : FNode) : FNode :=
  if is_bool_type l then Iff l r else Equals l r.

Definition BVOne (w : N) : FNode := BVConst 1 w.
Definition BVZero (w : N) : FNode := BVConst 0 w.

(** [core.ir.crossbar.bool_to_bv] *)
Definition bool_to_bv (x : FNode) : FNode :=
  match bv_width x with
  | Some _ => x
  | None => Ite x (BVOne 1) (BVZero 1)
  end.

(** *** Circuits *)

(** The values of a signal: a list, or the endless [repeat(v)], which
    has no [__len__]. *)
Inductive Values :=
| WithLen (vs : list FNode)
| Repeat (v : FNode).

Definition has_len (x : Values) : bool :=
  match x with WithLen _ => true | Repeat _ => false end.

(** An [SmtCircuit].  [ident] is the identity of the object, which [is]
    compares; [signal_value_at_state] is the method of the subclass. *)
Record SmtCircuit := {
  ident : nat;
  data : FNode → FNode → FNode;
  model : ModelTreeView;
  state_type : SmtType;
  precondition : FNode → FNode → FNode;
  is_partial : bool;
  signal_value_at_state : HierarchicalPathName → FNode → result Values
}.

(** [new_state]: the [n]-th symbol [FreshSymbol] makes. *)
Definition new_state (c : SmtCircuit) (n : nat) : FNode :=
  Symbol (Fresh n) (state_type c).

Definition valid_transformation (c : SmtCircuit) (state next_state : FNode) : FNode :=
  data c state next_state.

Record CircuitWithState := {
  circuit : SmtCircuit;
  state : FNode
}.

(** *** [BinaryComparator] *)

Record BinaryComparator := {
  this_circuit : SmtCircuit;
  this_state : FNode;
  that_circuit : SmtCircuit;
  that_state : FNode
}.

Definition BinaryComparator_init (this that : CircuitWithState) : BinaryComparator :=
  {| this_circuit := circuit this; this_state := state this;
     that_circuit := circuit that; that_state := state that |}.

Definition align_width (foo bar : FNode) : FNode * FNode :=
  let foo := bool_to_bv foo in
  let bar := bool_to_bv bar in
  let diff := (Z.of_N (width foo) - Z.of_N (width bar))%Z in
  if (diff =? 0)%Z then (foo, bar)
  else if (diff <? 0)%Z then (BVZExt foo (Z.to_N (- diff)), bar)
  else (foo, BVZExt bar (Z.to_N diff)).

(** [concretize]; [rng n] is the [n]-th value [getrandbits] draws, cut to
    the width asked for.  The result is the constant and the number of
    values drawn so far. *)
Definition concretize (foo : FNode) (value : option Z) (rng : nat → Z) (n : nat)
    : result (FNode * nat) :=
  let foo := bool_to_bv foo in
  match value with
  | Some v =>
    if negb (v =? 0)%Z then
      if (0 <=? v)%Z && (v <? 2 ^ Z.of_N (width foo))%Z
      then Ok (BVConst v (width foo), n)
      else Raise AssertionError
    else Ok (BVConst (rng n `mod` 2 ^ Z.of_N (width foo)) (width foo), S n)
  | None => Ok (BVConst (rng n `mod` 2 ^ Z.of_N (width foo)) (width foo), S n)
  end.

(** One path of [_align_variables]: the tuple yielded, or [None] when the
    path is skipped. *)
Definition align_path (cmp : BinaryComparator) (path : HierarchicalPathName)
    : result (option (string * Values * Values)) :=
  these_values ← signal_value_at_state (this_circuit cmp) path (this_state cmp);
  those_values ← signal_value_at_state (that_circuit cmp) path (that_state cmp);
  let this_with_len := has_len these_values in
  let that_with_len := has_len those_values in
  match these_values, those_values with
  | WithLen a, WithLen b =>
    if (length a =? length b)%nat
    then Ok (Some (item_name path, these_values, those_values))
    else Raise AssertionError
  | _, _ =>
    if negb (this_with_len || that_with_len) then Ok None (* Ignore this path *)
    else Ok (Some (item_name path, these_values, those_values))
  end.

Definition _align_variables (cmp : BinaryComparator) (paths : list HierarchicalPathName)
    : result (list (string * Values * Values)) :=
  tuples ← mapM (align_path cmp) paths;
  Ok (omap (M := list) id tuples).

(** [_get_common_paths].  The set built for two distinct circuits is
    iterated in the order of [elements]. *)
Definition _get_common_paths (cmp : BinaryComparator) (key : VIEWS)
    : list HierarchicalPathName :=
  if (ident (this_circuit cmp) =? ident (that_circuit cmp))%nat then
    (getattr (model (this_circuit cmp)) key).*1
  else
    let paths_in_this_model := (getattr (model (this_circuit cmp)) key).*1 in
    let paths_in_other_model := (getattr (model (that_circuit cmp)) key).*1 in
    elements (list_to_set (paths_in_this_model ++ paths_in_other_model)
              : gset HierarchicalPathName).

(** [zip(these_values, those_values)].  Two endless streams are not
    zipped: [_align_variables] skips such a path. *)
Definition zip_values (these those : Values) : list (FNode * FNode) :=
  match these, those with
  | WithLen a, WithLen b => zip a b
  | WithLen a, Repeat v => map (λ l, (l, v)) a
  | Repeat v, WithLen b => map (λ r, (v, r)) b
  | Repeat _, Repeat _ => []
  end.

(** The equations of one aligned tuple. *)
Definition equations_of (t : string * Values * Values) : list FNode :=
  map (λ lr, let '(l, r) := align_width lr.1 lr.2 in EqualsOrIff l r)
      (zip_values t.1.2 t.2).

Definition Binary_always_equal (cmp : BinaryComparator) (key : VIEWS)
    : result (list FNode) :=
  aligned ← _align_variables cmp (_get_common_paths cmp key);
  Ok (flat_map equations_of aligned).

(** The loop of [equal_to_specific_value] over the equations. *)
Fixpoint pin_equations (value : option Z) (rng : nat → Z) (n : nat)
    (equations : list FNode) : result (list FNode * nat) :=
  match equations with
  | [] => Ok ([], n)
  | equation :: rest =>
    match args equation with
    | [l; r] =>
      if is_constant l || is_constant r then
        '(out, n') ← pin_equations value rng n rest;
        Ok (equation :: out, n')
      else
        '(c, n1) ← concretize l value rng n;
        '(out, n') ← pin_equations value rng n1 rest;
        Ok (And_ [EqualsOrIff c r; equation] :: out, n')
    | _ => Raise (ValueError "not enough values to unpack")
    end
  end.

Definition Binary_equal_to_specific_value (cmp : BinaryComparator) (key : VIEWS)
    (value : option Z) (rng : nat → Z) (n : nat) : result (list FNode * nat) :=
  equations ← Binary_always_equal cmp key;
  pin_equations value rng n equations.

(** *** [PairwiseComparator] and the comparators as one type *)

Definition pairwise {A} (l : list A) : list (A * A) := zip l (tail l).

Inductive VariableComparator :=
| Binary (cmp : BinaryComparator)
| Pairwise (sub_comparators : list BinaryComparator).

Definition PairwiseComparator_init (circuits_and_states : list CircuitWithState)
    : result VariableComparator :=
  if (length circuits_and_states <=? 1)%nat then
    Raise (ValueError "expects 2 or more comparees")
  else
    Ok (Pairwise (map (λ ab, BinaryComparator_init ab.1 ab.2)
                      (pairwise circuits_and_states))).

Definition always_equal (ctor : VariableComparator) (key : VIEWS)
    : result (list FNode) :=
  match ctor with
  | Binary cmp => Binary_always_equal cmp key
  | Pairwise subs =>
    equations ← mapM (λ cmp, Binary_always_equal cmp key) subs;
    Ok (concat equations)
  end.

Fixpoint Pairwise_equal_to_specific_value (subs : list BinaryComparator)
    (key : VIEWS) (value : option Z) (rng : nat → Z) (n : nat)
    : result (list FNode * nat) :=
  match subs with
  | [] => Ok ([], n)
  | cmp :: subs' =>
    '(eqs, n1) ← Binary_equal_to_specific_value cmp key value rng n;
    '(rest, n') ← Pairwise_equal_to_specific_value subs' key value rng n1;
    Ok (eqs ++ rest, n')
  end.

Definition equal_to_specific_value (ctor : VariableComparator) (key : VIEWS)
    (value : option Z) (rng : nat → Z) (n : nat) : result (list FNode * nat) :=
  match ctor with
  | Binary cmp => Binary_equal_to_specific_value cmp key value rng n
  | Pairwise subs => Pairwise_equal_to_specific_value subs key value rng n
  end.

(** *** [SmtCircuit.is_equivalent_to] *)

Definition partial_indices (circuits : list SmtCircuit) : list nat :=
  (filter (λ ic, is_partial ic.2 = true) (imap pair circuits)).*1.

(** The assertion about the transition relations (the first one the
    solver is given). *)
Definition transformation_assertion (circuits : list SmtCircuit)
    (transformation_exprs : list FNode) : result FNode :=
  match partial_indices circuits with
  | [] => (* Full equivalence *)
    Ok (Not_ (And_ (map (λ ab, Iff ab.1 ab.2) (pairwise transformation_exprs))))
  | [p] =>
    match transformation_exprs !! p with
    | Some partial_expr =>
      Ok (And_ [Or_ (map Not_ (delete p transformation_exprs)); partial_expr])
    | None => Raise IndexError
    end
  | _ :: _ :: _ =>
    Raise (NotImplementedError "comparing >=2 partial models is not supported")
  end.

Definition get_equation (quick : bool) (rng : nat → Z)
    (ctor : VariableComparator) (key : VIEWS) (n : nat)
    : result (list FNode * nat) :=
  if quick then equal_to_specific_value ctor key None rng n
  else equations ← always_equal ctor key; Ok (equations, n).

(** The comparators and views of the three loops, in order. *)
Definition comparison_jobs (current_comparator next_comparator : VariableComparator)
    (self_comparators : list VariableComparator)
    : list (VariableComparator * VIEWS) :=
  [(current_comparator, internal_registers); (current_comparator, internal_wires);
   (next_comparator, internal_registers); (next_comparator, internal_wires)]
  ++ [(next_comparator, output_ports)]
  ++ map (λ c, (c, input_ports)) (self_comparators ++ [current_comparator]).

Fixpoint collect_equations (quick : bool) (rng : nat → Z)
    (jobs : list (VariableComparator * VIEWS)) (n : nat)
    : result (list FNode * nat) :=
  match jobs with
  | [] => Ok ([], n)
  | (ctor, key) :: jobs' =>
    '(equations, n1) ← get_equation quick rng ctor key n;
    '(rest, n') ← collect_equations quick rng jobs' n1;
    Ok (equations ++ rest, n')
  end.

Definition states_from (circuits : list SmtCircuit) (fresh : nat) : list FNode :=
  imap (λ i c, new_state c (fresh + i)) circuits.

Definition with_states (circuits : list SmtCircuit) (states : list FNode)
    : list CircuitWithState :=
  zip_with (λ c s, {| circuit := c; state := s |}) circuits states.

(** The equations all comparators yield. *)
Definition all_equations (circuits : list SmtCircuit)
    (current_states next_states : list FNode) (quick : bool) (rng : nat → Z)
    : result (list FNode) :=
  current_comparator ← PairwiseComparator_init (with_states circuits current_states);
  next_comparator ← PairwiseComparator_init (with_states circuits next_states);
  let self_comparators :=
    zip_with (λ cs ns, Binary (BinaryComparator_init cs ns))
      (with_states circuits current_states) (with_states circuits next_states) in
  '(equations, _) ← collect_equations quick rng
       (comparison_jobs current_comparator next_comparator self_comparators) 0;
  Ok equations.

Definition transformation_exprs (circuits : list SmtCircuit) (fresh : nat)
    : list FNode :=
  zip_with (λ c ss, valid_transformation c ss.1 ss.2) circuits
    (zip (states_from circuits fresh)
         (states_from circuits (fresh + length circuits))).

(** The assertions the solver holds when [solver.solve()] is called, or
    the exception raised before, with the assertions added until then.
    [fresh] is the number of symbols [FreshSymbol] has made before. *)
Definition solver_query (circuits : list SmtCircuit) (fresh : nat)
    (quick : bool) (rng : nat → Z) : result (list FNode) * list FNode :=
  let current_states := states_from circuits fresh in
  let next_states := states_from circuits (fresh + length circuits) in
  match transformation_assertion circuits (transformation_exprs circuits fresh) with
  | Raise e => (Raise e, [])
  | Ok miter =>
    match all_equations circuits current_states next_states quick rng with
    | Raise e => (Raise e, [miter])
    | Ok equations =>
      let assertions :=
        [miter; And_ equations]
        ++ zip_with (λ c ss, precondition c ss.1 ss.2)
             circuits (zip current_states next_states) in
      (Ok assertions, assertions)
    end
  end.

(** [is_equivalent_to] with [counterexample=False]: [not sat].  [solve]
    is the answer of the solver, which can raise. *)
Definition is_equivalent_to (solve : list FNode → result bool)
    (self : SmtCircuit) (others : list SmtCircuit) (fresh : nat)
    (quick : bool) (rng : nat → Z) : result bool :=
  assertions ← (solver_query (self :: others) fresh quick rng).1;
  sat ← solve assertions;
  Ok (negb sat).

(** *** The meaning of formulas *)

Inductive Value :=
| VBool (b : bool)
| VBV (width : N) (v : Z)
| VOther (n : nat)
| VError.

#[export] Instance Value_eq_dec : EqDecision Value.
Proof. solve_decision. Defined.

(** An interpretation of the symbols and of the functions. *)
Record Interp := {
  sym : SymName → SmtType → Value;
  func : string → list Value → Value
}.

Definition is_true (v : Value) : bool :=
  match v with VBool true => true | _ => false end.

Fixpoint eval (M : Interp) (x : FNode) : Value :=
  match x with
  | Symbol n ty => sym M n ty
  | Function f _ xs => func M f (map (eval M) xs)
  | BoolConst b => VBool b
  | BVConst v w => VBV w v
  | BVZExt e k =>
    match eval M e with
    | VBV w v => VBV (w + k) v
    | _ => VError
    end
  | BVConcat l r =>
    match eval M l, eval M r with
    | VBV w1 v1, VBV w2 v2 => VBV (w1 + w2) (v1 * 2 ^ Z.of_N w2 + v2)
    | _, _ => VError
    end
  | Ite c t e =>
    match eval M c with
    | VBool true => eval M t
    | VBool false => eval M e
    | _ => VError
    end
  | Equals l r => VBool (bool_decide (eval M l = eval M r))
  | Iff l r =>
    match eval M l, eval M r with
    | VBool a, VBool b => VBool (eqb a b)
    | _, _ => VError
    end
  | And xs => VBool (forallb (λ a, is_true (eval M a)) xs)
  | Or xs => VBool (existsb (λ a, is_true (eval M a)) xs)
  | Not e =>
    match eval M e with
    | VBool b => VBool (negb b)
    | _ => VError
    end
  end.

Definition holds (M : Interp) (x : FNode) : Prop := eval M x = VBool true.

Definition satisfiable (assertions : list FNode) : Prop :=
  ∃ M, Forall (holds M) assertions.

(** *** Circuits used as examples *)

Definition path (id : Z) (n : string) : HierarchicalPathName :=
  {| module_instance_id := id; item_name := n |}.

Definition reg_item (n : string) : ModuleItem :=
  Primitive {| p_name := n; p_width := 4; p_is_reg := true;
               p_direction := None; p_inst_attrs := Some ∅ |}.

Definition wire_item (n : string) : ModuleItem :=
  Primitive {| p_name := n; p_width := 4; p_is_reg := false;
               p_direction := None; p_inst_attrs := Some ∅ |}.

(** A signal is the application of its accessor to the state; a signal
    the circuit has not got is reported as optimized out. *)
Definition signals_of (known : list string) (p : HierarchicalPathName) (s : FNode)
    : result Values :=
  if bool_decide (item_name p ∈ known)
  then Ok (WithLen [Function (item_name p) (BVType 4) [s]])
  else Ok (Repeat (BVZero 1)).

Definition example_circuit (id : nat) (regs wires : list string) (partial : bool)
    : SmtCircuit :=
  {| ident := id;
     data := λ s s', Function "T" BOOL [s; s'];
     model := {| _input_ports := []; _output_ports := [];
                 _internals := map (λ n, (path 1 n, reg_item n)) regs
                               ++ map (λ n, (path 1 n, wire_item n)) wires |};
     state_type := CustomType "state";
     precondition := λ _ _, BoolConst true;
     is_partial := partial;
     signal_value_at_state := signals_of (regs ++ wires) |}.

Definition circuit_ab : SmtCircuit := example_circuit 1 ["a"; "b"] [] false.
Definition circuit_bc : SmtCircuit := example_circuit 2 ["b"; "c"] [] false.

Definition compare_ab_bc : BinaryComparator :=
  BinaryComparator_init
    {| circuit := circuit_ab; state := Symbol (Named "s") (CustomType "state") |}
    {| circuit := circuit_bc; state := Symbol (Named "t") (CustomType "state") |}.

Definition circuit_partial : SmtCircuit := example_circuit 1 ["a"] [] true.
Definition circuit_full : SmtCircuit := example_circuit 2 ["a"] [] false.

(** A solver that finds no model. *)
Definition solve_unsat : list FNode → result bool := λ _, Ok false.

(** Two circuits that cannot make a step. *)
Definition circuit_stuck (id : nat) : SmtCircuit :=
  {| ident := id;
     data := λ _ _, BoolConst false;
     model := {| _input_ports := []; _output_ports := [];
                 _internals := [(path 1 "a", reg_item "a")] |};
     state_type := CustomType "state";
     precondition := λ _ _, BoolConst true;
     is_partial := false;
     signal_value_at_state := signals_of ["a"] |}.

(** *** Vocabulary of the statements about the quick mode *)

Definition is_equation (e : FNode) : Prop := ∃ l r, e = Equals l r.

(** [q] is the equation [e], or [e] conjoined with a pinning constraint. *)
Definition pinned (q e : FNode) : Prop := q = e ∨ ∃ pin, q = And [pin; e].

End Smt.

(** ** core/translators/translator.py *)

Module Translator.

Record CmdlineOption := {
  template : string;
  domain : list string
}.

(** [CmdlineOption.count] *)
Definition count (op : CmdlineOption) : nat := length (domain op) + 1.

(** [itertools.combinations(pool, r)]: the subsequences of length [r], in
    the order of the positions. *)
Fixpoint combinations {A} (pool : list A) (r : nat) : list (list A) :=
  match r, pool with
  | O, _ => [[]]
  | S _, [] => []
  | S r', a :: pool' => map (cons a) (combinations pool' r') ++ combinations pool' r
  end.

(** [MetaTranslator.instance_count]: [reduce(mul, ..., 1)] *)
Definition instance_count (alternative_options : list CmdlineOption) : nat :=
  foldl Nat.mul 1 (map count alternative_options).

Section translators.

(** [sample op n] is the string [op.sample()] returns at the [n]-th draw
    of [random.choice]. *)
Variable sample : CmdlineOption → nat → string.

(** [MetaTranslator.all_instances]: the policies of the instances
    yielded, [None] for [cls()] and the [extra_args] otherwise.  Every
    round of the loop samples all the options again. *)
Definition all_instances (alternative_options : list CmdlineOption) (max_op : nat)
    : list (option (list string)) :=
  match alternative_options with
  | [] => [None]
  | _ :: _ =>
    flat_map
      (λ op_cnt,
         let sampled :=
           imap (λ i op, sample op (op_cnt * length alternative_options + i))
                alternative_options in
         map Some (combinations sampled op_cnt))
      (seq 0 max_op)
  end.

(** Translators and circuits; [translate] can raise. *)
Context {Translator Circuit : Type}.
Variable translate : Translator → Circuit → result Circuit.

(** [Conversion.apply_to] *)
Definition apply_to (_translator_chain : list Translator) (circuit : Circuit)
    : result Circuit :=
  foldM (λ circuit translator, translate translator circuit) _translator_chain circuit.

End translators.

(** *** Vocabulary of the statements *)

(** The number of subsets of size [k] of a set of size [n]. *)
Fixpoint binomial (n k : nat) : nat :=
  match k, n with
  | O, _ => 1
  | S _, O => 0
  | S k', S n' => binomial n' k' + binomial n' k
  end.

End Translator.

(** ** core/workspace.py: [path_to_temp_dir] *)

Module Workspace.
Import Item.

(** The loop of [path_to_temp_dir] for the names [existing] in the
    temporary directory: the candidates [dirname0], [dirname1], ... are
    tried in turn, [fuel] of them at most. *)
Fixpoint first_free (existing : gset string) (dirname : string) (fuel suffix : nat)
    : option string :=
  match fuel with
  | O => None
  | S fuel' =>
    let dirpath := dirname +:+ str_of_nat suffix in
    if bool_decide (dirpath ∈ existing)
    then first_free existing dirname fuel' (S suffix)
    else Some dirpath
  end.

(** [Workspace.path_to_temp_dir]: the name under the temporary directory;
    [None] when the fuel runs out. *)
Definition path_to_temp_dir (existing : gset string) (dirname : string)
    (unique : bool) (fuel : nat) : option string :=
  if unique then
    if bool_decide (dirname ∈ existing) then first_free existing dirname fuel 0
    else Some dirname
  else Some dirname.

End Workspace.

(** ** core/api.py: [equivalence_check] *)

Module Api.

Definition INPUT_FILENAME : string := "input".
Definition STRATEGY_FILENAME : string := "strategy.json".
Definition EXCEPTION_FILENAME : string := "exception.log".
Definition DIFFERENCE_FILENAME : string := "equivalence_classes".

Section equivalence_check.

(** Circuits are objects (two are equal when they are the same object);
    conversions are hashable objects. *)
Context {Circuit Conversion : Type}.
Context `{!EqDecision Circuit, !EqDecision Conversion, !Countable Conversion}.

(** [convert(input_program, conversion)]: the circuit, or [None] after the
    failure was recorded under [compilation/]. *)
Variable convert : Conversion → option Circuit.

(** [pivot.is_equivalent_to(circuit, quick=test_only, counterexample=False)] *)
Variable is_equivalent_to : Circuit → Circuit → result bool.

(** The suffix of the input program. *)
Variable suffix : string.

(** What is written to a file of the workspace. *)
Inductive FileContent :=
| Traceback (e : exn)
| StrategyJson (conversions : list Conversion)
| InputText
| ClassesRepr (classes : list (Circuit * gset Conversion)).

(** The state of the loop: [valid_conversions], [equivalence_classes] (a
    dictionary in insertion order), the files saved to the workspace and
    the labels it was saved as. *)
Record State := {
  valid_conversions : list Conversion;
  equivalence_classes : list (Circuit * gset Conversion);
  files : list (string * FileContent);
  saved_as : list string
}.

(** [equivalence_classes[key].add(conversion)] on the [defaultdict]. *)
Fixpoint class_add (classes : list (Circuit * gset Conversion))
    (key : Circuit) (conversion : Conversion) : list (Circuit * gset Conversion) :=
  match classes with
  | [] => [(key, {[conversion]})]
  | (k, members) :: classes' =>
    if decide (k = key) then (k, {[conversion]} ∪ members) :: classes'
    else (k, members) :: class_add classes' key conversion
  end.

(** The loop over the pivots: the pivot at which it breaks ([None] when it
    runs to its [else]) and the files of the workspace. *)
Fixpoint compare_with_pivots (pivots : list Circuit) (circuit : Circuit)
    (ws : list (string * FileContent)) : option Circuit * list (string * FileContent) :=
  match pivots with
  | [] => (None, ws)
  | pivot :: pivots' =>
    match is_equivalent_to pivot circuit with
    | Raise e =>
      (* Save exception information *)
      compare_with_pivots pivots' circuit (ws ++ [(EXCEPTION_FILENAME, Traceback e)])
    | Ok true => (Some pivot, ws)
    | Ok false => compare_with_pivots pivots' circuit ws
    end
  end.

(** One iteration of the loop over the conversions. *)
Definition classify (st : State) (conversion : Conversion) : State :=
  match convert conversion with
  | None => st
  | Some circuit =>
    let valid := valid_conversions st ++ [conversion] in
    match equivalence_classes st with
    | [] =>
      {| valid_conversions := valid;
         equivalence_classes := class_add [] circuit conversion;
         files := files st; saved_as := saved_as st |}
    | _ :: _ =>
      let '(found, ws) :=
        compare_with_pivots (equivalence_classes st).*1 circuit (files st) in
      {| valid_conversions := valid;
         equivalence_classes :=
           match found with
           | Some pivot => class_add (equivalence_classes st) pivot conversion
           | None => (* Not equivalent with existing circuits *)
             class_add (equivalence_classes st) circuit conversion
           end;
         files := ws; saved_as := saved_as st |}
    end
  end.

Definition equivalence_check (conversions : list Conversion) : State :=
  let st := foldl classify
              {| valid_conversions := []; equivalence_classes := [];
                 files := []; saved_as := [] |} conversions in
  if (1 <? length (equivalence_classes st))%nat then
    {| valid_conversions := valid_conversions st;
       equivalence_classes := equivalence_classes st;
       files := files st
                ++ [(STRATEGY_FILENAME, StrategyJson (valid_conversions st));
                    (INPUT_FILENAME +:+ suffix, InputText);
                    (DIFFERENCE_FILENAME, ClassesRepr (equivalence_classes st))];
       saved_as := saved_as st ++ ["cross-checking"] |}
  else st.

(** The traces saved for the pivots of [pivots] whose comparison raises. *)
Definition traces (pivots : list Circuit) (circuit : Circuit)
    : list (string * FileContent) :=
  omap (λ pivot, match is_equivalent_to pivot circuit with
                 | Raise e => Some (EXCEPTION_FILENAME, Traceback e)
                 | Ok _ => None
                 end) pivots.

(** No pivot of [pivots] compares equivalent with [circuit]. *)
Definition none_equivalent (pivots : list Circuit) (circuit : Circuit) : Prop :=
  Forall (λ q, is_equivalent_to q circuit ≠ Ok true) pivots.

End equivalence_check.

(** *** A run used as an example: three conversions, the circuits numbered
    as their conversions; circuit [2] makes the comparison with pivot [0]
    raise and is equivalent to pivot [1]. *)

Definition example_convert (conversion : nat) : option nat := Some conversion.

Definition example_is_equivalent_to (pivot circuit : nat) : result bool :=
  match pivot, circuit with
  | 0, 2 => Raise (NotImplementedError "comparing >=2 partial models is not supported")
  | 1, 2 => Ok true
  | _, _ => Ok false
  end.

Definition example_state : State (Circuit := nat) (Conversion := nat) :=
  {| valid_conversions := [0; 1];
     equivalence_classes := [(0, {[0]}); (1, {[1]})];
     files := []; saved_as := [] |}.

End Api.

(* ===================================================================== *)
(** * Part II: properties                                                  *)
(* ===================================================================== *)

Section item_facts.
Import Item.

Example ARRAY_ELEMENT_simple : ARRAY_ELEMENT_match "mem[12]" = Some ("mem", 12%Z).
Proof. reflexivity. Qed.

Example ARRAY_ELEMENT_nested : ARRAY_ELEMENT_match "a[1][2]x" = Some ("a[1]", 2%Z).
Proof. reflexivity. Qed.

Example ARRAY_ELEMENT_none : ARRAY_ELEMENT_match "[3]" = None.
Proof. reflexivity. Qed.

Lemma setdefault_present {V} (m : gmap string V) k d v :
  m !! k = Some v → setdefault m k d = (v, m).
Proof. intros H. unfold setdefault. by rewrite H. Qed.

Lemma setdefault_absent {V} (m : gmap string V) k d :
  m !! k = None → setdefault m k d = (d, <[k:=d]> m).
Proof. intros H. unfold setdefault. by rewrite H. Qed.

(** A call that creates the item never fails. *)
Lemma register_element_fresh store mn n r i w :
  store !! n = None →
  ∃ c, register_element store mn n r i w
       = (Ok c, <[n := Compound c]> store)
       ∧ c_element_indices c = {[i]} ∧ c_is_reg c = r ∧ c_element_width c = w.
Proof.
  intros Hn. unfold register_element. rewrite (setdefault_absent _ _ _ Hn).
  cbn. rewrite eqb_reflx, Z.eqb_refl. cbn.
  rewrite bool_decide_eq_false_2 by apply not_elem_of_empty.
  eexists. split.
  - by rewrite insert_insert_eq.
  - cbn. split; [apply (right_id_L ∅ (∪)) | done].
Qed.

(** C10. [register_element] is atomic on failure: when it raises a
    [ValueError], the dictionary of compound items (and with it the
    element-index set of the item found) is exactly what it was before
    the call; the item was already in the dictionary, and the error is
    one of the three checks: a different [is_reg], a different element
    width, or an index already present. *)
Theorem register_element_atomic store mn n r i w e store' :
  register_element store mn n r i w = (Raise e, store') →
  is_ValueError e = true →
  store' = store
  ∧ ∃ c, store !! n = Some (Compound c)
     ∧ (r ≠ c_is_reg c ∨ w ≠ c_element_width c ∨ i ∈ c_element_indices c).
Proof.
  intros Hcall He. destruct (store !! n) as [item|] eqn:Hn.
  - unfold register_element in Hcall.
    rewrite (setdefault_present _ _ _ _ Hn) in Hcall.
    destruct item as [p|c]; [simplify_eq; done|].
    destruct (eqb r (c_is_reg c)) eqn:Hr; cbn in Hcall.
    + destruct (w =? c_element_width c)%Z eqn:Hw; cbn in Hcall.
      * case_bool_decide; simplify_eq. split; [done|]. eauto.
      * simplify_eq. split; [done|]. exists c. split; [done|].
        right; left. by apply Z.eqb_neq.
    + simplify_eq. split; [done|]. exists c. split; [done|].
      left. intros ->. by rewrite eqb_reflx in Hr.
  - destruct (register_element_fresh store mn n r i w Hn) as (c & Hc & _).
    congruence.
Qed.

Lemma register_element_atomic_witness :
  let c := {| c_name := "a"; c_is_reg := false; c_element_width := 8;
              c_element_indices := {[0%Z]}; c_inst_attrs := None |} in
  let store : gmap string ModuleItem := {["a" := Compound c]} in
  store = store
  ∧ ∃ c', store !! "a" = Some (Compound c')
     ∧ (false ≠ c_is_reg c' ∨ 4%Z ≠ c_element_width c' ∨ 0%Z ∈ c_element_indices c').
Proof.
  intros c store.
  apply (register_element_atomic store "m" "a" false 0 4
           (ValueError "incompatible widths of elements") store);
    reflexivity.
Defined.

End item_facts.

Section decl_facts.
Import Item Decl.

Lemma bind_Ok {A B} (r : result A) (k : A → result B) b :
  r ≫= k = Ok b ↔ ∃ a, r = Ok a ∧ k a = Ok b.
Proof.
  destruct r as [a|e]; cbn.
  - split; [eauto | by intros (? & [= <-] & ?)].
  - split; [done | by intros (? & ? & ?)].
Qed.

Lemma foldM_app {A S} (f : S → A → result S) l1 l2 s :
  foldM f (l1 ++ l2) s = foldM f l1 s ≫= foldM f l2.
Proof.
  revert s. induction l1 as [|a l1 IH]; intros s; [done|].
  cbn. destruct (f s a); cbn; [apply IH | done].
Qed.

(** *** Ports *)

Lemma build_ports_not_reg d p : p ∈ build_ports d → p_is_reg p = false.
Proof.
  unfold build_ports. intros Hp.
  apply list_elem_of_fmap in Hp as ([n pd] & -> & _). done.
Qed.

Lemma ports_map_elem (ps : list PrimitiveItem) (m0 : gmap string PrimitiveItem) n p :
  foldl (λ m p, <[p_name p := p]> m) m0 ps !! n = Some p →
  p ∈ ps ∨ m0 !! n = Some p.
Proof.
  revert m0. induction ps as [|q ps IH]; intros m0; cbn; [by right|].
  intros H. apply IH in H as [H|H]; [left; by right|].
  destruct (decide (p_name q = n)) as [<-|Hne].
  - rewrite lookup_insert_eq in H. injection H as ->. left; by left.
  - rewrite lookup_insert_ne in H by done. by right.
Qed.

Lemma init_ports_not_reg nm d internals subs n p :
  _ports (ModuleDeclaration_init nm (build_ports d) internals subs) !! n = Some p →
  p_is_reg p = false.
Proof.
  cbn. intros H. apply ports_map_elem in H as [H|H].
  - by eapply build_ports_not_reg.
  - by rewrite lookup_empty in H.
Qed.

(** *** The loop over the modules *)

Lemma load_module_Ok regs design nt n d st' :
  load_module regs (design, nt) (n, d) = Ok st' ↔
  memories d = false
  ∧ ∃ internals,
      build_internals n (default ∅ (regs !! n)) d = Ok internals
      ∧ st' = (<[n := ModuleDeclaration_init n (build_ports d) internals
                        (foldl (λ acc c, <[c.1 := c.2]> acc) ∅ (visible_cells d))]>
                 design,
               nt ∪ list_to_set (visible_cells d).*2).
Proof.
  unfold load_module. destruct (memories d).
  - split; [done | by intros [? _]].
  - rewrite bind_Ok. split.
    + intros (internals & Hi & [= <-]). eauto.
    + intros (_ & internals & Hi & ->). eauto.
Qed.

Lemma load_modules_inv regs ms design0 nt0 design nt :
  foldM (load_module regs) ms (design0, nt0) = Ok (design, nt) →
  dom design = dom design0 ∪ module_names ms
  ∧ nt = nt0 ∪ referenced ms
  ∧ (ports_not_registers design0 → ports_not_registers design)
  ∧ ((∀ m d, design0 !! m = Some d → _name d = m) →
     ∀ m d, design !! m = Some d → _name d = m).
Proof.
  revert design0 nt0. induction ms as [|[n d] ms IH]; intros design0 nt0; cbn.
  - intros [= <- <-]. unfold module_names, referenced. cbn.
    split_and!; [set_solver | set_solver | done | done].
  - intros H. apply bind_Ok in H as ([design1 nt1] & H1 & H).
    apply load_module_Ok in H1 as (_ & internals & _ & [= -> ->]).
    apply IH in H as (Hdom & Hnt & Hports & Hname).
    split_and!.
    + rewrite Hdom, dom_insert_L. unfold module_names. cbn. set_solver.
    + rewrite Hnt. unfold referenced. cbn. rewrite list_to_set_app_L. set_solver.
    + intros H0. apply Hports. intros m dm Hm k p Hk.
      destruct (decide (n = m)) as [->|Hne].
      * rewrite lookup_insert_eq in Hm. injection Hm as <-.
        by eapply init_ports_not_reg.
      * rewrite lookup_insert_ne in Hm by done. by eapply H0.
    + intros H0. apply Hname. intros m dm Hm.
      destruct (decide (n = m)) as [->|Hne].
      * rewrite lookup_insert_eq in Hm. by injection Hm as <-.
      * rewrite lookup_insert_ne in Hm by done. by apply H0.
Qed.

Lemma load_modules_succeed regs ms st :
  no_memories ms → items_ok regs ms →
  ∃ st', foldM (load_module regs) ms st = Ok st'.
Proof.
  unfold no_memories, items_ok. revert st.
  induction ms as [|[n d] ms IH]; intros [design nt] Hm Hi; [cbn; eauto|].
  apply Forall_cons in Hm as [Hm1 Hm], Hi as [Hi1 Hi]. cbn in Hm1, Hi1.
  destruct (build_internals n (default ∅ (regs !! n)) d) as [internals|] eqn:Hb;
    [|done].
  change (foldM (load_module regs) ((n, d) :: ms) (design, nt))
    with (load_module regs (design, nt) (n, d) ≫= foldM (load_module regs) ms).
  erewrite (proj2 (load_module_Ok regs design nt n d _)); [|eauto].
  cbn. by apply IH.
Qed.

Lemma load_modules_memories regs ms st :
  ¬ no_memories ms → ∃ e, foldM (load_module regs) ms st = Raise e.
Proof.
  unfold no_memories. revert st.
  induction ms as [|[n d] ms IH]; intros [design nt] Hm; cbn.
  - destruct Hm. constructor.
  - unfold load_module at 1. destruct (memories d) eqn:Hd; cbn; [eauto|].
    destruct (build_internals _ _ _); cbn; [|eauto].
    apply IH. intros H. apply Hm. by constructor.
Qed.

(** C9. In every model [parse_verilog] produces, no port of any module is
    a register: [is_register()] is false for every item of every [ports]
    dictionary, whatever the register scan found. *)
Theorem parse_verilog_ports_not_registers regs ms top design :
  parse_verilog regs ms = Ok (top, design) →
  ports_not_registers design
  ∧ ∀ d, top = Some d →
      ∀ n p, _ports d !! n = Some p → is_register (Primitive p) = false.
Proof.
  unfold parse_verilog. intros H.
  apply bind_Ok in H as ([design' nt] & Hload & H).
  case_bool_decide; [done|].
  destruct (elements _) as [|t ts]; [done|]. injection H as <- <-.
  apply load_modules_inv in Hload as (_ & _ & Hports & _).
  assert (ports_not_registers design') as Hd.
  { apply Hports. intros m d Hm. by rewrite lookup_empty in Hm. }
  split; [done|]. intros d Hd'. by eapply Hd.
Qed.

Lemma parse_verilog_ports_not_registers_witness :
  ∃ d design,
    parse_verilog scan_reg_port unit_reg_port = Ok (Some d, design)
    ∧ "q" ∈ default ∅ (scan_reg_port !! "counter")
    ∧ (∃ p, _ports d !! "q" = Some p)
    ∧ ports_not_registers design
    ∧ ∀ n p, _ports d !! n = Some p → is_register (Primitive p) = false.
Proof.
  destruct (parse_verilog scan_reg_port unit_reg_port) as [[[d|] design]|e] eqn:H;
    try (vm_compute in H; discriminate H).
  exists d, design.
  destruct (parse_verilog_ports_not_registers _ _ _ _ H) as [H1 H2].
  split; [done|]. split; [by vm_compute|]. split.
  - vm_compute in H. injection H as <- _. eexists. by vm_compute.
  - split; [done|]. by apply H2.
Defined.

(** C2, as the code has it.  In a unit of which no module holds memories
    and of which the items of every module can be built: if exactly one
    module is the type of no cell that is not hidden (in any module, itself
    included), loading returns the declaration of that module; if there is
    no such module, or more than one, loading raises the [ValueError] of the
    top-level check.  In every unit, without those conditions, no or several
    such modules make loading fail. *)
Theorem parse_verilog_top regs ms :
  (size (top_candidates ms) ≠ 1 → ∃ e, parse_verilog regs ms = Raise e)
  ∧ (no_memories ms → items_ok regs ms →
     (∀ t, top_candidates ms = {[t]} →
        ∃ d design, parse_verilog regs ms = Ok (Some d, design)
                    ∧ _name d = t ∧ design !! t = Some d)
     ∧ (size (top_candidates ms) ≠ 1 →
        parse_verilog regs ms = Raise (ValueError "multiple top-level modules found"))).
Proof.
  assert (∀ design nt,
    foldM (load_module regs) ms (∅, ∅) = Ok (design, nt) →
    dom design ∖ nt = top_candidates ms
    ∧ ∀ m d, design !! m = Some d → _name d = m) as Hinv.
  { intros design nt H. apply load_modules_inv in H as (Hdom & Hnt & _ & Hname).
    split.
    - rewrite Hdom, Hnt, dom_empty_L. unfold top_candidates. set_solver.
    - apply Hname. intros m d Hm. by rewrite lookup_empty in Hm. }
  split.
  - intros Hsize. unfold parse_verilog.
    destruct (foldM _ _ _) as [[design nt]|e] eqn:H; cbn; [|eauto].
    destruct (Hinv _ _ eq_refl) as [-> _].
    rewrite bool_decide_eq_true_2 by done. eauto.
  - intros Hm Hi.
    destruct (load_modules_succeed regs ms (∅, ∅) Hm Hi) as [[design nt] H].
    destruct (Hinv _ _ H) as [Htop Hname].
    unfold parse_verilog. rewrite H. cbn. rewrite Htop. split.
    + intros t Ht. rewrite Ht, size_singleton.
      rewrite bool_decide_eq_false_2 by (intros ?; done).
      rewrite elements_singleton.
      assert (t ∈ dom design) as [d Hd]%elem_of_dom by set_solver.
      exists d, design. rewrite Hd. eauto.
    + intros Hsize. by rewrite bool_decide_eq_true_2.
Qed.

Lemma parse_verilog_top_witness :
  top_candidates unit_two_modules = {["top"]}
  ∧ ∃ d design, parse_verilog ∅ unit_two_modules = Ok (Some d, design)
                ∧ _name d = "top" ∧ design !! "top" = Some d.
Proof.
  assert (top_candidates unit_two_modules = {["top"]}) as Htop by by vm_compute.
  split; [done|].
  apply (parse_verilog_top ∅ unit_two_modules); [| |done].
  - repeat constructor.
  - repeat constructor.
Defined.

(** C2 as it is worded does not hold: the only module of [unit_memory] is
    instantiated nowhere, and loading raises instead of returning it. *)
Lemma parse_verilog_top_counterexample :
  top_candidates unit_memory = {["ram"]}
  ∧ parse_verilog ∅ unit_memory
    = Raise (NotImplementedError "memories is not supported").
Proof. split; by vm_compute. Qed.

(** A cell that is hidden does not count as an instantiation: [leaf] is a
    cell of [top], and the unit is rejected for having two top modules. *)
Example parse_verilog_hidden_cell :
  parse_verilog ∅ unit_hidden_cell
  = Raise (ValueError "multiple top-level modules found").
Proof. by vm_compute. Qed.

End decl_facts.

Section naming_facts.
Import VerilatorNamingHelper.

Example merge_inner :
  merge [lit "top"; lit "u[1]"] (lit "$x") false = lit "top__DOT__u__BRA__1__KET____DOT____024x".
Proof. reflexivity. Qed.

Example split_inner :
  split (lit "top__DOT__u__BRA__1__KET____DOT____024x") = [lit "top"; lit "u[1]"; lit "$x"].
Proof. reflexivity. Qed.

Example split_merge_bad_index :
  split (merge [lit "top"] (lit "a[024]") false) = [lit "top"; lit "a__BRA$]"].
Proof. reflexivity. Qed.

(** *** Facts about the string operations *)

Lemma startswith_spec p s : startswith p s = true ↔ ∃ k, s = p ++ k.
Proof.
  revert s. induction p as [|a p IH]; intros s; cbn.
  - split; eauto.
  - destruct s as [|b s]; [split; [done | by intros [? ?]]|].
    rewrite andb_true_iff, IH. split.
    + intros [->%Ascii.eqb_eq [k ->]]. eauto.
    + intros [k [= -> ->]]. rewrite Ascii.eqb_refl. eauto.
Qed.

Lemma startswith_app p k : startswith p (p ++ k) = true.
Proof. apply startswith_spec. eauto. Qed.

Lemma startswith_app_l p q s : startswith (p ++ q) s = true → startswith p s = true.
Proof.
  rewrite !startswith_spec. intros [k ->]. exists (q ++ k). by rewrite <-(assoc_L (++)).
Qed.

Lemma contains_app_l p q s : contains (p ++ q) s = true → contains p s = true.
Proof.
  induction s as [|c s IH]; cbn; rewrite !orb_true_iff.
  - intros [H|H]; [|done]. left. by eapply startswith_app_l.
  - intros [H|H]; [left; by eapply startswith_app_l | right; by apply IH].
Qed.

Lemma contains_skip p w s : contains p s = true → contains p (w ++ s) = true.
Proof.
  intros H. induction w as [|c w IH]; [done|]. cbn. rewrite IH. apply orb_true_r.
Qed.

Lemma contains_unfold sub s :
  contains sub s
  = startswith sub s || match s with [] => false | _ :: s' => contains sub s' end.
Proof. by destruct s. Qed.

Lemma contains_here p s : contains p (p ++ s) = true.
Proof. by rewrite contains_unfold, startswith_app. Qed.

Lemma contains_tail p c s : contains p (c :: s) = false → contains p s = false.
Proof.
  change (contains p (c :: s)) with (startswith p (c :: s) || contains p s).
  by intros [_ ?]%orb_false_iff.
Qed.

Lemma replace_from_skip old new w rest :
  replace_from old new (length w) (w ++ rest) = replace_from old new 0 rest.
Proof. induction w as [|c w IH]; [done | apply IH]. Qed.

Lemma replace_from_match c P new rest :
  replace_from (c :: P) new 0 ((c :: P) ++ rest)
  = new ++ replace_from (c :: P) new 0 rest.
Proof.
  change (((c :: P) ++ rest)) with (c :: (P ++ rest)).
  pose proof (startswith_app (c :: P) rest) as H. cbn [app] in H.
  cbn [replace_from]. rewrite H.
  replace (length (c :: P) - 1) with (length P) by (cbn; lia).
  by rewrite replace_from_skip.
Qed.

Lemma replace_from_clean P new w rest :
  clean P w rest = true →
  replace_from P new 0 (w ++ rest) = w ++ replace_from P new 0 rest.
Proof.
  induction w as [|c w IH]; [done|]. cbn [clean].
  intros [Hc Hw]%andb_true_iff. apply negb_true_iff in Hc.
  change ((c :: w) ++ rest) with (c :: (w ++ rest)) in *.
  cbn [replace_from]. rewrite Hc. cbn. by rewrite IH.
Qed.

Lemma split_from_skip sep w rest :
  split_from sep (length w) (w ++ rest) = split_from sep 0 rest.
Proof. induction w as [|c w IH]; [done | apply IH]. Qed.

Lemma split_from_match c P rest :
  split_from (c :: P) 0 ((c :: P) ++ rest) = [] :: split_from (c :: P) 0 rest.
Proof.
  change (((c :: P) ++ rest)) with (c :: (P ++ rest)).
  pose proof (startswith_app (c :: P) rest) as H. cbn [app] in H.
  cbn [split_from]. rewrite H.
  replace (length (c :: P) - 1) with (length P) by (cbn; lia).
  by rewrite split_from_skip.
Qed.

Lemma split_from_nonempty sep n s : split_from sep n s ≠ [].
Proof.
  revert n. induction s as [|c s IH]; intros n; cbn [split_from]; [done|].
  destruct n; [|apply IH]. destruct (startswith _ _); [done|].
  by destruct (split_from sep 0 s).
Qed.

Lemma split_from_clean P w rest :
  clean P w rest = true →
  split_from P 0 (w ++ rest)
  = match split_from P 0 rest with
    | piece :: pieces => (w ++ piece) :: pieces
    | [] => [w]
    end.
Proof.
  induction w as [|c w IH].
  { pose proof (split_from_nonempty P 0 rest). cbn [app].
    by destruct (split_from P 0 rest). }
  cbn [clean].
  intros [Hc Hw]%andb_true_iff. apply negb_true_iff in Hc.
  change ((c :: w) ++ rest) with (c :: (w ++ rest)) in *.
  cbn [split_from]. rewrite Hc, (IH Hw). by destruct (split_from P 0 rest).
Qed.

(** *** The passes of [split] on the tokens *)

Lemma render_cons t ts : render (t :: ts) = render_tok t ++ render ts.
Proof. reflexivity. Qed.

Lemma render_app ts1 ts2 : render (ts1 ++ ts2) = render ts1 ++ render ts2.
Proof. apply flat_map_app. Qed.

Lemma kind_eqb_eq k1 k2 : kind_eqb k1 k2 = true ↔ k1 = k2.
Proof. by destruct k1, k2. Qed.

Lemma replace_pattern k new s :
  replace (pattern k) new s = replace_from (pattern k) new 0 s.
Proof. by destruct k. Qed.

Lemma decode_pass k ts :
  safe k ts →
  replace (pattern k) [plain_of k] (render ts) = render (decode k ts).
Proof.
  rewrite replace_pattern.
  induction ts as [|t ts IH]; [done|]. cbn [safe]. intros [Ht Hs].
  cbn [decode map]. rewrite !render_cons. fold (decode k ts). rewrite <-(IH Hs).
  destruct t as [c|k'].
  - destruct Ht as [?|Ht]; [done|]. by apply replace_from_clean.
  - destruct (kind_eqb k k') eqn:E.
    + apply kind_eqb_eq in E as <-. destruct k; apply replace_from_match.
    + destruct Ht as [[= ->]|Ht]; [|by apply replace_from_clean].
      by rewrite (proj2 (kind_eqb_eq k k)) in E.
Qed.

Lemma split_pass ts :
  safe KDot ts → str_split DOT (render ts) = map render (tsplit ts).
Proof.
  unfold str_split.
  induction ts as [|t ts IH]; [done|]. cbn [safe]. intros [Ht Hs].
  rewrite render_cons. specialize (IH Hs).
  assert (t = Esc KDot ∨ clean DOT (render_tok t) (render ts) = true
                         ∧ tsplit (t :: ts)
                           = match tsplit ts with
                             | piece :: pieces => (t :: piece) :: pieces
                             | [] => [[t]]
                             end) as [->|[Hc Heq]].
  { destruct Ht as [->|Ht]; [by left|]. destruct t as [c|[]]; eauto. }
  - cbn [tsplit map]. rewrite <-IH. apply (split_from_match "_"%char).
  - rewrite Heq, (split_from_clean _ _ _ Hc), IH.
    destruct (tsplit ts) as [|piece pieces]; cbn [map].
    + rewrite render_cons. change (render []) with (@nil ascii).
      by rewrite (right_id_L [] (++)).
    + by rewrite render_cons.
Qed.

(** *** Well-formed token sequences are safe for every pass *)

Lemma render_head ts c s :
  render ts = c :: s → c ≠ "_"%char →
  ∃ ts', ts = Plain c :: ts' ∧ render ts' = s.
Proof.
  destruct ts as [|[a|k] ts]; [done| |].
  - intros [= -> <-] _. eauto.
  - intros H Hc. destruct k; injection H as <-; done.
Qed.

Lemma render_head_underscore ts s :
  render ts = "_"%char :: s →
  (∃ ts', ts = Plain "_" :: ts' ∧ render ts' = s)
  ∨ (∃ k ts' s', ts = Esc k :: ts' ∧ s = "_"%char :: s').
Proof.
  destruct ts as [|[a|k] ts]; [done| |].
  - intros [= -> <-]. left. eauto.
  - intros H. right. exists k, ts. destruct k; injection H as <-; eauto.
Qed.

(** No three plain characters of a well-formed sequence spell the inside
    of an escape. *)
Lemma wf_no_triple ts a b c s :
  wf ts → render ts = a :: b :: c :: s →
  a ≠ "_"%char → b ≠ "_"%char → c ≠ "_"%char → bad3 a b c = false.
Proof.
  intros Hwf H Ha Hb Hc.
  apply render_head in H as (ts1 & -> & H); [|done].
  apply render_head in H as (ts2 & -> & H); [|done].
  apply render_head in H as (ts3 & -> & H); [|done].
  cbn in Hwf. tauto.
Qed.

Lemma wf_tail t ts : wf (t :: ts) → wf ts.
Proof. by intros [_ ?]. Qed.

Ltac spurious E :=
  apply startswith_spec in E as [? E]; cbn in E; simplify_eq.

Lemma wf_clean k t ts :
  wf (t :: ts) → t ≠ Esc k → clean (pattern k) (render_tok t) (render ts) = true.
Proof.
  intros [Hhd Hwf] Hne. destruct t as [c|k'].
  - (* a plain character: only [_] can start an occurrence *)
    cbn [render_tok clean app]. rewrite andb_true_r. apply negb_true_iff.
    destruct (startswith _ _) eqn:E; [exfalso|done].
    apply startswith_spec in E as [r E].
    assert (∃ x q, pattern k = "_"%char :: "_"%char :: x :: q ∧ x ≠ "_"%char)
      as (x & q & Hk & Hx) by (destruct k; eexists _, _; split; done).
    rewrite Hk in E. cbn [app] in E. injection E as -> E.
    apply render_head_underscore in E as [(ts' & -> & _)|(k2 & ts' & s' & -> & E)].
    + cbn in Hhd. tauto.
    + by simplify_eq.
  - (* another escape: an occurrence could only start in its last two
       characters and continue in what follows *)
    assert (k ≠ k') as Hk by congruence.
    assert (∀ x y z q, ¬ (render ts = x :: y :: z :: q ∧ bad3 x y z = true
                          ∧ x ≠ "_"%char ∧ y ≠ "_"%char ∧ z ≠ "_"%char)) as Hno3.
    { intros x y z q (H & Hbad & ? & ? & ?).
      rewrite (wf_no_triple ts x y z q) in Hbad; done. }
    assert (∀ x y z q, ¬ (render ts = "_"%char :: x :: y :: z :: q ∧ bad3 x y z = true
                          ∧ x ≠ "_"%char ∧ y ≠ "_"%char ∧ z ≠ "_"%char)) as Hno4.
    { intros x y z q (H & Hbad & ? & ? & ?).
      apply render_head_underscore in H as [(ts' & -> & H)|(? & ? & ? & _ & ?)];
        [|simplify_eq].
      apply wf_tail in Hwf.
      rewrite (wf_no_triple ts' x y z q) in Hbad; done. }
    destruct k, k'; try done; cbn [render_tok pattern clean];
      repeat (apply andb_true_intro; split); try done;
      apply negb_true_iff;
      (destruct (startswith _ _) eqn:E; [exfalso|done]);
      spurious E;
      first [ eapply Hno3; split_and!; [eassumption|done..]
            | eapply Hno4; split_and!; [eassumption|done..] ].
Qed.

Lemma wf_safe k ts : wf ts → safe k ts.
Proof.
  induction ts as [|t ts IH]; [done|]. intros Hwf. split; [|by apply IH, (wf_tail t)].
  destruct t as [c|k'].
  - right. by apply wf_clean.
  - destruct (kind_eqb k k') eqn:E.
    + apply kind_eqb_eq in E as ->. by left.
    + right. apply wf_clean; [done|]. intros [= ->].
      by rewrite (proj2 (kind_eqb_eq k k)) in E.
Qed.

(** *** [decode] keeps token sequences well formed *)

Lemma bad3_special k a b :
  bad3 (plain_of k) a b = false ∧ bad3 a (plain_of k) b = false
  ∧ bad3 a b (plain_of k) = false.
Proof.
  unfold bad3. destruct k; cbn; rewrite ?andb_false_r; done.
Qed.

Lemma plain_of_not_underscore k : plain_of k ≠ "_"%char.
Proof. by destruct k. Qed.

Lemma ok_head_decode k t ts :
  ok_head t ts → wf ts →
  ok_head (match t with
           | Esc k' => if kind_eqb k k' then Plain (plain_of k) else t
           | Plain _ => t
           end) (decode k ts).
Proof.
  pose proof (plain_of_not_underscore k) as Hp.
  pose proof (bad3_special k) as Hb.
  destruct t as [a|k1]; [|destruct (kind_eqb k k1)];
    destruct ts as [|[b|k2] ts1]; cbn; try done;
    try (destruct (kind_eqb k k2); cbn; try done);
    destruct ts1 as [|[c|k3] ts2]; cbn; try done;
    try (destruct (kind_eqb k k3); cbn; try done);
    intros; split_and?; try tauto; try apply Hb; try (intros [? ?]; done).
Qed.

Lemma wf_decode k ts : wf ts → wf (decode k ts).
Proof.
  induction ts as [|t ts IH]; [done|]. intros [Hhd Hwf].
  split; [by apply ok_head_decode | by apply IH].
Qed.

(** *** [merge] builds the rendering of the tokens *)

Lemma replace_char c new s :
  replace [c] new s = flat_map (λ x, if Ascii.eqb c x then new else [x]) s.
Proof.
  unfold replace. induction s as [|x s IH]; [done|].
  cbn [replace_from startswith flat_map]. rewrite andb_true_r.
  destruct (Ascii.eqb c x); cbn [length Nat.sub]; by rewrite IH.
Qed.

Lemma flat_map_join {A B} (g : A → list B) sep (l : list (list A)) :
  flat_map g (join sep l) = join (flat_map g sep) (map (flat_map g) l).
Proof.
  induction l as [|x l IH]; [done|]. destruct l as [|y l]; [done|].
  change (join sep (x :: y :: l)) with (x ++ sep ++ join sep (y :: l)).
  rewrite !flat_map_app, IH. done.
Qed.

Lemma map_join {A B} (f : A → B) sep (l : list (list A)) :
  map f (join sep l) = join (map f sep) (map (map f) l).
Proof.
  induction l as [|x l IH]; [done|]. destruct l as [|y l]; [done|].
  change (join sep (x :: y :: l)) with (x ++ sep ++ join sep (y :: l)).
  rewrite !map_app, IH. done.
Qed.

Lemma flat_map_single {A B} (g : A → list B) a : flat_map g [a] = g a.
Proof. cbn. apply (right_id_L [] (++)). Qed.

Lemma escape_all s :
  replace (lit "$") DOLLAR (replace (lit "]") RPAREN (replace (lit "[") LPAREN s))
  = flat_map (λ c, render_tok (classify all_escaped c)) s.
Proof.
  change (lit "$") with ["$"%char]. change (lit "]") with ["]"%char].
  change (lit "[") with ["["%char].
  rewrite !replace_char. induction s as [|c s IH]; [done|].
  cbn [flat_map]. rewrite !flat_map_app, IH. f_equal.
  unfold classify, all_escaped. rewrite !andb_true_r.
  rewrite !(Ascii.eqb_sym c).
  destruct (Ascii.eqb "[" c) eqn:E1; [apply Ascii.eqb_eq in E1 as <-; done|].
  rewrite !flat_map_single. cbv beta.
  destruct (Ascii.eqb "]" c) eqn:E2; [apply Ascii.eqb_eq in E2 as <-; done|].
  rewrite !flat_map_single. cbv beta.
  by destruct (Ascii.eqb "$" c).
Qed.

Lemma escape_dollar s :
  replace (lit "$") DOLLAR s = render (name_toks dollar_only s).
Proof.
  change (lit "$") with ["$"%char]. rewrite replace_char.
  unfold render, name_toks. induction s as [|c s IH]; [done|].
  cbn [flat_map map]. rewrite IH. f_equal.
  unfold classify, dollar_only. cbn [kind_eqb]. rewrite !andb_false_r, andb_true_r.
  rewrite (Ascii.eqb_sym c). by destruct (Ascii.eqb "$" c).
Qed.

Lemma render_name_toks enc n :
  render (name_toks enc n) = flat_map (λ c, render_tok (classify enc c)) n.
Proof.
  unfold render, name_toks. induction n as [|c n IH]; [done|].
  cbn [map flat_map]. by rewrite IH.
Qed.

Lemma merge_tokens names :
  replace (lit "$") DOLLAR
    (replace (lit "]") RPAREN (replace (lit "[") LPAREN (join DOT names)))
  = render (names_toks all_escaped names).
Proof.
  rewrite escape_all. unfold render at 1, names_toks.
  rewrite !flat_map_join. f_equal.
  rewrite map_map. apply map_ext. intros n. symmetry. apply render_name_toks.
Qed.

(** *** The passes on the tokens of names *)

Lemma decode_classify k enc c :
  k ≠ KDot →
  match classify enc c with
  | Esc k' => if kind_eqb k k' then Plain (plain_of k) else classify enc c
  | Plain _ => classify enc c
  end = classify (without k enc) c.
Proof.
  intros Hk. unfold classify, without.
  destruct (Ascii.eqb_spec c "[") as [->|H1]; cbn [andb].
  { destruct k, (enc KBra); done. }
  destruct (Ascii.eqb_spec c "]") as [->|H2]; cbn [andb].
  { destruct k, (enc KKet); done. }
  destruct (Ascii.eqb_spec c "$") as [->|H3]; cbn [andb]; [|done].
  destruct k, (enc KDollar); done.
Qed.

Lemma decode_names k enc names :
  k ≠ KDot →
  decode k (names_toks enc names) = names_toks (without k enc) names.
Proof.
  intros Hk. unfold decode, names_toks. rewrite map_join. f_equal.
  - destruct k; done.
  - rewrite map_map. apply map_ext. intros n. unfold name_toks.
    rewrite map_map. apply map_ext. intros c. by apply decode_classify.
Qed.

Lemma decode_dollar_only n :
  decode KDollar (name_toks dollar_only n) = map Plain n.
Proof.
  unfold decode, name_toks. rewrite map_map. apply map_ext. intros c.
  unfold classify, dollar_only. cbn [kind_eqb]. rewrite !andb_false_r, andb_true_r.
  by destruct (Ascii.eqb_spec c "$") as [->|].
Qed.

Lemma classify_plain enc c :
  enc KBra = false → enc KKet = false → enc KDollar = false →
  classify enc c = Plain c.
Proof. intros H1 H2 H3. unfold classify. by rewrite H1, H2, H3, !andb_false_r. Qed.

Lemma render_plain n : render (map Plain n) = n.
Proof. unfold render. induction n as [|c n IH]; [done|]. cbn. by rewrite IH. Qed.

Lemma tsplit_plain n : tsplit (map Plain n) = [map Plain n].
Proof. induction n as [|c n IH]; [done|]. cbn [map tsplit]. by rewrite IH. Qed.

Lemma tsplit_plain_app n rest :
  tsplit (map Plain n ++ Esc KDot :: rest) = map Plain n :: tsplit rest.
Proof. induction n as [|c n IH]; [done|]. cbn [map app tsplit]. by rewrite IH. Qed.

Lemma tsplit_names names :
  names ≠ [] →
  tsplit (join [Esc KDot] (map (map Plain) names)) = map (map Plain) names.
Proof.
  induction names as [|n names IH]; [done|]. intros _.
  destruct names as [|n' names]; [apply tsplit_plain|].
  change (tsplit (map Plain n ++ Esc KDot :: join [Esc KDot] (map (map Plain) (n' :: names)))
          = map (map Plain) (n :: n' :: names)).
  rewrite tsplit_plain_app, IH; done.
Qed.

(** *** Legal names give well-formed tokens *)

Lemma legal_cons c n :
  legal (c :: n) = true →
  legal n = true ∧ ∀ p, In p forbidden → startswith p (c :: n) = false.
Proof.
  unfold legal. rewrite !forallb_forall. intros H. split.
  - intros p Hp. specialize (H p Hp). apply negb_true_iff in H.
    apply negb_true_iff. by eapply contains_tail.
  - intros p Hp. specialize (H p Hp). apply negb_true_iff in H.
    rewrite contains_unfold in H. by apply orb_false_iff in H as [? _].
Qed.

Lemma classify_inv enc a t : classify enc a = Plain t → t = a.
Proof.
  unfold classify. repeat (destruct (_ && _); [done|]). by intros [= ->].
Qed.

Lemma legal_wf enc n : legal n = true → wf (name_toks enc n).
Proof.
  induction n as [|a n IH]; [done|].
  intros [Hn Hst]%legal_cons. split; [|by apply IH].
  change (name_toks enc n) with (map (classify enc) n).
  destruct (classify enc a) as [a'|] eqn:Ea; [|done].
  apply classify_inv in Ea as ->.
  destruct n as [|b n]; [done|]. cbn [map].
  destruct (classify enc b) as [b'|] eqn:Eb; [|done].
  apply classify_inv in Eb as ->. cbn [ok_head]. split.
  - intros [-> ->]. by specialize (Hst (lit "__") ltac:(cbn; tauto)).
  - destruct n as [|c n]; [done|]. cbn [map].
    destruct (classify enc c) as [c'|] eqn:Ec; [|done].
    apply classify_inv in Ec as ->.
    pose proof (Hst (lit "DOT") ltac:(cbn; tauto)) as H1.
    pose proof (Hst (lit "BRA") ltac:(cbn; tauto)) as H2.
    pose proof (Hst (lit "KET") ltac:(cbn; tauto)) as H3.
    pose proof (Hst (lit "024") ltac:(cbn; tauto)) as H4.
    unfold bad3. cbn [forbidden tail existsb].
    cbn [lit list_ascii_of_string startswith] in *.
    by rewrite H1, H2, H3, H4.
Qed.

Lemma wf_app_esc ts1 k ts2 : wf ts1 → wf ts2 → wf (ts1 ++ Esc k :: ts2).
Proof.
  induction ts1 as [|t ts1 IH]; cbn [app wf]; [done|].
  intros [Hh Hw] H2. split; [|by apply IH].
  destruct t as [a|]; [|done].
  destruct ts1 as [|[b|] [|[c|] ts1]]; cbn in *; tauto.
Qed.

Lemma names_toks_cons enc n n' names :
  names_toks enc (n :: n' :: names)
  = name_toks enc n ++ Esc KDot :: names_toks enc (n' :: names).
Proof. reflexivity. Qed.

Lemma legal_names_wf enc names :
  Forall (λ n, legal n = true) names → wf (names_toks enc names).
Proof.
  induction names as [|n names IH]; [done|].
  intros [Hn Hns]%Forall_cons. destruct names as [|n' names].
  - by apply legal_wf.
  - rewrite names_toks_cons. apply wf_app_esc; [by apply legal_wf | by apply IH].
Qed.

Lemma pass_dollar ts :
  wf ts → replace DOLLAR (lit "$") (render ts) = render (decode KDollar ts).
Proof. intros H. apply (decode_pass KDollar), wf_safe, H. Qed.

Lemma pass_bra ts :
  wf ts → replace LPAREN (lit "[") (render ts) = render (decode KBra ts).
Proof. intros H. apply (decode_pass KBra), wf_safe, H. Qed.

Lemma pass_ket ts :
  wf ts → replace RPAREN (lit "]") (render ts) = render (decode KKet ts).
Proof. intros H. apply (decode_pass KKet), wf_safe, H. Qed.

Lemma legal_no_DOT n : legal n = true → contains DOT n = false.
Proof.
  unfold legal. rewrite forallb_forall. intros H.
  specialize (H (lit "__") ltac:(cbn; tauto)). apply negb_true_iff in H.
  destruct (contains DOT n) eqn:E; [|done].
  by rewrite (contains_app_l (lit "__") (lit "DOT__") n E) in H.
Qed.

Lemma names_contain_DOT enc n n' names :
  contains DOT (render (names_toks enc (n :: n' :: names))) = true.
Proof.
  rewrite names_toks_cons, render_app.
  apply contains_skip. rewrite render_cons. apply contains_here.
Qed.

(** C6, as the code has it.  For a list of submodule tags that is not
    empty and names that contain none of [__], [DOT], [BRA], [KET] and
    [024]: [split (merge submodules item is_port)] is the sequence
    [submodules..., item], the characters [.], [[], []] and [$] of the names
    included, except for a port of the top module ([submodules] of length
    one and [is_port]), where it is [item] alone. *)
Theorem split_merge_roundtrip submodules item is_port :
  submodules ≠ [] →
  Forall (λ n, legal n = true) (submodules ++ [item]) →
  split (merge submodules item is_port)
  = if (length submodules =? 1)%nat && is_port then [item]
    else submodules ++ [item].
Proof.
  intros Hne Hlegal. unfold merge.
  destruct ((length submodules =? 1)%nat && is_port).
  - assert (legal item = true) as Hitem.
    { apply Forall_app in Hlegal as [_ H]. by inversion H. }
    rewrite escape_dollar. unfold split.
    rewrite pass_dollar by by apply legal_wf.
    rewrite decode_dollar_only, render_plain.
    by rewrite (legal_no_DOT _ Hitem).
  - rewrite merge_tokens. unfold split.
    set (names := submodules ++ [item]) in *.
    assert (∃ n n' rest, names = n :: n' :: rest) as (n & n' & rest & Hnames).
    { subst names. destruct submodules as [|n [|n' rest]]; [done|..]; cbn; eauto. }
    rewrite pass_dollar by by apply legal_names_wf.
    rewrite decode_names by done.
    rewrite Hnames at 1. rewrite names_contain_DOT. cbn [negb].
    rewrite pass_bra by by apply legal_names_wf.
    rewrite decode_names by done.
    rewrite pass_ket by by apply legal_names_wf.
    rewrite decode_names by done.
    rewrite split_pass by by apply wf_safe, legal_names_wf.
    unfold names_toks.
    rewrite (map_ext (name_toks _) (map Plain)).
    2:{ intros a. unfold name_toks. apply map_ext. intros c.
        by apply classify_plain. }
    rewrite tsplit_names by (rewrite Hnames; done).
    rewrite map_map. rewrite <-(map_id names) at 2.
    apply map_ext. intros a. apply render_plain.
Qed.

Lemma split_merge_roundtrip_witness :
  split (merge [lit "top"; lit "u_alu[3]"] (lit "$acc.q") false)
  = [lit "top"; lit "u_alu[3]"; lit "$acc.q"].
Proof.
  apply (split_merge_roundtrip [lit "top"; lit "u_alu[3]"] (lit "$acc.q") false).
  - done.
  - repeat constructor.
Defined.

(** C6 as it is worded does not hold for a port of the top module: the
    merged name is the port name alone, and [split] yields the item
    without the module tag. *)
Lemma split_merge_counterexample :
  legal (lit "top") = true ∧ legal (lit "clk") = true
  ∧ split (merge [lit "top"] (lit "clk") true) = [lit "clk"]
  ∧ split (merge [lit "top"] (lit "clk") true) ≠ [lit "top"] ++ [lit "clk"].
Proof. by vm_compute. Qed.

End naming_facts.

Section coverage_facts.
Import Heuristics.

Example update_example :
  update [true; false; false; true; false]
         [{| start_byte := 1; end_byte := 2; substitute := [] |};
          {| start_byte := 3; end_byte := 5; substitute := [] |}]
  = ([true; true; false; true; true], Ok (4 # 5)).
Proof. reflexivity. Qed.

Lemma updated_weave_from cov lo rs :
  concat (zip_longest_chain []
            (map (λ '(i, j), slice cov i j)
                 (zip (lo :: map end_byte rs) (map start_byte rs ++ [length cov])))
            (map (λ r, replicate (end_byte r - start_byte r) true) rs))
  = weave cov lo rs.
Proof.
  revert lo. induction rs as [|r rs IH]; intros lo.
  - cbn. by rewrite !(right_id_L [] (++)).
  - cbn [weave]. by rewrite <-IH.
Qed.

Lemma updated_weave cov rs : updated cov rs = weave cov 0 rs.
Proof. apply updated_weave_from. Qed.

Lemma count_app {A} (p : A → bool) l1 l2 :
  count p (l1 ++ l2) = count p l1 + count p l2.
Proof. induction l1 as [|a l1 IH]; cbn; [done|]. rewrite IH. lia. Qed.

Lemma count_le_length {A} (p : A → bool) l : count p l ≤ length l.
Proof. induction l as [|a l IH]; cbn; [done|]. destruct (p a); lia. Qed.

Lemma count_true_replicate n : count_true (replicate n true) = n.
Proof. induction n as [|n IH]; cbn; [done|]. unfold count_true in IH. by rewrite IH. Qed.

Lemma count_false_replicate n : count_false (replicate n true) = 0.
Proof. induction n as [|n IH]; cbn; [done|]. apply IH. Qed.

Lemma count_true_false l : count_true l + count_false l = length l.
Proof.
  unfold count_true, count_false.
  induction l as [|[] l IH]; cbn; [done|lia|lia].
Qed.

Lemma slice_to_end {A} (l : list A) lo : slice l lo (length l) = drop lo l.
Proof. unfold slice. apply take_ge. rewrite length_drop. lia. Qed.

Lemma drop_slices {A} (l : list A) lo s e :
  lo ≤ s → s ≤ e → drop lo l = slice l lo s ++ slice l s e ++ drop e l.
Proof.
  intros H1 H2. unfold slice.
  rewrite <-(take_drop (s - lo) (drop lo l)) at 1. f_equal.
  rewrite drop_drop. replace (lo + (s - lo)) with s by lia.
  rewrite <-(take_drop (e - s) (drop s l)) at 1. f_equal.
  rewrite drop_drop. f_equal. lia.
Qed.

Lemma length_slice_le {A} (l : list A) i j : length (slice l i j) ≤ j - i.
Proof. unfold slice. rewrite length_take. lia. Qed.

(** The counts from position [lo] on: no covered byte is lost, no
    uncovered byte is added, and the array does not shrink. *)
Lemma weave_counts cov lo rs :
  batch_from lo rs →
  count_true (drop lo cov) ≤ count_true (weave cov lo rs)
  ∧ count_false (weave cov lo rs) ≤ count_false (drop lo cov)
  ∧ length (drop lo cov) ≤ length (weave cov lo rs).
Proof.
  revert lo. induction rs as [|r rs IH]; intros lo; cbn [batch_from weave].
  - intros _. by rewrite slice_to_end.
  - intros (H1 & H2 & H3). destruct (IH _ H3) as (IHt & IHf & IHl).
    rewrite (drop_slices cov lo (start_byte r) (end_byte r)) by done.
    unfold count_true, count_false in *.
    rewrite !count_app, !length_app, length_replicate.
    pose proof (count_true_replicate (end_byte r - start_byte r)) as Ht.
    pose proof (count_false_replicate (end_byte r - start_byte r)) as Hf.
    unfold count_true, count_false in Ht, Hf. rewrite Ht, Hf.
    pose proof (count_le_length id (slice cov (start_byte r) (end_byte r))).
    pose proof (length_slice_le cov (start_byte r) (end_byte r)).
    lia.
Qed.

Lemma in_ranges_before lo rs i : batch_from lo rs → i < lo → in_ranges rs i = false.
Proof.
  revert lo. induction rs as [|r rs IH]; intros lo; [done|].
  cbn [batch_from in_ranges existsb]. intros (H1 & H2 & H3) Hi.
  fold (in_ranges rs i). rewrite (IH (end_byte r)) by (done || lia).
  rewrite orb_false_r. apply andb_false_iff. left. apply Nat.leb_gt. lia.
Qed.

(** The bytes of the old array, from position [lo] on: a byte is covered
    afterwards iff it was covered or lies in a range of the batch. *)
Lemma weave_lookup cov lo rs i b :
  batch_from lo rs → lo ≤ i → cov !! i = Some b →
  weave cov lo rs !! (i - lo) = Some (b || in_ranges rs i).
Proof.
  revert lo. induction rs as [|r rs IH]; intros lo; cbn [batch_from weave].
  - intros _ Hlo Hi. rewrite slice_to_end, lookup_drop, orb_false_r.
    by replace (lo + (i - lo)) with i by lia.
  - intros (H1 & H2 & H3) Hlo Hi.
    assert (i < length cov) as Hlen by by eapply lookup_lt_Some.
    cbn [in_ranges existsb]. fold (in_ranges rs i).
    destruct (decide (i < start_byte r)) as [Hs|Hs].
    + (* before the range: the byte of the remainder *)
      rewrite lookup_app_l by (unfold slice; rewrite length_take, length_drop; lia).
      unfold slice. rewrite lookup_take_lt by lia. rewrite lookup_drop.
      replace (lo + (i - lo)) with i by lia. rewrite Hi.
      rewrite (in_ranges_before (end_byte r)) by (done || lia).
      rewrite (proj2 (Nat.leb_gt _ _)) by lia. by rewrite orb_false_r.
    + assert (length (slice cov lo (start_byte r)) = start_byte r - lo) as Hl
        by (unfold slice; rewrite length_take, length_drop; lia).
      rewrite lookup_app_r by lia. rewrite Hl.
      destruct (decide (i < end_byte r)) as [He|He].
      * (* inside the range: an inserted [True] *)
        rewrite lookup_app_l by (rewrite length_replicate; lia).
        rewrite lookup_replicate_2 by lia.
        rewrite (proj2 (Nat.leb_le _ _)), (proj2 (Nat.ltb_lt _ _)) by lia.
        by rewrite orb_true_r.
      * (* after the range *)
        rewrite lookup_app_r by (rewrite length_replicate; lia).
        rewrite length_replicate.
        replace (i - lo - (start_byte r - lo) - (end_byte r - start_byte r))
          with (i - end_byte r) by lia.
        rewrite (IH (end_byte r)) by (done || lia).
        rewrite (proj2 (Nat.ltb_ge _ _)) by lia. by rewrite andb_false_r.
Qed.

Lemma percentage_le cov cov' :
  count_false cov' ≤ count_false cov → length cov ≤ length cov' →
  Q_le (percentage cov) (percentage cov').
Proof.
  intros Hf Hl. unfold percentage, Q_le.
  pose proof (count_true_false cov). pose proof (count_true_false cov').
  destruct (length cov) as [|n] eqn:En; [done|].
  destruct (length cov') as [|n'] eqn:En'; [done|].
  unfold Qle. cbn [Qnum Qden].
  rewrite <-!Pos.of_nat_succ, !Zpos_P_of_succ_nat. nia.
Qed.



End coverage_facts.

Section smt_facts.
Import Item View Smt.

(** *** The paths a comparator aligns *)

Lemma get_common_paths_self cmp key :
  ident (this_circuit cmp) = ident (that_circuit cmp) →
  _get_common_paths cmp key = (getattr (model (this_circuit cmp)) key).*1.
Proof. intros H. unfold _get_common_paths. by rewrite H, Nat.eqb_refl. Qed.

(** For two distinct circuits the paths are those of either model. *)
Lemma get_common_paths_distinct cmp key p :
  ident (this_circuit cmp) ≠ ident (that_circuit cmp) →
  p ∈ _get_common_paths cmp key ↔
  p ∈ (getattr (model (this_circuit cmp)) key).*1
  ∨ p ∈ (getattr (model (that_circuit cmp)) key).*1.
Proof.
  intros H. unfold _get_common_paths.
  rewrite (proj2 (Nat.eqb_neq _ _) H).
  rewrite elem_of_elements, elem_of_list_to_set. apply elem_of_app.
Qed.

(** C1.  The code at two distinct circuits whose register views are
    [{a, b}] and [{b, c}]: the paths aligned are [a], [b] and [c], the union
    of the two views, and not [b] alone, their intersection. *)
Theorem get_common_paths_union_example :
  ident (this_circuit compare_ab_bc) ≠ ident (that_circuit compare_ab_bc)
  ∧ (∀ p, (p ∈ _get_common_paths compare_ab_bc internal_registers)
          ↔ (p = path 1 "a" ∨ p = path 1 "b" ∨ p = path 1 "c"))
  ∧ (path 1 "a" ∉ (getattr (model circuit_bc) internal_registers).*1)
  ∧ (path 1 "c" ∉ (getattr (model circuit_ab) internal_registers).*1).
Proof.
  split; [by vm_compute|].
  change ((getattr (model circuit_bc) internal_registers).*1)
    with [path 1 "b"; path 1 "c"].
  change ((getattr (model circuit_ab) internal_registers).*1)
    with [path 1 "a"; path 1 "b"].
  split.
  - intros p. rewrite get_common_paths_distinct by by vm_compute.
    change ((getattr (model (this_circuit compare_ab_bc)) internal_registers).*1)
      with [path 1 "a"; path 1 "b"].
    change ((getattr (model (that_circuit compare_ab_bc)) internal_registers).*1)
      with [path 1 "b"; path 1 "c"].
    rewrite !elem_of_cons, !elem_of_nil. naive_solver.
  - split; rewrite !elem_of_cons, elem_of_nil; intros [|[|[]]]; done.
Qed.

(** *** Widths *)

Lemma bv_width_bool_to_bv x : ∃ w, bv_width (bool_to_bv x) = Some w.
Proof.
  unfold bool_to_bv. destruct (bv_width x) as [w|] eqn:E; [eauto|].
  by exists 1%N.
Qed.

Lemma bv_width_not_bool x w : bv_width x = Some w → is_bool_type x = false.
Proof.
  revert w. induction x; intros w0; cbn; try done.
  - by destruct ty.
  - by destruct ret.
  - eauto.
Qed.

(** The nodes [align_width] returns have one width, and each is its
    operand (as a bit-vector) or a zero extension of it. *)
Lemma align_width_spec foo bar :
  ∃ w, bv_width (align_width foo bar).1 = Some w
     ∧ bv_width (align_width foo bar).2 = Some w
     ∧ ((align_width foo bar).1 = bool_to_bv foo
        ∨ ∃ k, (align_width foo bar).1 = BVZExt (bool_to_bv foo) k)
     ∧ ((align_width foo bar).2 = bool_to_bv bar
        ∨ ∃ k, (align_width foo bar).2 = BVZExt (bool_to_bv bar) k).
Proof.
  destruct (bv_width_bool_to_bv foo) as [wf Hf].
  destruct (bv_width_bool_to_bv bar) as [wb Hb].
  assert (width (bool_to_bv foo) = wf) as Hwf by (unfold width; by rewrite Hf).
  assert (width (bool_to_bv bar) = wb) as Hwb by (unfold width; by rewrite Hb).
  unfold align_width. rewrite Hwf, Hwb.
  destruct (Z.eqb_spec (Z.of_N wf - Z.of_N wb) 0) as [H0|H0]; cbn [fst snd].
  { exists wf. rewrite ?Hf, ?Hb. split_and!; eauto. f_equal. lia. }
  destruct (Z.ltb_spec (Z.of_N wf - Z.of_N wb) 0) as [Hlt|Hge]; cbn [fst snd bv_width].
  - exists wb. rewrite ?Hf, ?Hb. cbn. split_and!; eauto. f_equal. lia.
  - exists wf. rewrite ?Hf, ?Hb. cbn. split_and!; eauto. f_equal. lia.
Qed.

Lemma equations_of_spec t e :
  e ∈ equations_of t →
  ∃ a b l r w,
    (a, b) ∈ zip_values t.1.2 t.2 ∧ e = Equals l r
    ∧ bv_width l = Some w ∧ bv_width r = Some w
    ∧ (l = bool_to_bv a ∨ ∃ k, l = BVZExt (bool_to_bv a) k)
    ∧ (r = bool_to_bv b ∨ ∃ k, r = BVZExt (bool_to_bv b) k).
Proof.
  unfold equations_of. intros ([a b] & -> & Hab)%list_elem_of_fmap.
  destruct (align_width_spec a b) as (w & Hl & Hr & H1 & H2).
  cbn [fst snd]. destruct (align_width a b) as [l r]. cbn [fst snd] in *.
  exists a, b, l, r, w. split_and!; try done.
  unfold EqualsOrIff. by rewrite (bv_width_not_bool l w).
Qed.




(** *** The meaning of the shortcuts *)

Lemma is_true_holds M x : is_true (eval M x) = true ↔ holds M x.
Proof. unfold holds. destruct (eval M x) as [[]| | |]; cbn; split; done. Qed.

Lemma holds_And M xs : holds M (And xs) ↔ Forall (holds M) xs.
Proof.
  unfold holds at 1. cbn [eval]. split.
  - intros [= H]. rewrite forallb_forall in H. apply Forall_forall.
    intros x Hx. by apply is_true_holds, H, list_elem_of_In.
  - intros H. f_equal. apply forallb_forall. intros x Hx.
    apply is_true_holds. rewrite Forall_forall in H. by apply H, list_elem_of_In.
Qed.

Lemma holds_And_ M xs : holds M (And_ xs) ↔ Forall (holds M) xs.
Proof.
  destruct xs as [|x [|y xs]]; cbn [And_].
  - split; [constructor | done].
  - split; [by repeat constructor | by inversion 1].
  - apply holds_And.
Qed.

Lemma holds_Or M xs : holds M (Or xs) ↔ Exists (holds M) xs.
Proof.
  unfold holds at 1. cbn [eval]. split.
  - intros [= H]. apply existsb_exists in H as (x & Hx & H).
    apply Exists_exists. exists x. split; [by apply list_elem_of_In|].
    by apply is_true_holds.
  - intros (x & Hx & H)%Exists_exists. f_equal. apply existsb_exists.
    exists x. split; [by apply list_elem_of_In | by apply is_true_holds].
Qed.

Lemma holds_Or_ M xs : holds M (Or_ xs) ↔ Exists (holds M) xs.
Proof.
  destruct xs as [|x [|y xs]]; cbn [Or_].
  - split; [done | by inversion 1].
  - split; [by constructor|]. inversion 1 as [|?? H']; [done | by inversion H'].
  - apply holds_Or.
Qed.

Lemma holds_Not_ M x : holds M (Not_ x) ↔ eval M x = VBool false.
Proof.
  unfold holds.
  assert (holds M (Not x) ↔ eval M x = VBool false) as Hnot.
  { unfold holds. cbn. destruct (eval M x) as [[]| | |]; split; done. }
  destruct x; try exact Hnot.
  cbn. destruct (eval M x) as [[]| | |]; split; done.
Qed.

(** *** The assertion about the transition relations *)

Lemma length_states_from circuits fresh :
  length (states_from circuits fresh) = length circuits.
Proof. unfold states_from. by rewrite length_imap. Qed.

Lemma length_transformation_exprs circuits fresh :
  length (transformation_exprs circuits fresh) = length circuits.
Proof.
  unfold transformation_exprs.
  rewrite length_zip_with, length_zip_with, !length_states_from. lia.
Qed.

(** [T[i]] is the transition relation of circuit [i] at its two fresh
    states. *)
Lemma transformation_exprs_lookup circuits fresh i c :
  circuits !! i = Some c →
  transformation_exprs circuits fresh !! i
  = Some (data c (new_state c (fresh + i))
                 (new_state c (fresh + length circuits + i))).
Proof.
  intros Hc. unfold transformation_exprs.
  apply lookup_zip_with_Some. eexists c, (_, _). split; [done|]. split; [done|].
  apply lookup_zip_with_Some. eexists _, _. split; [done|].
  unfold states_from. rewrite !list_lookup_imap, Hc. done.
Qed.

Lemma elem_of_partial_indices circuits p :
  p ∈ partial_indices circuits ↔ ∃ c, circuits !! p = Some c ∧ is_partial c = true.
Proof.
  unfold partial_indices. rewrite list_elem_of_fmap. split.
  - intros ([i c] & -> & H). apply list_elem_of_filter in H as [Hp H].
    apply elem_of_lookup_imap in H as (j & c' & [= -> ->] & H). eauto.
  - intros (c & Hc & Hp). exists (p, c). split; [done|].
    apply list_elem_of_filter. split; [done|].
    apply elem_of_lookup_imap. eauto.
Qed.

Lemma elem_of_delete {A} (l : list A) p x :
  x ∈ delete p l ↔ ∃ i, i ≠ p ∧ l !! i = Some x.
Proof.
  rewrite list_elem_of_lookup. split.
  - intros [j Hj]. destruct (decide (j < p)).
    + rewrite list_lookup_delete_lt in Hj by done. exists j. split; [lia | done].
    + rewrite list_lookup_delete_ge in Hj by lia. exists (S j). split; [lia | done].
  - intros (i & Hi & Hx). destruct (decide (i < p)).
    + exists i. by rewrite list_lookup_delete_lt.
    + exists (i - 1). rewrite list_lookup_delete_ge by lia.
      by replace (S (i - 1)) with i by lia.
Qed.

Lemma length_filter_imap (g : nat → nat) (circuits : list SmtCircuit) :
  length (filter (λ ic : nat * SmtCircuit, is_partial ic.2 = true)
            (imap (λ i c, (g i, c)) circuits))
  = length (filter (λ c, is_partial c = true) circuits).
Proof.
  revert g. induction circuits as [|c cs IH]; intros g; [done|].
  cbn [imap]. rewrite !filter_cons. cbn [snd].
  specialize (IH (g ∘ S)).
  destruct (decide (is_partial c = true)); cbn [length]; by rewrite <-IH.
Qed.

(** The number of partial indices is the number of partial circuits. *)
Lemma length_partial_indices circuits :
  length (partial_indices circuits)
  = length (filter (λ c, is_partial c = true) circuits).
Proof.
  unfold partial_indices. rewrite length_fmap.
  apply (length_filter_imap id).
Qed.

(** C3.  With two or more partial circuits the check fails with
    [NotImplementedError] (and the solver is given nothing).  With exactly
    one partial circuit [p], the first assertion the solver is given holds
    in an interpretation iff [T[p]] holds and [T[i]] is false for some
    [i ≠ p]: it is [T[p] ∧ ⋁ ¬T[i]]. *)
Theorem partial_miter solve self others fresh quick rng :
  let circuits := self :: others in
  let T := transformation_exprs circuits fresh in
  (2 ≤ length (filter (λ c, is_partial c = true) circuits) →
     ∃ msg, is_equivalent_to solve self others fresh quick rng
            = Raise (NotImplementedError msg)
          ∧ (solver_query circuits fresh quick rng).2 = [])
  ∧ (∀ p, partial_indices circuits = [p] →
     ∃ a rest tp,
       (solver_query circuits fresh quick rng).2 = a :: rest
       ∧ T !! p = Some tp
       ∧ ∀ M, holds M a ↔
              (holds M tp ∧ ∃ i t, i ≠ p ∧ T !! i = Some t ∧ eval M t = VBool false)).
Proof.
  intros circuits T. split.
  - intros Hlen. rewrite <-length_partial_indices in Hlen.
    unfold is_equivalent_to, solver_query, transformation_assertion.
    fold circuits. destruct (partial_indices circuits) as [|p [|q ps]];
      [cbn in Hlen; lia.. |]. cbn. eauto.
  - intros p Hp.
    assert (∃ tp, T !! p = Some tp) as [tp Htp].
    { assert (p ∈ partial_indices circuits) as Hin by (rewrite Hp; by left).
      apply elem_of_partial_indices in Hin as (c & Hc & _).
      apply lookup_lt_is_Some. unfold T.
      rewrite length_transformation_exprs. by eapply lookup_lt_Some. }
    set (a := And_ [Or_ (map Not_ (delete p T)); tp]).
    assert (∃ rest, (solver_query circuits fresh quick rng).2 = a :: rest)
      as [rest Hrest].
    { unfold solver_query, transformation_assertion. fold T. rewrite Hp, Htp.
      destruct (all_equations _ _ _ _ _); cbn; eauto. }
    exists a, rest, tp. split; [done|]. split; [done|]. intros M.
    unfold a. rewrite holds_And_, Forall_cons, Forall_singleton, holds_Or_.
    rewrite Exists_exists. split.
    + intros [(x & Hx & Hholds) Htrue]. split; [done|].
      apply list_elem_of_fmap in Hx as (t & -> & Ht).
      apply elem_of_delete in Ht as (i & Hi & Ht).
      exists i, t. by rewrite <-holds_Not_.
    + intros [Htrue (i & t & Hi & Ht & Hfalse)]. split; [|done].
      exists (Not_ t). split; [|by apply holds_Not_].
      apply list_elem_of_fmap. exists t. split; [done|].
      apply elem_of_delete. eauto.
Qed.

Lemma partial_miter_witness :
  let T := transformation_exprs [circuit_partial; circuit_full] 0 in
  ∃ a rest tp,
    (solver_query [circuit_partial; circuit_full] 0 false (λ _, 0%Z)).2 = a :: rest
    ∧ T !! 0 = Some tp
    ∧ ∀ M, holds M a ↔
           (holds M tp ∧ ∃ i t, i ≠ 0 ∧ T !! i = Some t ∧ eval M t = VBool false).
Proof.
  apply (proj2 (partial_miter solve_unsat circuit_partial [circuit_full] 0 false
                  (λ _, 0%Z)) 0).
  reflexivity.
Defined.

(** *** Quick mode *)

Lemma mapM_Ok_cons {A B} (f : A → result B) a l r :
  mapM f (a :: l) = Ok r ↔ ∃ b bs, f a = Ok b ∧ mapM f l = Ok bs ∧ r = b :: bs.
Proof.
  cbn [mapM]. rewrite bind_Ok. split.
  - intros (b & Hb & H). apply bind_Ok in H as (bs & Hbs & [= <-]). eauto.
  - intros (b & bs & Hb & Hbs & ->). exists b. split; [done|].
    apply bind_Ok. eauto.
Qed.

Lemma always_equal_equations cmp key equations :
  Binary_always_equal cmp key = Ok equations → Forall is_equation equations.
Proof.
  unfold Binary_always_equal. intros (aligned & _ & [= <-])%bind_Ok.
  apply Forall_forall. intros e He.
  apply list_elem_of_In, in_flat_map in He as (t & Ht & He).
  apply list_elem_of_In, equations_of_spec in He as (? & ? & l & r & ? & _ & -> & _).
  by exists l, r.
Qed.

Lemma holds_pinned M q e : pinned q e → holds M q → holds M e.
Proof.
  intros [->|[pin ->]]; [done|]. rewrite holds_And.
  intros H. by inversion H as [|?? _ H']; inversion H'.
Qed.

(** Pinning with random values never fails on equations, and yields each
    equation itself or conjoined with its pinning constraint. *)
Lemma pin_equations_pinned rng n equations :
  Forall is_equation equations →
  ∃ out n', pin_equations None rng n equations = Ok (out, n')
            ∧ Forall2 pinned out equations.
Proof.
  intros H. revert n. induction H as [|e es (l & r & ->) _ IH]; intros n.
  - cbn. eauto.
  - cbn [pin_equations args]. destruct (is_constant l || is_constant r).
    + destruct (IH n) as (out & n' & -> & Hout). cbn.
      exists (Equals l r :: out), n'. split; [done|]. constructor; [by left | done].
    + cbn [concretize mbind result_bind bind].
      destruct (IH (S n)) as (out & n' & -> & Hout). cbn.
      eexists (_ :: out), n'. split; [done|]. constructor; [|done].
      right. eauto.
Qed.

Lemma Binary_quick cmp key rng n equations :
  Binary_always_equal cmp key = Ok equations →
  ∃ out n', Binary_equal_to_specific_value cmp key None rng n = Ok (out, n')
            ∧ Forall2 pinned out equations.
Proof.
  intros H. unfold Binary_equal_to_specific_value. rewrite H. cbn.
  apply pin_equations_pinned. by eapply always_equal_equations.
Qed.

Lemma Pairwise_quick subs key rng n ls :
  mapM (λ cmp, Binary_always_equal cmp key) subs = Ok ls →
  ∃ out n', Pairwise_equal_to_specific_value subs key None rng n = Ok (out, n')
            ∧ Forall2 pinned out (concat ls).
Proof.
  revert n ls. induction subs as [|cmp subs IH]; intros n ls.
  - intros [= <-]. cbn. eauto.
  - intros (eqs & ls' & Hcmp & Hsubs & ->)%mapM_Ok_cons.
    destruct (Binary_quick cmp key rng n eqs Hcmp) as (out1 & n1 & H1 & HF1).
    destruct (IH n1 ls' Hsubs) as (out2 & n2 & H2 & HF2).
    cbn [Pairwise_equal_to_specific_value]. rewrite H1. cbn. rewrite H2. cbn.
    exists (out1 ++ out2), n2. split; [done|]. by apply Forall2_app.
Qed.

Lemma get_equation_quick rng0 rng ctor key n0 n equations m :
  get_equation false rng0 ctor key n0 = Ok (equations, m) →
  ∃ out n', get_equation true rng ctor key n = Ok (out, n')
            ∧ Forall2 pinned out equations.
Proof.
  unfold get_equation. intros (eqs & H & [= <- <-])%bind_Ok.
  destruct ctor as [cmp|subs]; cbn [always_equal equal_to_specific_value] in *.
  - by apply Binary_quick.
  - apply bind_Ok in H as (ls & Hls & [= <-]). by apply Pairwise_quick.
Qed.

Lemma collect_equations_quick rng0 rng jobs n0 n equations m :
  collect_equations false rng0 jobs n0 = Ok (equations, m) →
  ∃ out n', collect_equations true rng jobs n = Ok (out, n')
            ∧ Forall2 pinned out equations.
Proof.
  revert n0 n equations m. induction jobs as [|[ctor key] jobs IH];
    intros n0 n equations m.
  - intros [= <- <-]. cbn. eauto.
  - cbn [collect_equations]. intros ([eqs n1] & Hget & H)%bind_Ok.
    apply bind_Ok in H as ([rest n2] & Hrest & [= <- <-]).
    destruct (get_equation_quick rng0 rng ctor key n0 n eqs n1 Hget)
      as (out1 & m1 & -> & HF1).
    destruct (IH n1 m1 rest n2 Hrest) as (out2 & m2 & H2 & HF2).
    cbn. rewrite H2. cbn.
    exists (out1 ++ out2), m2. split; [done|]. by apply Forall2_app.
Qed.

Lemma all_equations_quick circuits cur nxt rng0 rng equations :
  all_equations circuits cur nxt false rng0 = Ok equations →
  ∃ out, all_equations circuits cur nxt true rng = Ok out
         ∧ Forall2 pinned out equations.
Proof.
  unfold all_equations. intros (cc & Hcc & H)%bind_Ok.
  apply bind_Ok in H as (nc & Hnc & H).
  apply bind_Ok in H as ([eqs m] & Hc & [= <-]).
  destruct (collect_equations_quick rng0 rng _ 0 0 eqs m Hc) as (out & m' & Hout & HF).
  exists out. split; [|done].
  apply bind_Ok. exists cc. split; [done|].
  apply bind_Ok. exists nc. split; [done|].
  apply bind_Ok. exists (out, m'). by split.
Qed.

(** The assertions of the quick query imply those of the full query. *)
Lemma solver_query_quick circuits fresh rng0 rng full :
  (solver_query circuits fresh false rng0).1 = Ok full →
  ∃ quick, (solver_query circuits fresh true rng).1 = Ok quick
           ∧ ∀ M, Forall (holds M) quick → Forall (holds M) full.
Proof.
  unfold solver_query.
  destruct (transformation_assertion _ _) as [miter|]; [|done].
  destruct (all_equations _ _ _ false _) as [equations|] eqn:Heq; [|done].
  destruct (all_equations_quick _ _ _ rng0 rng _ Heq) as (out & -> & HF).
  cbn [fst]. intros [= <-]. eexists. split; [done|]. intros M.
  cbn [app]. rewrite !Forall_cons, !holds_And_.
  intros (Hm & Hout & Hpre). split_and!; [done| |done].
  clear -HF Hout. induction HF as [|q e out es Hqe _ IH]; [done|].
  apply Forall_cons in Hout as [Hq Hout].
  constructor; [by eapply holds_pinned | by apply IH].
Qed.



End smt_facts.

Section api_facts.
Import Api.
Context {Circuit Conversion : Type}.
Context `{!EqDecision Circuit, !EqDecision Conversion, !Countable Conversion}.
Variable convert : Conversion → option Circuit.
Variable is_equivalent_to : Circuit → Circuit → result bool.

Lemma compare_with_pivots_app pre pivots circuit
    (ws : list (string * FileContent (Circuit:=Circuit) (Conversion:=Conversion))) :
  none_equivalent is_equivalent_to pre circuit →
  compare_with_pivots is_equivalent_to (pre ++ pivots) circuit ws
  = compare_with_pivots is_equivalent_to pivots circuit
      (ws ++ traces is_equivalent_to pre circuit).
Proof.
  unfold none_equivalent. intros H. revert ws.
  induction H as [|q pre Hq _ IH]; intros ws; cbn.
  - by rewrite (right_id_L [] (++)).
  - destruct (is_equivalent_to q circuit) as [[]|e]; [done| |].
    + apply IH.
    + rewrite IH. by rewrite <-(assoc_L (++)).
Qed.

Lemma compare_with_pivots_none pivots circuit
    (ws : list (string * FileContent (Circuit:=Circuit) (Conversion:=Conversion))) :
  none_equivalent is_equivalent_to pivots circuit →
  compare_with_pivots is_equivalent_to pivots circuit ws
  = (None, ws ++ traces is_equivalent_to pivots circuit).
Proof.
  intros H. rewrite <-(right_id_L [] (++) pivots) at 1.
  by rewrite compare_with_pivots_app.
Qed.

Lemma class_add_fresh (classes : list (Circuit * gset Conversion)) key conversion :
  key ∉ classes.*1 →
  class_add classes key conversion = classes ++ [(key, {[conversion]})].
Proof.
  induction classes as [|[k m] classes IH]; [done|]. cbn.
  intros H. apply not_elem_of_cons in H as [Hk H].
  rewrite decide_False by done. by rewrite IH.
Qed.

Lemma compare_with_pivots_files pivots circuit
    (ws : list (string * FileContent (Circuit:=Circuit) (Conversion:=Conversion))) x :
  x ∈ ws → x ∈ (compare_with_pivots is_equivalent_to pivots circuit ws).2.
Proof.
  revert ws. induction pivots as [|q pivots IH]; intros ws Hx; [done|]. cbn.
  destruct (is_equivalent_to q circuit) as [[]|e]; [done|by apply IH|].
  apply IH, elem_of_app. by left.
Qed.

Lemma classify_nonempty (st : State) conversion circuit :
  convert conversion = Some circuit →
  equivalence_classes st ≠ [] →
  let r := compare_with_pivots is_equivalent_to
             (equivalence_classes st).*1 circuit (files st) in
  files (classify convert is_equivalent_to st conversion) = r.2
  ∧ equivalence_classes (classify convert is_equivalent_to st conversion)
    = class_add (equivalence_classes st) (default circuit r.1) conversion.
Proof.
  intros Hc Hne. unfold classify. rewrite Hc.
  destruct (equivalence_classes st) as [|kc classes] eqn:E; [done|].
  cbn zeta. destruct (compare_with_pivots _ _ _ _) as [[pivot|] ws]; done.
Qed.

(** C8, as the code has it.  When the comparison of a newly converted
    circuit with a pivot raises, the trace is saved to the workspace and the
    loop goes on to the next pivot.  The circuit gets a class of its own
    when no later pivot compares equivalent; when a later pivot compares
    equivalent, the conversion is added to the class of that pivot. *)
Theorem classify_on_exception (st : State) conversion circuit pre pivot post e :
  convert conversion = Some circuit →
  (equivalence_classes st).*1 = pre ++ pivot :: post →
  none_equivalent is_equivalent_to pre circuit →
  is_equivalent_to pivot circuit = Raise e →
  let st' := classify convert is_equivalent_to st conversion in
  (EXCEPTION_FILENAME, Traceback e) ∈ files st'
  ∧ (none_equivalent is_equivalent_to post circuit →
     equivalence_classes st'
     = class_add (equivalence_classes st) circuit conversion
     ∧ (circuit ∉ (equivalence_classes st).*1 →
        equivalence_classes st'
        = equivalence_classes st ++ [(circuit, {[conversion]})]))
  ∧ (∀ post1 q post2,
       post = post1 ++ q :: post2 →
       none_equivalent is_equivalent_to post1 circuit →
       is_equivalent_to q circuit = Ok true →
       equivalence_classes st'
       = class_add (equivalence_classes st) q conversion).
Proof.
  intros Hc Hkeys Hpre He st'.
  assert (equivalence_classes st ≠ []) as Hne.
  { intros H. rewrite H in Hkeys. by destruct pre. }
  destruct (classify_nonempty st conversion circuit Hc Hne) as [Hfiles Hclasses].
  fold st' in Hfiles, Hclasses.
  assert (compare_with_pivots is_equivalent_to (equivalence_classes st).*1
            circuit (files st)
          = compare_with_pivots is_equivalent_to post circuit
              ((files st ++ traces is_equivalent_to pre circuit)
               ++ [(EXCEPTION_FILENAME, Traceback e)])) as Hscan.
  { rewrite Hkeys, compare_with_pivots_app by done. cbn. by rewrite He. }
  rewrite Hscan in Hfiles, Hclasses. split_and!.
  - rewrite Hfiles. apply compare_with_pivots_files, elem_of_app. right. by left.
  - intros Hpost. rewrite compare_with_pivots_none in Hclasses by done.
    split; [done|]. intros Hfresh. rewrite Hclasses. by apply class_add_fresh.
  - intros post1 q post2 -> Hpost1 Hq.
    rewrite compare_with_pivots_app in Hclasses by done.
    cbn in Hclasses. by rewrite Hq in Hclasses.
Qed.

End api_facts.

Section api_examples.
Import Api.

Lemma classify_on_exception_witness :
  let e := NotImplementedError "comparing >=2 partial models is not supported" in
  let st' := classify example_convert example_is_equivalent_to example_state 2 in
  (EXCEPTION_FILENAME, Traceback e) ∈ files st'
  ∧ equivalence_classes st'
    = class_add (equivalence_classes example_state) 1 2.
Proof.
  intros e st'.
  destruct (classify_on_exception example_convert example_is_equivalent_to
              example_state 2 2 [] 0 [1] e eq_refl eq_refl)
    as (H1 & _ & H3).
  - constructor.
  - reflexivity.
  - split; [exact H1|]. apply (H3 [] 1 []); [reflexivity | constructor | reflexivity].
Defined.

(** C8 as it is worded does not hold: the comparison of circuit [2] with
    the pivot [0] raises, and the circuit is not kept in a class of its own:
    its conversion joins the class of the pivot [1]. *)
Lemma equivalence_check_counterexample :
  let st := equivalence_check example_convert example_is_equivalent_to ".v"
              [0; 1; 2] in
  example_is_equivalent_to 0 2
  = Raise (NotImplementedError "comparing >=2 partial models is not supported")
  ∧ (EXCEPTION_FILENAME,
     Traceback (NotImplementedError "comparing >=2 partial models is not supported"))
    ∈ files st
  ∧ equivalence_classes st = [(0, {[0]}); (1, {[1; 2]})].
Proof.
  split; [reflexivity|]. split.
  - apply list_elem_of_In. vm_compute. tauto.
  - by vm_compute.
Qed.

End api_examples.

(* ===================================================================== *)
(** * Part III: further properties of the code                            *)
(* ===================================================================== *)

Section item_extras.
Import Item.

Lemma register_element_Ok store mn n r i w c store' :
  register_element store mn n r i w = (Ok c, store') →
  store' = <[n := Compound c]> store
  ∧ c_is_reg c = r ∧ c_element_width c = w
  ∧ ((store !! n = None
      ∧ c = {| c_name := n; c_is_reg := r; c_element_width := w;
               c_element_indices := {[i]}; c_inst_attrs := None |})
     ∨ ∃ c0, store !! n = Some (Compound c0) ∧ (i ∉ c_element_indices c0)
          ∧ c = {| c_name := c_name c0; c_is_reg := c_is_reg c0;
                   c_element_width := c_element_width c0;
                   c_element_indices := {[i]} ∪ c_element_indices c0;
                   c_inst_attrs := c_inst_attrs c0 |}).
Proof.
  intros Hcall. unfold register_element in Hcall.
  destruct (store !! n) as [item|] eqn:Hn.
  - rewrite (setdefault_present _ _ _ _ Hn) in Hcall.
    destruct item as [p|c0]; [done|].
    destruct (eqb r (c_is_reg c0)) eqn:Hr; cbn in Hcall; [|done].
    destruct (w =? c_element_width c0)%Z eqn:Hw; cbn in Hcall; [|done].
    case_bool_decide as Hi; [done|]. injection Hcall as <- <-. cbn.
    apply eqb_prop in Hr. apply Z.eqb_eq in Hw.
    split_and!; try done. right. by exists c0.
  - rewrite (setdefault_absent _ _ _ Hn) in Hcall.
    cbn in Hcall. rewrite eqb_reflx, Z.eqb_refl in Hcall. cbn in Hcall.
    rewrite bool_decide_eq_false_2 in Hcall by apply not_elem_of_empty.
    injection Hcall as <- <-. cbn. rewrite (right_id_L ∅ (∪)).
    split_and!; try done; [by rewrite insert_insert_eq | by left].
Qed.

(** X1. A call of [register_element] that succeeds stores the item under
    its name and adds exactly the new index: for a new array the index set
    is the singleton, for an array that exists the index was absent and the
    capacity grows by one; the kind and the element width are those given. *)
Theorem register_element_adds store mn n r i w c store' :
  register_element store mn n r i w = (Ok c, store') →
  store' = <[n := Compound c]> store
  ∧ c_is_reg c = r ∧ c_element_width c = w
  ∧ match store !! n with
    | None => c_name c = n ∧ c_element_indices c = {[i]} ∧ capacity c = 1
    | Some (Compound c0) =>
      c_name c = c_name c0 ∧ (i ∉ c_element_indices c0)
      ∧ c_element_indices c = {[i]} ∪ c_element_indices c0
      ∧ capacity c = S (capacity c0)
    | Some (Primitive _) => False
    end.
Proof.
  intros Hcall. destruct (store !! n) as [item|] eqn:Hn.
  - unfold register_element in Hcall.
    rewrite (setdefault_present _ _ _ _ Hn) in Hcall.
    destruct item as [p|c0]; [done|].
    destruct (eqb r (c_is_reg c0)) eqn:Hr; cbn in Hcall; [|done].
    destruct (w =? c_element_width c0)%Z eqn:Hw; cbn in Hcall; [|done].
    case_bool_decide as Hi; [done|]. injection Hcall as <- <-. cbn.
    apply eqb_prop in Hr. apply Z.eqb_eq in Hw.
    split_and!; try done. unfold capacity. cbn.
    rewrite size_union by set_solver. by rewrite size_singleton.
  - destruct (register_element_fresh store mn n r i w Hn) as (c' & Hc & Hi & Hr & Hw).
    rewrite Hc in Hcall. injection Hcall as <- <-.
    split_and!; try done.
    + unfold register_element in Hc. rewrite (setdefault_absent _ _ _ Hn) in Hc.
      cbn in Hc. rewrite eqb_reflx, Z.eqb_refl in Hc. cbn in Hc.
      rewrite bool_decide_eq_false_2 in Hc by apply not_elem_of_empty.
      by injection Hc as <- _.
    + unfold capacity. by rewrite Hi, size_singleton.
Qed.

Lemma register_element_adds_witness :
  let store : gmap string ModuleItem :=
    {["a" := Compound {| c_name := "a"; c_is_reg := false; c_element_width := 8;
                         c_element_indices := {[0%Z]}; c_inst_attrs := None |}]} in
  ∃ c, ((register_element store "m" "a" false 1 8).1 = Ok c)
     ∧ c_element_indices c = {[1%Z]} ∪ {[0%Z]} ∧ capacity c = 2.
Proof.
  intros store.
  destruct (register_element store "m" "a" false 1 8) as [[c|e] store'] eqn:H;
    [|by vm_compute in H].
  pose proof (register_element_adds _ _ _ _ _ _ _ _ H) as (_ & _ & _ & Hc).
  change (store !! "a") with
    (Some (Compound {| c_name := "a"; c_is_reg := false; c_element_width := 8;
                       c_element_indices := {[0%Z]}; c_inst_attrs := None |})) in Hc.
  cbn in Hc. destruct Hc as (_ & _ & Hi & Hcap).
  exists c. split; [done|]. split; [exact Hi | exact Hcap].
Defined.

(** *** The pattern of array elements *)

Lemma append_String c s t : String c s +:+ t = String c (s +:+ t).
Proof. reflexivity. Qed.

Lemma match_rest_digits d :
  match_rest (NilEmpty.string_of_uint d +:+ "]") = None.
Proof. induction d; cbn [NilEmpty.string_of_uint]; rewrite ?append_String; cbn; by rewrite ?IHd. Qed.

Lemma match_index_digits d acc :
  match_index (NilEmpty.string_of_uint d +:+ "]") (Some (Z.of_nat acc))
  = Some (Z.of_nat (Nat.of_uint_acc d acc)).
Proof.
  revert acc. induction d; intros acc; cbn [NilEmpty.string_of_uint Nat.of_uint_acc];
    rewrite ?append_String; [done|..];
    cbn [match_index];
    match goal with |- context [is_digit ?c] => change (is_digit c) with true end;
    cbv iota; rewrite <-IHd; do 2 f_equal; rewrite Nat.tail_mul_spec;
    change (default 0%Z (Some (Z.of_nat acc))) with (Z.of_nat acc);
    match goal with
    | |- context [digit_value ?c] =>
      let v := eval vm_compute in (digit_value c) in change (digit_value c) with v
    end; lia.
Qed.

Lemma to_uint_nonnil i : Nat.to_uint i ≠ Decimal.Nil.
Proof.
  rewrite <-(Unsigned.of_to i) at 1. rewrite Unsigned.to_of.
  apply unorm_nonnil.
Qed.

Lemma match_index_str_of_nat i :
  match_index (str_of_nat i +:+ "]") None = Some (Z.of_nat i).
Proof.
  unfold str_of_nat. pose proof (to_uint_nonnil i) as Hnil.
  rewrite <-(Unsigned.of_to i) at 2. unfold Nat.of_uint.
  rewrite <-(match_index_digits (Nat.to_uint i) 0).
  destruct (Nat.to_uint i); done.
Qed.

Lemma match_rest_str_of_nat i : match_rest (str_of_nat i +:+ "]") = None.
Proof.
  unfold str_of_nat. pose proof (to_uint_nonnil i) as Hnil.
  rewrite <-(match_rest_digits (Nat.to_uint i)). by destruct (Nat.to_uint i).
Qed.

Lemma match_rest_element n i :
  all_graph n = true →
  match_rest (n +:+ "[" +:+ str_of_nat i +:+ "]") = Some (n, Z.of_nat i).
Proof.
  induction n as [|c n IH]; intros Hn.
  - change ("" +:+ "[" +:+ str_of_nat i +:+ "]")
      with (String "[" (str_of_nat i +:+ "]")).
    cbn [match_rest]. rewrite match_rest_str_of_nat, match_index_str_of_nat. done.
  - cbn [all_graph] in Hn. apply andb_true_iff in Hn as [Hc Hn].
    rewrite append_String. cbn [match_rest]. by rewrite Hc, IH.
Qed.

(** X2. The array pattern inverts the naming of array elements: for a name
    of characters in [[!-~]] that is not empty and every index [i], matching
    [name[i]] gives back the name and the index, also when the name itself
    holds brackets. *)
Theorem ARRAY_ELEMENT_element_name n i :
  n ≠ "" → all_graph n = true →
  ARRAY_ELEMENT_match (element_name n i) = Some (n, Z.of_nat i).
Proof.
  intros Hne Hn. destruct n as [|c n]; [done|].
  cbn [all_graph] in Hn. apply andb_true_iff in Hn as [Hc Hn].
  unfold element_name. rewrite append_String. cbn [ARRAY_ELEMENT_match].
  by rewrite Hc, match_rest_element.
Qed.

Lemma ARRAY_ELEMENT_element_name_witness :
  ARRAY_ELEMENT_match (element_name "mem[3]" 120) = Some ("mem[3]", 120%Z).
Proof. apply (ARRAY_ELEMENT_element_name "mem[3]" 120); reflexivity || done. Defined.

End item_extras.

Section decl_extras.
Import Item Decl.

Lemma new_instance_spec decl attrs i :
  new_instance decl attrs = Ok i →
  Item.name i = Item.name decl ∧ is_register i = is_register decl
  ∧ is_port i = is_port decl ∧ is_instance i = true.
Proof.
  destruct decl as [p|c]; cbn.
  - by intros [= <-].
  - destruct (c_inst_attrs c) as [a|] eqn:Ha.
    + case_decide; [|done]. intros [= <-]. cbn. rewrite Ha. done.
    + by intros [= <-].
Qed.

Lemma instances_declared_init d : instances_declared (ModuleInstance_init d).
Proof. intros name i H. cbn in H. by rewrite lookup_empty in H. Qed.

Lemma instantiate_item_declared inst name attrs inst' :
  instances_declared inst → instantiate_item inst name attrs = Ok inst' →
  instances_declared inst'.
Proof.
  intros Hwf. unfold instantiate_item.
  destruct (find_decl inst name) as [decl|] eqn:Hdecl; [|done].
  destruct (is_port decl) eqn:Hport.
  - intros (i & Hi & [= <-])%bind_Ok. intros other j Hj. apply (Hwf other j Hj).
  - case_bool_decide as Hnone.
    + intros (i & Hi & [= <-])%bind_Ok.
      destruct (new_instance_spec _ _ _ Hi) as (Hn & Hr & _ & Hinst).
      intros other j. cbn. destruct (decide (name = other)) as [<-|Hne].
      * rewrite lookup_insert_eq. intros [= <-]. exists decl. done.
      * rewrite lookup_insert_ne by done. apply (Hwf other j).
    + destruct decl as [p|c]; [done|]. by intros [= <-].
Qed.

(** X3. Instantiating an item and looking it up: after a call of
    [instantiate_item] that succeeds, [find_instance] finds an instance of
    the item, which carries the name and the kind of its declaration; the
    other names are looked up as before, and the instance keeps its
    instances made from its declarations. *)
Theorem instantiate_then_find inst name attrs inst' :
  instances_declared inst →
  instantiate_item inst name attrs = Ok inst' →
  instances_declared inst'
  ∧ (∃ decl i, find_decl inst name = Some decl ∧ find_instance inst' name = inl i
               ∧ Item.name i = Item.name decl ∧ is_register i = is_register decl
               ∧ is_instance i = true)
  ∧ (∀ other, other ≠ name → find_instance inst' other = find_instance inst other).
Proof.
  intros Hwf. unfold instantiate_item.
  destruct (find_decl inst name) as [decl|] eqn:Hdecl; [|done].
  destruct (is_port decl) eqn:Hport.
  - (* a port: the instance is stored, also over an earlier one *)
    intros (i & Hi & [= <-])%bind_Ok.
    destruct (new_instance_spec _ _ _ Hi) as (Hn & Hr & _ & Hinst).
    assert (_internal_instances inst !! name = None) as Hnone.
    { destruct (_internal_instances inst !! name) as [j|] eqn:Hj; [|done].
      destruct (Hwf _ _ Hj) as (decl' & Hd' & Hp' & _). congruence. }
    split_and!.
    + intros other j Hj. apply (Hwf other j Hj).
    + exists decl, i. unfold find_instance. cbn. rewrite Hnone, lookup_insert_eq. done.
    + intros other Hne. unfold find_instance, find_decl. cbn.
      by rewrite lookup_insert_ne.
  - case_bool_decide as Hnone.
    + (* an internal item instantiated for the first time *)
      intros (i & Hi & [= <-])%bind_Ok.
      destruct (new_instance_spec _ _ _ Hi) as (Hn & Hr & _ & Hinst).
      split_and!.
      * intros other j. cbn. destruct (decide (name = other)) as [<-|Hne].
        -- rewrite lookup_insert_eq. intros [= <-]. exists decl. done.
        -- rewrite lookup_insert_ne by done. apply (Hwf other j).
      * exists decl, i. unfold find_instance. cbn. by rewrite lookup_insert_eq.
      * intros other Hne. unfold find_instance, find_decl. cbn.
        by rewrite lookup_insert_ne.
    + (* instantiated before: an array is left as it is *)
      destruct decl as [p|c]; [done|]. intros [= <-].
      destruct (_internal_instances inst !! name) as [j|] eqn:Hj; [|done].
      destruct (Hwf _ _ Hj) as (decl' & Hd' & _ & Hn & Hr & Hinst).
      rewrite Hdecl in Hd'. injection Hd' as <-.
      split_and!; [done| |done].
      exists (Compound c), j. unfold find_instance. by rewrite Hj.
Qed.

Lemma instantiate_then_find_witness :
  ∃ inst' i,
    instantiate_item (ModuleInstance_init example_declaration) "w" {["offset" := 8%Z]}
    = Ok inst'
    ∧ find_instance inst' "w" = inl i ∧ Item.name i = "w" ∧ is_instance i = true.
Proof.
  destruct (instantiate_item (ModuleInstance_init example_declaration) "w"
              {["offset" := 8%Z]}) as [inst'|e] eqn:H; [|by vm_compute in H].
  destruct (instantiate_then_find _ _ _ _ (instances_declared_init _) H)
    as (_ & (decl & i & Hd & Hf & Hn & _ & Hi) & _).
  exists inst', i. split; [done|]. split; [exact Hf|].
  split; [|exact Hi]. rewrite Hn. vm_compute in Hd. by injection Hd as <-.
Defined.

(** X4. Instantiating an item a second time: a port is instantiated anew
    and carries the new attributes, an internal primitive item raises
    [ValueError], and an array is left as it is, whatever the attributes
    of the second call. *)
Theorem instantiate_twice inst name attrs1 attrs2 inst1 :
  instances_declared inst →
  instantiate_item inst name attrs1 = Ok inst1 →
  match find_decl inst name with
  | Some (Primitive p) =>
    if bool_decide (p_direction p ≠ None) then
      ∃ inst2, instantiate_item inst1 name attrs2 = Ok inst2
               ∧ find_instance inst2 name
                 = inl (Primitive {| p_name := p_name p; p_width := p_width p;
                                     p_is_reg := p_is_reg p;
                                     p_direction := p_direction p;
                                     p_inst_attrs := Some attrs2 |})
    else instantiate_item inst1 name attrs2
         = Raise (ValueError "duplicate instantiation")
  | Some (Compound _) => instantiate_item inst1 name attrs2 = Ok inst1
  | None => False
  end.
Proof.
  intros Hwf H1.
  pose proof (instantiate_item_declared _ _ _ _ Hwf H1) as Hwf1.
  assert (_declaration inst1 = _declaration inst) as Hd.
  { unfold instantiate_item in H1. destruct (find_decl inst name) as [d|]; [|done].
    destruct (is_port d); [by apply bind_Ok in H1 as (? & _ & [= <-])|].
    case_bool_decide; [by apply bind_Ok in H1 as (? & _ & [= <-])|].
    destruct d; [done | by injection H1 as <-]. }
  assert (∀ n, find_decl inst1 n = find_decl inst n) as Hfd
    by (intros n; unfold find_decl; by rewrite Hd).
  assert (∀ d, find_decl inst name = Some d → is_port d = false →
               _internal_instances inst1 !! name ≠ None) as Hstored.
  { intros d Hdecl Hp. unfold instantiate_item in H1. rewrite Hdecl, Hp in H1.
    case_bool_decide as Hnone.
    - apply bind_Ok in H1 as (i & _ & [= <-]). cbn. by rewrite lookup_insert_eq.
    - destruct d; [done|]. by injection H1 as <-. }
  destruct (find_decl inst name) as [[p|c]|] eqn:Hdecl.
  - case_bool_decide as Hp.
    + assert (_internal_instances inst1 !! name = None) as Hnone.
      { destruct (_internal_instances inst1 !! name) as [j|] eqn:Hj; [|done].
        destruct (Hwf1 _ _ Hj) as (d' & Hd' & Hp' & _).
        rewrite Hfd, Hdecl in Hd'. injection Hd' as <-. cbn in Hp'.
        by rewrite bool_decide_eq_true_2 in Hp'. }
      unfold instantiate_item. rewrite Hfd, Hdecl. cbn.
      rewrite (bool_decide_eq_true_2 _ Hp). cbn.
      eexists. split; [done|]. unfold find_instance. cbn.
      by rewrite Hnone, lookup_insert_eq.
    + unfold instantiate_item. rewrite Hfd, Hdecl. cbn.
      assert (¬ p_direction p ≠ None) as Hp' by (intros H; by apply H).
      rewrite (bool_decide_eq_false_2 _ Hp').
      rewrite bool_decide_eq_false_2; [done|].
      apply (Hstored _ eq_refl). cbn. by rewrite (bool_decide_eq_false_2 _ Hp').
  - unfold instantiate_item. rewrite Hfd, Hdecl. cbn.
    rewrite bool_decide_eq_false_2; [done|]. by apply (Hstored _ eq_refl).
  - unfold instantiate_item in H1. by rewrite Hdecl in H1.
Qed.

Lemma instantiate_twice_witness :
  ∃ inst1,
    instantiate_item (ModuleInstance_init example_declaration) "w" ∅ = Ok inst1
    ∧ instantiate_item inst1 "w" {["offset" := 8%Z]}
      = Raise (ValueError "duplicate instantiation").
Proof.
  destruct (instantiate_item (ModuleInstance_init example_declaration) "w" ∅)
    as [inst1|e] eqn:H; [|by vm_compute in H].
  exists inst1. split; [done|].
  exact (instantiate_twice (ModuleInstance_init example_declaration) "w" ∅
           {["offset" := 8%Z]} inst1 (instances_declared_init _) H).
Defined.

(** *** The model a successful load returns *)

Lemma load_modules_no_memories regs ms st st' :
  foldM (load_module regs) ms st = Ok st' → no_memories ms.
Proof.
  unfold no_memories. revert st. induction ms as [|[n d] ms IH]; intros [design nt].
  - constructor.
  - cbn [foldM]. intros ([design1 nt1] & H1 & H)%bind_Ok.
    apply load_module_Ok in H1 as (Hm & _). constructor; [done|]. by eapply IH.
Qed.

(** X5. Whenever [parse_verilog] returns, no module of the unit holds
    memories, the dictionary returned holds exactly the modules of the unit,
    each under its own name, and the declaration returned is that of the
    one module that no cell (not hidden) instantiates. *)
Theorem parse_verilog_success regs ms top design :
  parse_verilog regs ms = Ok (top, design) →
  no_memories ms
  ∧ dom design = module_names ms
  ∧ (∀ m d, design !! m = Some d → _name d = m)
  ∧ ∃ d, top = Some d ∧ design !! _name d = Some d
         ∧ top_candidates ms = {[_name d]}.
Proof.
  unfold parse_verilog. intros ([design' nt] & Hload & H)%bind_Ok.
  case_bool_decide as Hsize; [done|].
  destruct (elements _) as [|t ts] eqn:Hel; [done|]. injection H as <- <-.
  pose proof (load_modules_no_memories _ _ _ _ Hload) as Hmem.
  apply load_modules_inv in Hload as (Hdom & Hnt & _ & Hname).
  assert (dom design' ∖ nt = top_candidates ms) as Htop.
  { rewrite Hdom, Hnt, dom_empty_L. unfold top_candidates. set_solver. }
  assert (∀ m d, design' !! m = Some d → _name d = m) as Hnames.
  { apply Hname. intros m d Hm. by rewrite lookup_empty in Hm. }
  rewrite Htop in Hsize, Hel.
  assert (size (top_candidates ms) = 1) as Hone by (by destruct (decide (size (top_candidates ms) = 1))).
  apply size_1_elem_of in Hone as [x Hx]. apply leibniz_equiv in Hx.
  rewrite Hx, elements_singleton in Hel. injection Hel as <- <-.
  split; [done|]. split; [by rewrite Hdom, dom_empty_L, (left_id_L ∅ (∪))|].
  split; [done|].
  assert (x ∈ dom design') as [d Hd]%elem_of_dom.
  { assert (x ∈ top_candidates ms) as Hin by (rewrite Hx; set_solver).
    rewrite <-Htop in Hin. set_solver. }
  exists d. rewrite (Hnames _ _ Hd). by rewrite Hd, Hx.
Qed.

Lemma parse_verilog_success_witness :
  ∃ d design,
    parse_verilog ∅ unit_two_modules = Ok (Some d, design)
    ∧ dom design = module_names unit_two_modules
    ∧ top_candidates unit_two_modules = {[_name d]}.
Proof.
  destruct (parse_verilog ∅ unit_two_modules) as [[top design]|e] eqn:H;
    [|by vm_compute in H].
  destruct (parse_verilog_success _ _ _ _ H) as (_ & Hdom & _ & d & -> & _ & Htop).
  exists d, design. split; [done|]. split; [exact Hdom | exact Htop].
Defined.

(** *** The internal items of a module *)

Lemma foldM_invariant {A S} (f : S → A → result S) (P : S → Prop) l s s' :
  P s → (∀ s a s', a ∈ l → P s → f s a = Ok s' → P s') →
  foldM f l s = Ok s' → P s'.
Proof.
  revert s. induction l as [|a l IH]; intros s Hs Hstep; cbn [foldM].
  - by intros [= <-].
  - intros (s1 & H1 & H)%bind_Ok. apply (IH s1); [|by intros; eapply Hstep; [right|..]|done].
    eapply Hstep; [by left|done..].
Qed.

(** X6. The internal items [parse_verilog] builds for a module: each is a
    register exactly when the scan lists its name, none is a port or an
    instance; a primitive item comes from a net that is not hidden, is no
    port and does not match the array pattern; an array has at least one
    element, and each of its indices comes from such a net [name[index]]
    of the element width. *)
Theorem build_internals_spec mn regs d items :
  build_internals mn regs d = Ok items →
  ∀ item, item ∈ items →
    is_register item = bool_decide (Item.name item ∈ regs)
    ∧ is_port item = false ∧ is_instance item = false
    ∧ match item with
      | Primitive p =>
        (p_name p ∉ (ports d).*1) ∧ ARRAY_ELEMENT_match (p_name p) = None
        ∧ ∃ nd, (p_name p, nd) ∈ netnames d ∧ not_hidden_net nd = true
                ∧ p_width p = Z.of_nat (length (net_bits nd))
      | Compound c =>
        c_element_indices c ≠ ∅
        ∧ ∀ idx, idx ∈ c_element_indices c →
            ∃ net nd, (net, nd) ∈ netnames d ∧ not_hidden_net nd = true
                      ∧ (net ∉ (ports d).*1)
                      ∧ ARRAY_ELEMENT_match net = Some (c_name c, idx)
                      ∧ c_element_width c = Z.of_nat (length (net_bits nd))
      end.
Proof.
  set (Good := λ item : ModuleItem,
    is_register item = bool_decide (Item.name item ∈ regs)
    ∧ is_port item = false ∧ is_instance item = false
    ∧ match item with
      | Primitive p =>
        (p_name p ∉ (ports d).*1) ∧ ARRAY_ELEMENT_match (p_name p) = None
        ∧ ∃ nd, (p_name p, nd) ∈ netnames d ∧ not_hidden_net nd = true
                ∧ p_width p = Z.of_nat (length (net_bits nd))
      | Compound c =>
        c_element_indices c ≠ ∅
        ∧ ∀ idx, idx ∈ c_element_indices c →
            ∃ net nd, (net, nd) ∈ netnames d ∧ not_hidden_net nd = true
                      ∧ (net ∉ (ports d).*1)
                      ∧ ARRAY_ELEMENT_match net = Some (c_name c, idx)
                      ∧ c_element_width c = Z.of_nat (length (net_bits nd))
      end).
  set (Inv := λ st : list PrimitiveItem * gmap string ModuleItem,
    (∀ p, p ∈ st.1 → Good (Primitive p))
    ∧ (∀ k it, st.2 !! k = Some it → Good it ∧ Item.name it = k)).
  unfold build_internals. intros ([prims compounds] & Hfold & [= <-])%bind_Ok.
  assert (Inv (prims, compounds)) as [Hprims Hcomp].
  { revert Hfold. apply foldM_invariant.
    { split; cbn; [by intros p Hp%elem_of_nil | intros k it H; by rewrite lookup_empty in H]. }
    clear prims compounds. intros [prims compounds] [net nd] st' Hnet [Hprims Hcomp].
    cbn [fst snd] in Hprims, Hcomp. unfold net_step.
    destruct (not_hidden_net nd) eqn:Hhid; cbn [andb]; [|by intros [= <-]].
    case_bool_decide as Hport; cbn [negb]; [by intros [= <-]|].
    destruct (ARRAY_ELEMENT_match net) as [[arr idx]|] eqn:Harr.
    - destruct (register_element _ _ _ _ _ _) as [[c|e] store] eqn:Hreg; [|done].
      intros [= <-]. split; [done|]. cbn [snd].
      apply register_element_Ok in Hreg as (-> & Hr & Hw & Hcase).
      intros k it. destruct (decide (arr = k)) as [<-|Hne];
        [|rewrite lookup_insert_ne by done; apply Hcomp].
      rewrite lookup_insert_eq. intros [= <-].
      destruct Hcase as [[Hnone ->]|(c0 & Hc0 & Hfresh & ->)].
      + split; [|done]. unfold Good. cbn. split_and!; try done.
        intros ? ->%elem_of_singleton. by exists net, nd.
      + destruct (Hcomp _ _ Hc0) as ((Hreg0 & _ & Hinst & _ & Hidx) & Hk).
        cbn in Hreg0, Hinst, Hidx, Hk, Hr, Hw. split; [|done].
        unfold Good. cbn. split_and!; try done.
        * set_solver.
        * intros i [->%elem_of_singleton|Hi]%elem_of_union.
          -- exists net, nd. by rewrite Hk.
          -- by apply Hidx.
    - intros [= <-]. split; [|done]. cbn [fst].
      intros p [Hp|Hp%list_elem_of_singleton]%elem_of_app; [by apply Hprims|]. subst p.
      unfold Good. cbn. split_and!; try done. by exists nd. }
  cbn [fst snd] in Hprims, Hcomp.
  intros item [Hp|Hit]%elem_of_app.
  - change (item ∈ Primitive <$> prims) in Hp.
    apply list_elem_of_fmap in Hp as (p & -> & Hp). by apply Hprims.
  - apply list_elem_of_fmap in Hit as ([k it] & -> & Hin).
    apply elem_of_map_to_list in Hin. by destruct (Hcomp _ _ Hin).
Qed.

Lemma build_internals_spec_witness :
  ∃ items, build_internals "top" {["state"]} example_details = Ok items
    ∧ ∀ item, item ∈ items →
        is_register item = bool_decide (Item.name item ∈ ({["state"]} : gset string))
        ∧ is_port item = false.
Proof.
  destruct (build_internals "top" {["state"]} example_details) as [items|e] eqn:H;
    [|by vm_compute in H].
  exists items. split; [done|]. intros item Hin.
  destruct (build_internals_spec _ _ _ _ H item Hin) as (Hr & Hp & _).
  split; [exact Hr | exact Hp].
Defined.

End decl_extras.

Section coverage_extras.
Import Heuristics.

Lemma length_slice {A} (l : list A) i j :
  i ≤ j → j ≤ length l → length (slice l i j) = j - i.
Proof. intros. unfold slice. rewrite length_take, length_drop. lia. Qed.

Lemma length_weave cov lo rs :
  batch_from lo rs → Forall (λ r, end_byte r ≤ length cov) rs → lo ≤ length cov →
  length (weave cov lo rs) = length cov - lo.
Proof.
  revert lo. induction rs as [|r rs IH]; intros lo; cbn [batch_from weave].
  - intros _ _ Hlo. by rewrite slice_to_end, length_drop.
  - intros (H1 & H2 & H3) [Hr Hrs]%Forall_cons Hlo.
    rewrite !length_app, length_replicate, (IH _ H3 Hrs Hr).
    rewrite length_slice by lia. lia.
Qed.

Lemma count_false_covered l s e :
  (∀ i, s ≤ i < e → i < length l → l !! i = Some true) →
  count_false (slice l s e) = 0.
Proof.
  intros H. unfold count_false.
  assert (Forall (λ b, b = true) (slice l s e)) as Hall.
  { apply Forall_lookup. intros i b. unfold slice.
    intros Hi. pose proof (lookup_lt_Some _ _ _ Hi) as Hlt.
    rewrite length_take, length_drop in Hlt.
    rewrite lookup_take_lt, lookup_drop in Hi by lia.
    rewrite H in Hi by lia. congruence. }
  induction Hall as [|b bs -> _ IH]; [done|]. cbn. exact IH.
Qed.

(** The array after an update within its bounds. *)
Lemma weave_within cov rs :
  sorted_batch rs → Forall (λ r, end_byte r ≤ length cov) rs →
  length (weave cov 0 rs) = length cov
  ∧ ∀ i b, cov !! i = Some b → weave cov 0 rs !! i = Some (b || in_ranges rs i).
Proof.
  intros Hrs Hin. split.
  - rewrite length_weave by (done || lia). lia.
  - intros i b Hi. pose proof (weave_lookup cov 0 rs i b Hrs) as H.
    rewrite Nat.sub_0_r in H. apply H; [lia | done].
Qed.

(** X7. [update] with a sorted batch of ranges that lie within the array
    keeps the length of the array; a byte is covered afterwards exactly
    when it was covered or lies in a range of the batch; and a second
    update with the same batch changes nothing. *)
Theorem update_within cov rs :
  sorted_batch rs → Forall (λ r, end_byte r ≤ length cov) rs →
  let cov' := (update cov rs).1 in
  length cov' = length cov
  ∧ (∀ i b, cov !! i = Some b → cov' !! i = Some (b || in_ranges rs i))
  ∧ (update cov' rs).1 = cov'.
Proof.
  intros Hrs Hin. cbn [update fst]. rewrite !updated_weave.
  destruct (weave_within cov rs Hrs Hin) as [Hlen Hlook].
  split; [done|]. split; [done|].
  assert (Forall (λ r, end_byte r ≤ length (weave cov 0 rs)) rs) as Hin'
    by (by rewrite Hlen).
  apply list_eq. intros i.
  destruct (cov !! i) as [b|] eqn:Hi.
  - pose proof (weave_lookup (weave cov 0 rs) 0 rs i _ Hrs (Nat.le_0_l _) (Hlook _ _ Hi)) as H.
    rewrite Nat.sub_0_r in H. rewrite H, (Hlook _ _ Hi). by destruct b, (in_ranges rs i).
  - apply lookup_ge_None in Hi.
    rewrite !(proj2 (lookup_ge_None _ _)); [done|by rewrite Hlen|].
    rewrite length_weave by (done || lia). lia.
Qed.

Lemma update_within_witness :
  let cov := [true; false; false; true; false] in
  let rs := [{| start_byte := 1; end_byte := 2; substitute := [] |};
             {| start_byte := 3; end_byte := 5; substitute := [] |}] in
  let cov' := (update cov rs).1 in
  length cov' = length cov
  ∧ (∀ i b, cov !! i = Some b → cov' !! i = Some (b || in_ranges rs i))
  ∧ (update cov' rs).1 = cov'.
Proof.
  intros cov rs. apply (update_within cov rs).
  - unfold sorted_batch, rs. cbn. lia.
  - unfold rs, cov. repeat constructor.
Defined.

(** X8. After an update with a sorted batch of ranges within the array, no
    byte of a range is left to cover: [query] with the same batch is the
    growth of the text (the bytes the substitutes add to their ranges)
    times the number of covered bytes. *)
Theorem query_after_update cov rs :
  sorted_batch rs → Forall (λ r, end_byte r ≤ length cov) rs →
  query (update cov rs).1 rs
  = (foldr Z.add 0
       (map (λ r, Z.of_nat (length (substitute r))
                  - (Z.of_nat (end_byte r) - Z.of_nat (start_byte r))) rs)
     * Z.of_nat (count_true (update cov rs).1))%Z.
Proof.
  intros Hrs Hin. cbn [update fst]. rewrite updated_weave.
  destruct (weave_within cov rs Hrs Hin) as [Hlen Hlook].
  unfold query. f_equal. f_equal. apply map_ext_in. intros r Hr%list_elem_of_In.
  rewrite count_false_covered; [lia|].
  intros i Hi Hlt. rewrite Hlen in Hlt.
  destruct (lookup_lt_is_Some_2 cov i Hlt) as [b Hb].
  rewrite (Hlook _ _ Hb). f_equal. apply orb_true_iff. right.
  apply existsb_exists. exists r. split; [by apply list_elem_of_In|].
  apply andb_true_iff. split; [apply Nat.leb_le | apply Nat.ltb_lt]; lia.
Qed.

Lemma query_after_update_witness :
  let cov := [true; false; false; true; false] in
  let rs := [{| start_byte := 1; end_byte := 2; substitute := ["a"; "b"; "c"]%char |};
             {| start_byte := 3; end_byte := 5; substitute := [] |}] in
  query cov rs = 4%Z ∧ query (update cov rs).1 rs = 0%Z.
Proof.
  intros cov rs. split; [reflexivity|].
  rewrite (query_after_update cov rs).
  - reflexivity.
  - unfold sorted_batch, rs. cbn. lia.
  - unfold rs, cov. repeat constructor.
Defined.

End coverage_extras.

Section editor_extras.
Import Heuristics.

Lemma new_data_splice_from data lo rs :
  concat (zip_longest_chain []
            (map (λ '(i, j), slice data i j)
                 (zip (lo :: map end_byte rs) (map start_byte rs ++ [length data])))
            (map substitute rs))
  = splice data lo rs.
Proof.
  revert lo. induction rs as [|r rs IH]; intros lo.
  - cbn. by rewrite !(right_id_L [] (++)).
  - cbn [splice]. by rewrite <-IH.
Qed.

Lemma new_data_splice data rs : new_data data rs = splice data 0 rs.
Proof. apply new_data_splice_from. Qed.

Lemma length_splice data lo rs :
  batch_from lo rs → Forall (λ r, end_byte r ≤ length data) rs → lo ≤ length data →
  Z.of_nat (length (splice data lo rs))
  = (Z.of_nat (length data) - Z.of_nat lo + growth rs)%Z.
Proof.
  revert lo. induction rs as [|r rs IH]; intros lo; cbn [batch_from splice].
  - intros _ _ Hlo. rewrite slice_to_end, length_drop. unfold growth. cbn. lia.
  - intros (H1 & H2 & H3) [Hr Hrs]%Forall_cons Hlo.
    rewrite !length_app, !Nat2Z.inj_add, (IH _ H3 Hrs Hr).
    rewrite length_slice by lia. unfold growth. cbn [map foldr]. lia.
Qed.

(** The data before the first range and after the last one are kept. *)
Lemma splice_suffix data lo r rs :
  ∃ mid, splice data lo (r :: rs)
         = slice data lo (start_byte r) ++ mid
           ++ drop (end_byte (default r (last rs))) data.
Proof.
  revert lo r. induction rs as [|s rs IH]; intros lo r.
  - cbn [splice last default]. rewrite slice_to_end. by exists (substitute r).
  - destruct (IH (end_byte r) s) as [mid Hmid].
    cbn [splice] in *. rewrite Hmid.
    exists (substitute r ++ slice data (end_byte r) (start_byte s) ++ mid).
    rewrite <-!app_assoc. do 4 f_equal.
    change (last (s :: rs)) with (match rs with [] => Some s | _ => last rs end).
    destruct rs as [|t rs]; [done|]. cbn [last default].
    destruct (last (t :: rs)) eqn:E; [done|]. by apply last_None in E.
Qed.

Lemma key_le_total r s : key_le r s = false → key_le s r = true.
Proof.
  unfold key_le. intros [H1 H2]%orb_false_iff. apply Nat.ltb_ge in H1.
  apply orb_true_iff.
  destruct (decide (start_byte s < start_byte r)) as [Hlt|Hge];
    [left; by apply Nat.ltb_lt|right].
  assert (start_byte r = start_byte s) as Heq by lia.
  rewrite Heq, Nat.eqb_refl in H2 |- *. cbn in *.
  apply Nat.leb_gt in H2. apply Nat.leb_le. lia.
Qed.

Lemma key_le_spec r s :
  key_le r s = true ↔
  start_byte r < start_byte s
  ∨ (start_byte r = start_byte s ∧ end_byte r ≤ end_byte s).
Proof.
  unfold key_le.
  rewrite orb_true_iff, andb_true_iff, Nat.ltb_lt, Nat.eqb_eq, Nat.leb_le. tauto.
Qed.

Lemma key_le_trans r s t : key_le r s = true → key_le s t = true → key_le r t = true.
Proof. rewrite !key_le_spec. lia. Qed.

Lemma insert_by_key_perm r l : insert_by_key r l ≡ₚ r :: l.
Proof.
  induction l as [|s l IH]; cbn; [done|].
  destruct (key_le r s); [done|]. rewrite IH. apply perm_swap.
Qed.

Lemma sorted_by_key_perm l : sorted_by_key l ≡ₚ l.
Proof.
  induction l as [|r l IH]; cbn; [done|].
  by rewrite insert_by_key_perm, IH.
Qed.

Lemma insert_by_key_sorted r l :
  StronglySorted (λ a b, key_le a b = true) l →
  StronglySorted (λ a b, key_le a b = true) (insert_by_key r l).
Proof.
  induction 1 as [|s l Hl IH Hs]; cbn.
  - repeat constructor.
  - destruct (key_le r s) eqn:Hrs.
    + constructor; [by constructor|]. constructor; [done|].
      eapply Forall_impl; [exact Hs|]. intros t Ht. by eapply key_le_trans.
    + constructor; [done|]. rewrite insert_by_key_perm.
      constructor; [by apply key_le_total | done].
Qed.

Lemma sorted_by_key_sorted l :
  StronglySorted (λ a b, key_le a b = true) (sorted_by_key l).
Proof.
  induction l as [|r l IH]; cbn; [constructor|]. by apply insert_by_key_sorted.
Qed.

(** In a list sorted by key whose neighbours pass the assertion, every
    range ends before each later one starts. *)
Lemma pairwise_assert_all l i j r s :
  StronglySorted (λ a b, key_le a b = true) l → pairwise_assert l = Ok tt →
  i < j → l !! i = Some r → l !! j = Some s →
  end_byte r ≤ start_byte s.
Proof.
  intros Hl. revert i j. induction Hl as [|a l Hl IH Ha]; intros i j Hok Hij Hi Hj; [done|].
  destruct j as [|j]; [lia|]. cbn in Hj.
  cbn [pairwise_assert] in Hok. destruct l as [|b l]; [done|].
  destruct (end_byte a <=? start_byte b) eqn:Hab; [|done]. apply Nat.leb_le in Hab.
  destruct i as [|i].
  - injection Hi as ->.
    destruct j as [|j]; [cbn in Hj; by injection Hj as ->|].
    apply StronglySorted_inv in Hl as [_ Hb].
    rewrite Forall_lookup in Hb. cbn in Hj.
    specialize (Hb _ _ Hj). apply key_le_spec in Hb. lia.
  - cbn in Hi. apply (IH i j); [done|lia|done..].
Qed.

Lemma pairwise_assert_batch l lo :
  StronglySorted (λ a b, key_le a b = true) l → pairwise_assert l = Ok tt →
  Forall (λ r, start_byte r ≤ end_byte r) l →
  (∀ r, head l = Some r → lo ≤ start_byte r) →
  batch_from lo l.
Proof.
  intros Hl. revert lo. induction Hl as [|a l Hl IH Ha]; intros lo Hok Hwf Hlo; [done|].
  apply Forall_cons in Hwf as [Hwa Hwf]. cbn [batch_from].
  split; [by apply Hlo|]. split; [done|].
  cbn [pairwise_assert] in Hok. destruct l as [|b l]; [done|].
  destruct (end_byte a <=? start_byte b) eqn:Hab; [|done]. apply Nat.leb_le in Hab.
  apply IH; [done..|]. by intros ? [= <-].
Qed.

Lemma sorted_lookup {A} (R : A → A → Prop) l i j x y :
  StronglySorted R l → i < j → l !! i = Some x → l !! j = Some y → R x y.
Proof.
  intros Hl. revert i j. induction Hl as [|a l Hl IH Ha]; intros i j Hij Hi Hj; [done|].
  destruct j as [|j]; [lia|]. cbn in Hj. destruct i as [|i].
  - injection Hi as ->. rewrite Forall_lookup in Ha. by eapply Ha.
  - cbn in Hi. apply (IH i j); [lia|done..].
Qed.

Lemma pairwise_assert_cases l :
  pairwise_assert l = Ok tt ∨ pairwise_assert l = Raise AssertionError.
Proof.
  induction l as [|r [|s l] IH]; cbn [pairwise_assert]; [by left..|].
  destruct (end_byte r <=? start_byte s); [done | by right].
Qed.

Lemma BytesEditor_init_Ok data rs ed :
  BytesEditor_init data rs = Ok ed →
  pairwise_assert (sorted_by_key rs) = Ok tt
  ∧ ∃ r0 rn, head (sorted_by_key rs) = Some r0 ∧ last (sorted_by_key rs) = Some rn
      ∧ ed = {| ed_data := data; ed_replacements := sorted_by_key rs;
                ed_start_byte := start_byte r0;
                ed_end_byte := Z.of_nat (end_byte rn) |}.
Proof.
  unfold BytesEditor_init. intros ([] & Hok & H)%bind_Ok. split; [done|].
  destruct (head _) as [r0|]; [|done]. destruct (last _) as [rn|]; [|done].
  injection H as <-. by exists r0, rn.
Qed.

(** X9. An editor that [BytesEditor] builds holds the replacements given,
    sorted by [(start_byte, end_byte)], and every one of them ends before
    each later one starts (not only its neighbour); its bounds are the
    start of the first and the end of the last. *)
Theorem BytesEditor_init_sorted data rs ed :
  BytesEditor_init data rs = Ok ed →
  ed_data ed = data
  ∧ ed_replacements ed ≡ₚ rs
  ∧ (∀ i j r s, i < j →
       ed_replacements ed !! i = Some r → ed_replacements ed !! j = Some s →
       key_le r s = true ∧ end_byte r ≤ start_byte s)
  ∧ ∃ r0 rn, head (ed_replacements ed) = Some r0
             ∧ last (ed_replacements ed) = Some rn
             ∧ ed_start_byte ed = start_byte r0
             ∧ ed_end_byte ed = Z.of_nat (end_byte rn).
Proof.
  intros (Hok & r0 & rn & Hh & Hl & ->)%BytesEditor_init_Ok. cbn.
  split; [done|]. split; [apply sorted_by_key_perm|]. split; [|by exists r0, rn].
  intros i j r s Hij Hi Hj. split.
  - pose proof (sorted_by_key_sorted rs) as Hs.
    by apply (sorted_lookup _ _ i j r s Hs).
  - by eapply pairwise_assert_all; [apply sorted_by_key_sorted|..].
Qed.

Lemma BytesEditor_init_sorted_witness :
  ∃ ed, BytesEditor_init ["a"; "b"; "c"; "d"]%char
          [{| start_byte := 2; end_byte := 3; substitute := [] |};
           {| start_byte := 0; end_byte := 1; substitute := ["x"; "y"]%char |}]
        = Ok ed
    ∧ ed_replacements ed
      ≡ₚ [{| start_byte := 2; end_byte := 3; substitute := [] |};
          {| start_byte := 0; end_byte := 1; substitute := ["x"; "y"]%char |}].
Proof.
  eexists. split; [reflexivity|].
  eapply (BytesEditor_init_sorted ["a"; "b"; "c"; "d"]%char). reflexivity.
Defined.

Lemma perm_lookup_pair {A} (l1 l2 : list A) i j x y :
  l1 ≡ₚ l2 → i ≠ j → l1 !! i = Some x → l1 !! j = Some y →
  ∃ i' j', i' ≠ j' ∧ l2 !! i' = Some x ∧ l2 !! j' = Some y.
Proof.
  intros (_ & f & Hf & Hl)%Permutation_inj Hij Hi Hj.
  exists (f i), (f j). split; [by intros ?%Hf|]. by rewrite <-!Hl.
Qed.

Lemma pairwise_assert_fails l :
  pairwise_assert l = Raise AssertionError →
  ∃ k r s, l !! k = Some r ∧ l !! S k = Some s ∧ start_byte s < end_byte r.
Proof.
  induction l as [|r [|s l] IH]; cbn [pairwise_assert]; [done..|].
  destruct (end_byte r <=? start_byte s) eqn:Hrs.
  - intros (k & a & b & Ha & Hb & Hab)%IH. by exists (S k), a, b.
  - intros _. apply Nat.leb_gt in Hrs. by exists 0, r, s.
Qed.

(** X10. [BytesEditor] raises [IndexError] exactly for an empty batch of
    replacements, and [AssertionError] exactly when two replacements of
    the batch overlap: one of them, the first by [(start_byte, end_byte)],
    ends after the other one starts. *)
Theorem BytesEditor_init_errors data rs :
  (BytesEditor_init data rs = Raise IndexError ↔ rs = [])
  ∧ (BytesEditor_init data rs = Raise AssertionError ↔
     ∃ i j r s, i ≠ j ∧ rs !! i = Some r ∧ rs !! j = Some s
                ∧ key_le r s = true ∧ start_byte s < end_byte r).
Proof.
  pose proof (sorted_by_key_perm rs) as Hperm.
  pose proof (sorted_by_key_sorted rs) as Hsorted.
  assert (pairwise_assert (sorted_by_key rs) = Raise AssertionError ↔
          BytesEditor_init data rs = Raise AssertionError) as Hassert.
  { unfold BytesEditor_init.
    destruct (pairwise_assert_cases (sorted_by_key rs)) as [-> | ->]; [|done].
    cbn. split; [done|]. destruct (head _); [destruct (last _)|]; done. }
  split.
  - unfold BytesEditor_init.
    destruct (pairwise_assert_cases (sorted_by_key rs)) as [H | H]; rewrite H; cbn.
    + clear H. destruct (sorted_by_key rs) as [|r0 l] eqn:E.
      * cbn. split; [|done]. intros _. apply Permutation_nil_l in Hperm. done.
      * destruct (last (r0 :: l)) eqn:El; [|by apply last_None in El].
        cbn. split; [done|]. intros ->. by apply Permutation_nil_r in Hperm.
    + split; [done|]. intros ->. done.
  - rewrite <-Hassert. clear Hassert. split.
    + intros (k & r & s & Hr & Hs & Hlt)%pairwise_assert_fails.
      destruct (perm_lookup_pair _ _ k (S k) r s Hperm) as (i & j & Hij & Hi & Hj);
        [lia|done..|].
      exists i, j, r, s. split_and!; try done.
      by apply (sorted_lookup _ _ k (S k) r s Hsorted); [lia|..].
    + intros (i & j & r & s & Hij & Hi & Hj & Hle & Hlt).
      symmetry in Hperm.
      destruct (perm_lookup_pair _ _ i j r s Hperm Hij Hi Hj) as (i' & j' & Hij' & Hi' & Hj').
      destruct (pairwise_assert_cases (sorted_by_key rs)) as [Hok|Hfail]; [|done].
      exfalso. apply key_le_spec in Hle.
      destruct (decide (i' < j')) as [Hlt'|Hge].
      * pose proof (pairwise_assert_all _ i' j' r s Hsorted Hok Hlt' Hi' Hj'). lia.
      * assert (j' < i') as Hlt' by lia.
        pose proof (pairwise_assert_all _ j' i' s r Hsorted Hok Hlt' Hj' Hi').
        pose proof (sorted_lookup _ _ j' i' s r Hsorted Hlt' Hj' Hi') as Hsr.
        apply key_le_spec in Hsr. lia.
Qed.

Lemma growth_perm rs rs' : rs ≡ₚ rs' → growth rs = growth rs'.
Proof.
  unfold growth. induction 1 as [|r rs rs' _ IH|r s rs|rs1 rs2 rs3 _ IH1 _ IH2];
    cbn [map foldr]; [done|by rewrite IH|lia|congruence].
Qed.

Lemma Forall_perm {A} (P : A → Prop) l l' : l ≡ₚ l' → Forall P l' → Forall P l.
Proof. intros H. by rewrite H. Qed.

(** X11. [apply] on an editor built for replacements that lie within the
    data: the data keeps the bytes before the first replacement and the
    bytes after the last one, and [end_byte] moves to the end of the edited
    region; the length changes by the growth of the batch; the batch is
    cleared, so a second [apply] changes nothing. *)
Theorem apply_spec data rs ed :
  BytesEditor_init data rs = Ok ed →
  Forall (λ r, start_byte r ≤ end_byte r ∧ end_byte r ≤ length data) rs →
  let ed' := apply ed in
  (∃ mid, ed_data ed' = take (ed_start_byte ed) data ++ mid
                        ++ drop (Z.to_nat (ed_end_byte ed)) data
          ∧ ed_end_byte ed' = Z.of_nat (ed_start_byte ed + length mid))
  ∧ Z.of_nat (length (ed_data ed')) = (Z.of_nat (length data) + growth rs)%Z
  ∧ ed_start_byte ed' = ed_start_byte ed
  ∧ ed_replacements ed' = []
  ∧ apply ed' = ed'.
Proof.
  intros (Hok & r0 & rn & Hh & Hl & ->)%BytesEditor_init_Ok Hin.
  pose proof (sorted_by_key_perm rs) as Hperm.
  pose proof (sorted_by_key_sorted rs) as Hsorted.
  apply (Forall_perm _ _ _ Hperm) in Hin.
  assert (batch_from 0 (sorted_by_key rs)) as Hbatch.
  { apply pairwise_assert_batch; [done..| |intros; lia].
    eapply Forall_impl; [exact Hin|]. by intros r [? _]. }
  assert (Forall (λ r, end_byte r ≤ length data) (sorted_by_key rs)) as Hends.
  { eapply Forall_impl; [exact Hin|]. by intros r [_ ?]. }
  assert (Z.of_nat (length (new_data data (sorted_by_key rs)))
          = (Z.of_nat (length data) + growth rs)%Z) as Hlen.
  { rewrite new_data_splice, length_splice by (done || lia).
    rewrite (growth_perm _ _ Hperm). lia. }
  cbn [apply ed_data ed_replacements ed_start_byte ed_end_byte].
  split_and!; try done.
  - destruct (sorted_by_key rs) as [|r l] eqn:E; [done|].
    cbn in Hh. injection Hh as ->.
    assert (default r0 (last l) = rn) as Hrn.
    { destruct l as [|t l]; [cbn in Hl; by injection Hl as ->|].
      change (last (r0 :: t :: l)) with (last (t :: l)) in Hl. by rewrite Hl. }
    destruct (splice_suffix data 0 r0 l) as [mid Hmid]. rewrite Hrn in Hmid.
    assert (end_byte rn ≤ length data) as Hrn_in.
    { rewrite Forall_forall in Hends. apply Hends.
      apply list_elem_of_lookup. exists (pred (length (r0 :: l))).
      by rewrite <-last_lookup. }
    assert (start_byte r0 ≤ length data) as Hr0_in.
    { apply Forall_cons in Hin as [[? ?] _]. lia. }
    exists mid. rewrite Nat2Z.id. rewrite new_data_splice in Hlen |- *.
    unfold slice in Hmid at 1. rewrite Nat.sub_0_r, drop_0 in Hmid.
    split; [done|]. clear Hlen.
    rewrite Hmid, !length_app, length_take, length_drop. lia.
  - unfold apply. cbn [ed_data ed_replacements ed_start_byte ed_end_byte].
    assert (∀ l, new_data l [] = l) as Hnil.
    { intros l. rewrite new_data_splice. cbn. rewrite slice_to_end. done. }
    rewrite !Hnil. f_equal. lia.
Qed.

Lemma apply_spec_witness :
  let data := ["a"; "b"; "c"; "d"]%char in
  let rs := [{| start_byte := 2; end_byte := 3; substitute := [] |};
             {| start_byte := 1; end_byte := 1; substitute := ["x"; "y"]%char |}] in
  ∃ ed, BytesEditor_init data rs = Ok ed
    ∧ ed_data (apply ed) = ["a"; "x"; "y"; "b"; "d"]%char
    ∧ Z.of_nat (length (ed_data (apply ed))) = (Z.of_nat (length data) + growth rs)%Z
    ∧ apply (apply ed) = apply ed.
Proof.
  intros data rs. eexists. split; [reflexivity|]. split; [reflexivity|].
  match goal with |- context [apply ?e] => set (ed := e) end.
  assert (BytesEditor_init data rs = Ok ed) as Hinit by reflexivity.
  assert (Forall (λ r, start_byte r ≤ end_byte r ∧ end_byte r ≤ length data) rs) as Hin.
  { unfold rs, data. repeat constructor. }
  destruct (apply_spec data rs ed Hinit Hin) as (_ & Hlen & _ & _ & Hidem).
  split; [exact Hlen | exact Hidem].
Defined.

(** *** [calculate_point] *)

Lemma rfind_spec c l :
  (rfind c l = (-1)%Z ∧ c ∉ l)
  ∨ ∃ k, rfind c l = Z.of_nat k ∧ l !! k = Some c ∧ (c ∉ drop (S k) l).
Proof.
  induction l as [|a l IH]; cbn [rfind].
  - left. split; [done|]. apply not_elem_of_nil.
  - destruct IH as [[-> Hnot]|(k & -> & Hk & Hafter)].
    + cbn. destruct (Ascii.eqb a c) eqn:Hac.
      * apply Ascii.eqb_eq in Hac as ->. right. by exists 0.
      * left. split; [done|]. apply Ascii.eqb_neq in Hac.
        rewrite elem_of_cons. naive_solver.
    + right. exists (S k). rewrite (proj2 (Z.leb_le _ _)) by lia.
      split; [lia|]. done.
Qed.

Lemma count_eqb_0 c l : c ∉ l → count (Ascii.eqb c) l = 0.
Proof.
  induction l as [|a l IH]; [done|]. rewrite not_elem_of_cons. intros [Hne Hl].
  cbn. rewrite (proj2 (Ascii.eqb_neq _ _)) by done. by rewrite IH.
Qed.

Lemma count_eqb_pos c l : c ∈ l → 0 < count (Ascii.eqb c) l.
Proof.
  induction l as [|a l IH]; [by intros ?%elem_of_nil|].
  rewrite elem_of_cons. cbn. destruct (Ascii.eqb c a) eqn:E; [lia|].
  apply Ascii.eqb_neq in E. intros [->|Hl]; [done|]. by apply IH.
Qed.

(** X12. The point [calculate_point] gives for an offset: the column is
    the number of bytes between the offset and the last newline before it
    (there is none among them, and the byte in front of them is a newline),
    or the offset itself on the first line, where the line is 0. *)
Theorem calculate_point_spec data offset :
  ∃ column : nat,
    (calculate_point data offset).2 = Z.of_nat column
    ∧ column ≤ offset
    ∧ (NEWLINE ∉ slice data (offset - column) offset)
    ∧ (((calculate_point data offset).1 = 0 ∧ column = offset)
       ∨ (0 < (calculate_point data offset).1 ∧ column < offset
          ∧ data !! (offset - column - 1) = Some NEWLINE)).
Proof.
  unfold calculate_point. cbn [fst snd].
  assert (slice data 0 offset = take offset data) as ->
    by (unfold slice; by rewrite Nat.sub_0_r).
  destruct (rfind_spec NEWLINE (take offset data)) as [[-> Hnot]|(k & -> & Hk & Hafter)].
  - exists offset. split; [lia|]. split; [done|].
    split; [unfold slice; by rewrite Nat.sub_diag, Nat.sub_0_r|].
    left. split; [by apply count_eqb_0 | done].
  - apply lookup_take_Some in Hk as [Hk Hlt].
    exists (offset - S k). split; [lia|]. split; [lia|].
    replace (offset - (offset - S k)) with (S k) by lia.
    split.
    + unfold slice. rewrite take_drop_commute.
      by replace (S k + (offset - S k)) with offset by lia.
    + right. split_and!; [|lia|].
      * apply count_eqb_pos, list_elem_of_lookup. exists k.
        by rewrite lookup_take_lt.
      * by replace (S k - 1) with k by lia.
Qed.

End editor_extras.

Section smt_extras.
Import Item View Smt.

(** X13. A circuit compared with no other circuit: [is_equivalent_to]
    raises the [ValueError] of [PairwiseComparator], whatever the circuit
    is, and the solver is not asked. *)
Theorem is_equivalent_to_alone solve self fresh quick rng :
  is_equivalent_to solve self [] fresh quick rng
  = Raise (ValueError "expects 2 or more comparees").
Proof.
  unfold is_equivalent_to, solver_query, transformation_assertion, partial_indices.
  cbn. by destruct (is_partial self).
Qed.

Lemma forallb_false {A} (f : A → bool) l :
  forallb f l = false ↔ Exists (λ x, f x = false) l.
Proof.
  induction l as [|a l IH]; cbn.
  - split; [done | by inversion 1].
  - rewrite andb_false_iff, IH, Exists_cons. done.
Qed.

Lemma eval_And_false M xs :
  (∀ x, x ∈ xs → ∃ b, eval M x = VBool b) →
  eval M (And_ xs) = VBool false ↔ Exists (λ x, eval M x = VBool false) xs.
Proof.
  intros Hbool.
  assert (eval M (And xs) = VBool false ↔ Exists (λ x, eval M x = VBool false) xs)
    as Hand.
  { cbn [eval]. split.
    - intros [= H]. apply forallb_false in H.
      rewrite Exists_exists in H |- *. destruct H as (x & Hx & Hf).
      exists x. split; [done|]. destruct (Hbool x Hx) as [b Hb].
      rewrite Hb in Hf |- *. by destruct b.
    - intros H. f_equal. apply forallb_false.
      eapply Exists_impl; [exact H|]. cbn. by intros x ->. }
  destruct xs as [|x [|y xs]]; cbn [And_]; [| |exact Hand].
  - split; [done | by inversion 1].
  - split; [by constructor|]. inversion 1 as [|?? H']; [done | by inversion H'].
Qed.

Lemma pairwise_cons {A} (x y : A) l : pairwise (x :: y :: l) = (x, y) :: pairwise (y :: l).
Proof. reflexivity. Qed.

Lemma elem_of_pairwise {A} (l : list A) a b :
  (a, b) ∈ pairwise l ↔ ∃ i, l !! i = Some a ∧ l !! S i = Some b.
Proof.
  induction l as [|x [|y l] IH].
  - split; [by intros ?%elem_of_nil | by intros (i & ? & _)].
  - split; [by intros ?%elem_of_nil | by intros ([|[|i]] & _ & ?)].
  - rewrite pairwise_cons, elem_of_cons, IH. split.
    + intros [[= -> ->]|(i & Ha & Hb)]; [by exists 0 | by exists (S i)].
    + intros ([|i] & Ha & Hb); [left; cbn in *; congruence | right; by exists i].
Qed.

(** Values that agree along every pair of neighbours agree everywhere. *)
Lemma pairwise_all_equal {A B} (f : A → B) (l : list A) :
  (∀ a b, (a, b) ∈ pairwise l → f a = f b) →
  ∀ i j a b, l !! i = Some a → l !! j = Some b → f a = f b.
Proof.
  intros Hpairs.
  assert (∀ i a x, l !! 0 = Some x → l !! i = Some a → f a = f x) as Hfirst.
  { revert Hpairs. induction l as [|x [|y l] IH]; intros Hpairs i a x0; [done|..].
    - intros [= <-]. destruct i as [|i]; [by intros [= <-] | done].
    - intros [= <-]. destruct i as [|i]; [by intros [= <-]|]. cbn. intros Ha.
      transitivity (f y).
      + apply (IH (λ a b H, Hpairs a b (proj2 (elem_of_cons _ _ _) (or_intror H)))
                  i a y eq_refl Ha).
      + symmetry. apply Hpairs. rewrite pairwise_cons. by left. }
  intros i j a b Ha Hb. destruct l as [|x l]; [done|].
  rewrite (Hfirst i a x eq_refl Ha), (Hfirst j b x eq_refl Hb). done.
Qed.

(** X14. With no partial circuit, the first assertion the solver is given
    is the miter of full equivalence: in an interpretation that gives every
    transition relation a truth value, it holds iff two of the circuits
    disagree on whether the step is valid. *)
Theorem full_miter self others fresh quick rng :
  let circuits := self :: others in
  let T := transformation_exprs circuits fresh in
  partial_indices circuits = [] →
  ∃ a rest,
    (solver_query circuits fresh quick rng).2 = a :: rest
    ∧ ∀ M, (∀ t, t ∈ T → ∃ b, eval M t = VBool b) →
        (holds M a ↔
         ∃ i j ti tj, T !! i = Some ti ∧ T !! j = Some tj ∧ eval M ti ≠ eval M tj).
Proof.
  intros circuits T Hfull.
  set (a := Not_ (And_ (map (λ ab, Iff ab.1 ab.2) (pairwise T)))).
  assert (∃ rest, (solver_query circuits fresh quick rng).2 = a :: rest) as [rest Hrest].
  { unfold solver_query, transformation_assertion. fold T. rewrite Hfull.
    destruct (all_equations _ _ _ _ _); cbn; eauto. }
  exists a, rest. split; [done|]. intros M Hbool.
  assert (∀ x y, (x, y) ∈ pairwise T →
            ∃ bx by', eval M x = VBool bx ∧ eval M y = VBool by') as Hpair.
  { intros x y (i & Hx & Hy)%elem_of_pairwise.
    destruct (Hbool x (list_elem_of_lookup_2 _ _ _ Hx)) as [bx Hbx].
    destruct (Hbool y (list_elem_of_lookup_2 _ _ _ Hy)) as [by' Hby]. eauto. }
  unfold a. rewrite holds_Not_, eval_And_false.
  2:{ intros x ([u v] & -> & Huv)%list_elem_of_fmap.
      destruct (Hpair u v Huv) as (bu & bv & Hu & Hv). cbn. rewrite Hu, Hv. eauto. }
  rewrite Exists_exists. split.
  - intros (x & ([u v] & -> & Huv)%list_elem_of_fmap & Hx).
    destruct (Hpair u v Huv) as (bu & bv & Hu & Hv).
    apply elem_of_pairwise in Huv as (i & Hi & Hj).
    exists i, (S i), u, v. split; [done|]. split; [done|].
    cbn in Hx. rewrite Hu, Hv in Hx |- *. injection Hx as Hx.
    intros [= ->]. by destruct bv.
  - intros (i & j & ti & tj & Hi & Hj & Hne).
    destruct (decide (Exists (λ ab : FNode * FNode, eval M ab.1 ≠ eval M ab.2)
                        (pairwise T))) as [Hex|Hall].
    + apply Exists_exists in Hex as ([u v] & Huv & Hdiff). cbn in Hdiff.
      exists (Iff u v). split; [apply list_elem_of_fmap; by exists (u, v)|].
      destruct (Hpair u v Huv) as (bu & bv & Hu & Hv).
      cbn. rewrite Hu, Hv in Hdiff |- *. f_equal.
      destruct bu, bv; done.
    + exfalso. apply Hne.
      apply (pairwise_all_equal (eval M) T) with (i := i) (j := j); [|done..].
      intros u v Huv. destruct (decide (eval M u = eval M v)) as [|Hd]; [done|].
      exfalso. apply Hall, Exists_exists. by exists (u, v).
Qed.

Lemma full_miter_witness :
  let T := transformation_exprs [circuit_ab; circuit_bc] 0 in
  ∃ a rest,
    (solver_query [circuit_ab; circuit_bc] 0 false (λ _, 0%Z)).2 = a :: rest
    ∧ ∀ M, (∀ t, t ∈ T → ∃ b, eval M t = VBool b) →
        (holds M a ↔
         ∃ i j ti tj, T !! i = Some ti ∧ T !! j = Some tj ∧ eval M ti ≠ eval M tj).
Proof.
  apply (full_miter circuit_ab [circuit_bc] 0 false (λ _, 0%Z)).
  reflexivity.
Defined.

Lemma pin_equations_zero rng n equations :
  pin_equations (Some 0%Z) rng n equations = pin_equations None rng n equations.
Proof.
  revert n. induction equations as [|e equations IH]; intros n; [done|].
  cbn [pin_equations]. destruct (args e) as [|l [|r [|]]]; try done.
  destruct (is_constant l || is_constant r); [by rewrite IH|].
  change (concretize l (Some 0%Z) rng n) with (concretize l None rng n).
  destruct (concretize l None rng n) as [[c n1]|]; [|done]. cbn. by rewrite IH.
Qed.

(** X15. A request to pin the signals to the value 0 is not told apart
    from a request without a value: [equal_to_specific_value] pins them to
    the values drawn at random, as it does when no value is given. *)
Theorem equal_to_specific_value_zero ctor key rng n :
  equal_to_specific_value ctor key (Some 0%Z) rng n
  = equal_to_specific_value ctor key None rng n.
Proof.
  assert (∀ cmp n, Binary_equal_to_specific_value cmp key (Some 0%Z) rng n
                   = Binary_equal_to_specific_value cmp key None rng n) as Hbin.
  { intros cmp m. unfold Binary_equal_to_specific_value.
    destruct (Binary_always_equal cmp key); [|done]. cbn. apply pin_equations_zero. }
  destruct ctor as [cmp|subs]; cbn [equal_to_specific_value]; [apply Hbin|].
  revert n. induction subs as [|cmp subs IH]; intros n; [done|].
  cbn [Pairwise_equal_to_specific_value]. rewrite Hbin.
  destruct (Binary_equal_to_specific_value cmp key None rng n) as [[eqs n1]|]; [|done].
  cbn. by rewrite IH.
Qed.

End smt_extras.

Section view_extras.
Import Item View.

Lemma filter_partition {A} (f : A → bool) (l : list A) :
  filter (λ x, f x = true) l ++ filter (λ x, f x = false) l ≡ₚ l.
Proof.
  induction l as [|a l IH]; [done|].
  rewrite !filter_cons. destruct (f a) eqn:Ha.
  - rewrite decide_True, decide_False by done. cbn. by rewrite IH.
  - rewrite decide_False, decide_True by done.
    rewrite <-Permutation_middle. by rewrite IH.
Qed.

(** X16. The views of a model: the internal registers and the internal
    wires split the internal items (no item is in both), so [all_items] is
    the input ports, the output ports, the internal registers and the
    internal wires, each item once. *)
Theorem views_partition m :
  getattr m internal_registers ++ getattr m internal_wires ≡ₚ _internals m
  ∧ (∀ x, x ∈ getattr m internal_registers → x ∉ getattr m internal_wires)
  ∧ getattr m all_items
    ≡ₚ getattr m input_ports ++ getattr m output_ports
       ++ getattr m internal_registers ++ getattr m internal_wires.
Proof.
  pose proof (filter_partition (λ pi : HierarchicalPathName * ModuleItem,
                                  is_register pi.2) (_internals m)) as Hpart.
  split; [exact Hpart|]. split.
  - cbn [getattr]. intros x [Hr _]%list_elem_of_filter [Hw _]%list_elem_of_filter.
    congruence.
  - cbn [getattr]. by rewrite Hpart.
Qed.

End view_extras.

Section api_extras.
Import Api.
Context {Circuit Conversion : Type}.
Context `{!EqDecision Circuit, !EqDecision Conversion, !Countable Conversion}.
Variable convert : Conversion → option Circuit.
Variable is_equivalent_to : Circuit → Circuit → result bool.
Variable suffix : string.

Lemma compare_with_pivots_found pivots circuit
    (ws : list (string * FileContent (Circuit:=Circuit) (Conversion:=Conversion))) :
  match (compare_with_pivots is_equivalent_to pivots circuit ws).1 with
  | Some pivot => pivot ∈ pivots ∧ is_equivalent_to pivot circuit = Ok true
  | None => none_equivalent is_equivalent_to pivots circuit
  end.
Proof.
  unfold none_equivalent. revert ws.
  induction pivots as [|q pivots IH]; intros ws; cbn; [constructor|].
  destruct (is_equivalent_to q circuit) as [[]|e] eqn:Hq.
  - cbn. split; [by left | done].
  - specialize (IH ws). destruct (compare_with_pivots _ _ _ _).1.
    + destruct IH. split; [by right | done].
    + constructor; [by rewrite Hq | done].
  - specialize (IH (ws ++ [(EXCEPTION_FILENAME, Traceback e)])).
    destruct (compare_with_pivots _ _ _ _).1.
    + destruct IH. split; [by right | done].
    + constructor; [by rewrite Hq | done].
Qed.

(** The class added to, when its key is in the dictionary. *)
Lemma class_add_present (classes : list (Circuit * gset Conversion)) key conversion :
  key ∈ classes.*1 →
  ∃ pre m0 post,
    classes = pre ++ (key, m0) :: post
    ∧ class_add classes key conversion = pre ++ (key, {[conversion]} ∪ m0) :: post.
Proof.
  induction classes as [|[k m] classes IH]; [by intros ?%elem_of_nil|].
  cbn. destruct (decide (k = key)) as [->|Hne].
  - intros _. by exists [], m, classes.
  - intros [?|Hin]%elem_of_cons; [done|].
    destruct (IH Hin) as (pre & m0 & post & -> & ->).
    by exists ((k, m) :: pre), m0, post.
Qed.

(** One iteration for a conversion that succeeds: the conversion is added
    to the class of a key, which is a pivot judged equivalent, or the new
    circuit when no pivot is. *)
Lemma classify_step (st : State) conversion circuit :
  convert conversion = Some circuit →
  let st' := classify convert is_equivalent_to st conversion in
  valid_conversions st' = valid_conversions st ++ [conversion]
  ∧ saved_as st' = saved_as st
  ∧ ∃ key,
      equivalence_classes st' = class_add (equivalence_classes st) key conversion
      ∧ ((key ∈ (equivalence_classes st).*1
          ∧ is_equivalent_to key circuit = Ok true)
         ∨ (key = circuit
            ∧ none_equivalent is_equivalent_to (equivalence_classes st).*1 circuit)).
Proof.
  intros Hc. unfold classify. rewrite Hc.
  destruct (equivalence_classes st) as [|kc classes] eqn:E.
  - cbn. split; [done|]. split; [done|]. exists circuit. split; [done|].
    right. split; [done | constructor].
  - pose proof (compare_with_pivots_found ((kc :: classes).*1) circuit (files st)) as H.
    destruct (compare_with_pivots _ _ _ _) as [[pivot|] ws]; cbn in H |- *.
    + split; [done|]. split; [done|]. exists pivot. split; [done|]. by left.
    + split; [done|]. split; [done|]. exists circuit. split; [done|]. by right.
Qed.

Lemma classify_skip (st : State) conversion :
  convert conversion = None → classify convert is_equivalent_to st conversion = st.
Proof. intros Hc. unfold classify. by rewrite Hc. Qed.

(** What the loop keeps. *)
Lemma classify_invariant conversions :
  let st := foldl (classify convert is_equivalent_to)
              {| valid_conversions := []; equivalence_classes := [];
                 files := []; saved_as := [] |} conversions in
  valid_conversions st = filter (λ c, convert c ≠ None) conversions
  ∧ NoDup (equivalence_classes st).*1
  ∧ (∀ c, c ∈ valid_conversions st ↔
          ∃ k members, (k, members) ∈ equivalence_classes st ∧ c ∈ members)
  ∧ (∀ k members c, (k, members) ∈ equivalence_classes st → c ∈ members →
       ∃ circuit, convert c = Some circuit
                  ∧ (circuit = k ∨ is_equivalent_to k circuit = Ok true))
  ∧ (∀ k members, (k, members) ∈ equivalence_classes st →
       ∃ c, c ∈ members ∧ convert c = Some k)
  ∧ (∀ i j ki kj, i < j →
       (equivalence_classes st).*1 !! i = Some ki →
       (equivalence_classes st).*1 !! j = Some kj →
       is_equivalent_to ki kj ≠ Ok true)
  ∧ saved_as st = [].
Proof.
  induction conversions as [|conversion conversions IH] using rev_ind.
  - cbn. split_and!; try done.
    + constructor.
    + intros c. split; [by intros ?%elem_of_nil|]. by intros (k & m & ?%elem_of_nil & _).
    + by intros k m c ?%elem_of_nil.
    + by intros k m ?%elem_of_nil.
  - rewrite foldl_app. cbn [foldl]. cbn zeta in IH.
    set (st := foldl _ _ conversions) in *.
    destruct IH as (Hvalid & Hnodup & Hmem & Hjudged & Hpivot & Hapart & Hsaved).
    rewrite filter_app, filter_cons, filter_nil.
    destruct (convert conversion) as [circuit|] eqn:Hc.
    2:{ rewrite classify_skip by done. rewrite decide_False by (by intros H; apply H).
        rewrite (right_id_L [] (++)). done. }
    rewrite decide_True by done.
    destruct (classify_step st conversion circuit Hc) as (Hv' & Hs' & key & Hcl' & Hkey).
    cbn zeta in Hv', Hs', Hcl'.
    rewrite Hv', Hs', Hcl'. split; [by rewrite Hvalid|].
    destruct (decide (key ∈ (equivalence_classes st).*1)) as [Hin|Hfresh].
    + (* the class of a key of the dictionary grows *)
      destruct (class_add_present _ key conversion Hin) as (pre & m0 & post & Hold & Hnew).
      rewrite Hnew.
      assert ((pre ++ (key, {[conversion]} ∪ m0) :: post).*1
              = (equivalence_classes st).*1) as Hkeys
        by (rewrite Hold, !fmap_app; done).
      assert (∀ k m, (k, m) ∈ pre ++ (key, {[conversion]} ∪ m0) :: post →
                (k, m) ∈ equivalence_classes st
                ∨ (k = key ∧ m = {[conversion]} ∪ m0)) as Helem.
      { intros k m. rewrite Hold, !elem_of_app, !elem_of_cons.
        intros [?|[[= -> ->]|?]]; eauto. }
      assert ((key, m0) ∈ equivalence_classes st) as Hm0
        by (rewrite Hold, elem_of_app, elem_of_cons; eauto).
      split; [by rewrite Hkeys|]. split_and!.
      * intros c. rewrite elem_of_app, list_elem_of_singleton, Hmem. split.
        -- intros [(k & m & Hk & Hcm)| ->].
           ++ rewrite Hold in Hk. apply elem_of_app in Hk as [Hk|Hk].
              ** exists k, m. split; [|done]. apply elem_of_app. by left.
              ** apply elem_of_cons in Hk as [[= -> ->]|Hk].
                 --- exists key, ({[conversion]} ∪ m0). split; [|set_solver].
                     apply elem_of_app. right. by left.
                 --- exists k, m. split; [|done]. apply elem_of_app. right. by right.
           ++ exists key, ({[conversion]} ∪ m0). split; [|set_solver].
              apply elem_of_app. right. by left.
        -- intros (k & m & Hk & Hcm). destruct (Helem k m Hk) as [Hk'|[-> ->]].
           ++ left. eauto.
           ++ apply elem_of_union in Hcm as [->%elem_of_singleton|Hcm]; [by right|].
              left. eauto.
      * intros k m c Hk Hcm. destruct (Helem k m Hk) as [Hk'|[-> ->]]; [by eauto|].
        apply elem_of_union in Hcm as [->%elem_of_singleton|Hcm]; [|by eauto].
        exists circuit. split; [done|].
        destruct Hkey as [[_ Heq]|[-> _]]; [by right | by left].
      * intros k m Hk. destruct (Helem k m Hk) as [Hk'|[-> ->]]; [by eauto|].
        destruct (Hpivot _ _ Hm0) as (c & Hcm & Hck). exists c. split; [set_solver|done].
      * rewrite Hkeys. exact Hapart.
      * done.
    + (* a new class, of the circuit *)
      rewrite class_add_fresh by done.
      destruct Hkey as [[Hin _]|[-> Hnone]]; [done|].
      rewrite fmap_app. cbn [fmap list_fmap fst].
      split_and!.
      * apply NoDup_app. split; [done|]. split; [|apply NoDup_singleton].
        intros x Hx ->%list_elem_of_singleton. done.
      * intros c. rewrite elem_of_app, list_elem_of_singleton, Hmem. split.
        -- intros [(k & m & Hk & Hcm)| ->].
           ++ exists k, m. split; [|done]. apply elem_of_app. by left.
           ++ exists circuit, {[conversion]}. split; [|set_solver].
              apply elem_of_app. right. by apply list_elem_of_singleton.
        -- intros (k & m & [Hk|[= -> ->]%list_elem_of_singleton]%elem_of_app & Hcm).
           ++ left. eauto.
           ++ right. set_solver.
      * intros k m c [Hk|[= -> ->]%list_elem_of_singleton]%elem_of_app Hcm; [by eauto|].
        apply elem_of_singleton in Hcm as ->. exists circuit. split; [done | by left].
      * intros k m [Hk|[= -> ->]%list_elem_of_singleton]%elem_of_app; [by eauto|].
        exists conversion. split; [set_solver | done].
      * intros i j ki kj Hij Hi Hj.
        assert (i < length (equivalence_classes st).*1) as Hi_lt.
        { apply lookup_lt_Some in Hj. rewrite length_app in Hj. cbn in Hj. lia. }
        rewrite lookup_app_l in Hi by done.
        destruct (decide (j < length (equivalence_classes st).*1)) as [Hj_lt|Hj_ge].
        -- rewrite lookup_app_l in Hj by done. by apply (Hapart i j ki kj).
        -- rewrite lookup_app_r in Hj by lia.
           apply list_lookup_singleton_Some in Hj as [_ <-].
           unfold none_equivalent in Hnone. rewrite Forall_forall in Hnone.
           apply Hnone. by eapply list_elem_of_lookup_2.
      * done.
Qed.

Lemma equivalence_check_classes conversions :
  let st := foldl (classify convert is_equivalent_to)
              {| valid_conversions := []; equivalence_classes := [];
                 files := []; saved_as := [] |} conversions in
  valid_conversions (equivalence_check convert is_equivalent_to suffix conversions)
  = valid_conversions st
  ∧ equivalence_classes (equivalence_check convert is_equivalent_to suffix conversions)
    = equivalence_classes st.
Proof. unfold equivalence_check. cbn zeta. by destruct (1 <? _)%nat. Qed.

(** X17. [equivalence_check] accounts for every conversion: the valid
    conversions are the conversions that [convert] succeeds on, in the order
    given, and a conversion is valid exactly when it is a member of one of
    the equivalence classes. *)
Theorem equivalence_check_accounts conversions :
  let st := equivalence_check convert is_equivalent_to suffix conversions in
  valid_conversions st = filter (λ c, convert c ≠ None) conversions
  ∧ ∀ c, c ∈ valid_conversions st ↔
         ∃ k members, (k, members) ∈ equivalence_classes st ∧ c ∈ members.
Proof.
  cbn zeta. destruct (equivalence_check_classes conversions) as [-> ->].
  destruct (classify_invariant conversions) as (Hvalid & _ & Hmem & _). done.
Qed.

(** X18. The equivalence classes [equivalence_check] builds: the pivots
    are distinct, each one is the circuit of a member of its class, every
    member converts to the pivot itself or to a circuit that was judged
    equivalent to it, and no pivot was judged equivalent to a pivot of a
    later class. *)
Theorem equivalence_check_pivots conversions :
  let st := equivalence_check convert is_equivalent_to suffix conversions in
  NoDup (equivalence_classes st).*1
  ∧ (∀ k members, (k, members) ∈ equivalence_classes st →
       ∃ c, c ∈ members ∧ convert c = Some k)
  ∧ (∀ k members c, (k, members) ∈ equivalence_classes st → c ∈ members →
       ∃ circuit, convert c = Some circuit
                  ∧ (circuit = k ∨ is_equivalent_to k circuit = Ok true))
  ∧ (∀ i j ki kj, i < j →
       (equivalence_classes st).*1 !! i = Some ki →
       (equivalence_classes st).*1 !! j = Some kj →
       is_equivalent_to ki kj ≠ Ok true).
Proof.
  cbn zeta. destruct (equivalence_check_classes conversions) as [_ ->].
  destruct (classify_invariant conversions)
    as (_ & Hnodup & _ & Hjudged & Hpivot & Hapart & _). done.
Qed.

(** X19. When every comparison judges the circuits equivalent, all valid
    conversions end in one class, kept under the first circuit, and nothing
    is written or saved: no trace, no report of a difference. *)
Theorem equivalence_check_all_equivalent conversions :
  (∀ pivot circuit, is_equivalent_to pivot circuit = Ok true) →
  let st := equivalence_check convert is_equivalent_to suffix conversions in
  files st = [] ∧ saved_as st = []
  ∧ (valid_conversions st = [] ∧ equivalence_classes st = []
     ∨ ∃ c0 rest pivot,
         valid_conversions st = c0 :: rest ∧ convert c0 = Some pivot
         ∧ equivalence_classes st = [(pivot, list_to_set (c0 :: rest))]).
Proof.
  intros Hall.
  assert (let st := foldl (classify convert is_equivalent_to)
              {| valid_conversions := []; equivalence_classes := [];
                 files := []; saved_as := [] |} conversions in
          files st = [] ∧ saved_as st = []
          ∧ (valid_conversions st = [] ∧ equivalence_classes st = []
             ∨ ∃ c0 rest pivot,
                 valid_conversions st = c0 :: rest ∧ convert c0 = Some pivot
                 ∧ equivalence_classes st = [(pivot, list_to_set (c0 :: rest))]))
    as Hloop.
  { induction conversions as [|conversion conversions IH] using rev_ind.
    - cbn. split; [done|]. split; [done|]. by left.
    - rewrite foldl_app. cbn [foldl]. cbn zeta in IH.
      set (st := foldl _ _ conversions) in *.
      destruct IH as (Hfiles & Hsaved & Hcases).
      destruct (convert conversion) as [circuit|] eqn:Hc;
        [|by rewrite classify_skip by done].
      unfold classify. rewrite Hc.
      destruct Hcases as [[Hv Hcl]|(c0 & rest & pivot & Hv & Hc0 & Hcl)];
        rewrite Hv, Hcl; cbn.
      + split; [done|]. split; [done|]. right.
        exists conversion, [], circuit. split; [done|]. split; [done|].
        cbn. by rewrite (right_id_L ∅ (∪)).
      + rewrite Hall. cbn. rewrite decide_True by done.
        split; [done|]. split; [done|]. right.
        exists c0, (rest ++ [conversion]), pivot. split; [done|]. split; [done|].
        do 2 f_equal. apply set_eq. intros x.
        rewrite elem_of_union, elem_of_singleton, !elem_of_union,
          !elem_of_list_to_set, elem_of_app, list_elem_of_singleton,
          elem_of_singleton. tauto. }
  cbn zeta in Hloop |- *. unfold equivalence_check. cbn zeta.
  destruct Hloop as (Hfiles & Hsaved & Hcases).
  destruct Hcases as [[Hv Hcl]|(c0 & rest & pivot & Hv & Hc0 & Hcl)];
    rewrite Hcl; cbn [length Nat.ltb Nat.leb].
  - split; [done|]. split; [done|]. left. by rewrite Hcl.
  - split; [done|]. split; [done|]. right. exists c0, rest, pivot. by rewrite Hcl.
Qed.

End api_extras.

Section api_extras_examples.
Import Api.

Lemma equivalence_check_all_equivalent_witness :
  let st := equivalence_check example_convert (λ _ _, Ok true) ".v" [0; 1; 2] in
  files st = [] ∧ saved_as st = []
  ∧ (valid_conversions st = [] ∧ equivalence_classes st = []
     ∨ ∃ c0 rest pivot,
         valid_conversions st = c0 :: rest ∧ example_convert c0 = Some pivot
         ∧ equivalence_classes st = [(pivot, list_to_set (c0 :: rest))]).
Proof.
  apply (equivalence_check_all_equivalent example_convert (λ _ _, Ok true) ".v"
           [0; 1; 2]).
  reflexivity.
Defined.

End api_extras_examples.

Section naming_extras.
Import VerilatorNamingHelper CxxCrossbar.

Lemma mangle_name_chars name : mangle_name name = flat_map mangle_char name.
Proof.
  unfold mangle_name. change (lit "$") with ["$"%char]. change (lit "_") with ["_"%char].
  rewrite !replace_char. induction name as [|c name IH]; [done|].
  cbn [flat_map]. rewrite flat_map_app, IH. f_equal.
  unfold mangle_char. rewrite (Ascii.eqb_sym c "_"), (Ascii.eqb_sym c "$").
  destruct (Ascii.eqb "_" c) eqn:E1; [done|].
  rewrite flat_map_single. by destruct (Ascii.eqb "$" c).
Qed.

Lemma mangle_char_cases c :
  (c = "_"%char ∧ mangle_char c = lit "__")
  ∨ (c = "$"%char ∧ mangle_char c = lit "_24_")
  ∨ (c ≠ "_"%char ∧ c ≠ "$"%char ∧ mangle_char c = [c]).
Proof.
  unfold mangle_char.
  destruct (Ascii.eqb c "_") eqn:E1; [apply Ascii.eqb_eq in E1; by left|].
  destruct (Ascii.eqb c "$") eqn:E2; [apply Ascii.eqb_eq in E2; right; by left|].
  apply Ascii.eqb_neq in E1, E2. right. by right.
Qed.

(** X20. [mangle_name] never gives two names the same mangled name. *)
Theorem mangle_name_inj a b : a ≠ b → mangle_name a ≠ mangle_name b.
Proof.
  intros Hne Heq. apply Hne. revert Heq.
  rewrite !mangle_name_chars. clear Hne. revert b.
  induction a as [|x a IH]; intros [|y b]; cbn [flat_map].
  - done.
  - destruct (mangle_char_cases y) as [[_ ->]|[[_ ->]|(_ & _ & ->)]]; done.
  - destruct (mangle_char_cases x) as [[_ ->]|[[_ ->]|(_ & _ & ->)]]; done.
  - destruct (mangle_char_cases x) as [[-> ->]|[[-> ->]|(Hx1 & Hx2 & ->)]];
      destruct (mangle_char_cases y) as [[-> ->]|[[-> ->]|(Hy1 & Hy2 & ->)]];
      cbn; intros H; try (by injection H); try congruence.
    + f_equal. apply IH. by injection H.
    + f_equal. apply IH. by injection H.
    + injection H as -> H. f_equal. by apply IH.
Qed.

Lemma mangle_name_inj_witness :
  mangle_name (lit "$") = lit "_24_" ∧ mangle_name (lit "_24_") = lit "__24__"
  ∧ mangle_name (lit "$") ≠ mangle_name (lit "_24_").
Proof.
  split; [reflexivity|]. split; [reflexivity|].
  apply (mangle_name_inj (lit "$") (lit "_24_")). discriminate.
Defined.

Lemma not_elem_of_flat_map {A B} (g : A → list B) (b : B) (l : list A) :
  (∀ a, b ∉ g a) → b ∉ flat_map g l.
Proof.
  intros Hg. induction l as [|a l IH]; cbn; [apply not_elem_of_nil|].
  rewrite elem_of_app. intros [H|H]; [by eapply Hg | done].
Qed.

(** X21. The names [merge] and [escape_name] build hold no [$]; a name
    merged from a path (not the port of the top module) holds no [[] and
    no []] either, whatever the names are. *)
Theorem merge_escapes submodules item is_port :
  ("$"%char ∉ escape_name item)
  ∧ ("$"%char ∉ merge submodules item is_port)
  ∧ ((length submodules =? 1)%nat && is_port = false →
     ("["%char ∉ merge submodules item is_port)
     ∧ ("]"%char ∉ merge submodules item is_port)).
Proof.
  assert (∀ s, "$"%char ∉ replace (lit "$") DOLLAR s) as Hdollar.
  { intros s. change (lit "$") with ["$"%char]. rewrite replace_char.
    apply not_elem_of_flat_map. intros c.
    destruct (Ascii.eqb "$" c) eqn:E.
    - compute_done.
    - apply Ascii.eqb_neq in E. by intros Hc%list_elem_of_singleton. }
  split; [apply Hdollar|]. split.
  - unfold merge. destruct (_ && _); apply Hdollar.
  - intros Hpath. unfold merge. rewrite Hpath. rewrite escape_all.
    assert (∀ c, ("["%char ∉ render_tok (classify all_escaped c))
                 ∧ ("]"%char ∉ render_tok (classify all_escaped c))) as Htok.
    { intros c. unfold classify, all_escaped. rewrite !andb_true_r.
      destruct (Ascii.eqb c "[") eqn:E1.
      { split; compute_done. }
      destruct (Ascii.eqb c "]") eqn:E2.
      { split; compute_done. }
      apply Ascii.eqb_neq in E1, E2.
      destruct (Ascii.eqb c "$") eqn:E3.
      { split; compute_done. }
      cbn. split; intros Hc%list_elem_of_singleton; congruence. }
    split; apply not_elem_of_flat_map; intros c; apply Htok.
Qed.

Lemma merge_escapes_witness :
  let name := merge [lit "top"; lit "u[1]"] (lit "a$b") false in
  name = lit "top__DOT__u__BRA__1__KET____DOT__a__024b"
  ∧ ("["%char ∉ name) ∧ ("]"%char ∉ name).
Proof.
  split; [reflexivity|].
  apply (proj2 (proj2 (merge_escapes [lit "top"; lit "u[1]"] (lit "a$b") false))).
  reflexivity.
Defined.

End naming_extras.

Section klee_extras.
Import Item KleeSmtCrossbar.

Lemma laid_out_le lo hi atoms : laid_out lo hi atoms → (lo ≤ hi)%Z.
Proof.
  revert lo. induction atoms as [|a atoms IH]; intros lo; cbn; [done|].
  intros (H1 & H2 & H3). specialize (IH _ H3). lia.
Qed.

Lemma laid_out_app lo mid hi l1 l2 :
  laid_out lo mid l1 → laid_out mid hi l2 → laid_out lo hi (l1 ++ l2).
Proof.
  revert lo. induction l1 as [|a l1 IH]; intros lo; cbn.
  - intros Hle H2. destruct l2 as [|b l2]; cbn in *; [lia|].
    destruct H2 as (? & ? & ?). split_and!; [lia | done | done].
  - intros (H1 & H2 & H3) H. split_and!; [done..|]. by apply IH.
Qed.

Lemma laid_out_weaken lo hi hi' atoms :
  laid_out lo hi atoms → (hi ≤ hi')%Z → laid_out lo hi' atoms.
Proof.
  revert lo. induction atoms as [|a atoms IH]; intros lo; cbn; [lia|].
  intros (H1 & H2 & H3) Hle. split_and!; [done..|]. by apply IH.
Qed.

(** What a layout means for the atoms, one by one and two by two. *)
Lemma laid_out_spec lo hi atoms :
  laid_out lo hi atoms →
  (∀ a, a ∈ atoms →
     (lo ≤ atom_offset a)%Z ∧ (0 ≤ atom_bytes a)%Z
     ∧ (atom_offset a + atom_bytes a ≤ hi)%Z)
  ∧ (∀ i j a b, i < j → atoms !! i = Some a → atoms !! j = Some b →
       (atom_offset a + atom_bytes a ≤ atom_offset b)%Z).
Proof.
  revert lo. induction atoms as [|x atoms IH]; intros lo; cbn [laid_out].
  - intros _. split; [by intros a ?%elem_of_nil | by intros i j a b _ ?].
  - intros (H1 & H2 & H3). destruct (IH _ H3) as [Hin Hord].
    pose proof (laid_out_le _ _ _ H3) as Hle. split.
    + intros a [->|Ha]%elem_of_cons; [lia|].
      destruct (Hin a Ha) as (? & ? & ?). lia.
    + intros i j a b Hij Hi Hj. destruct j as [|j]; [lia|]. cbn in Hj.
      destruct i as [|i].
      * injection Hi as <-.
        destruct (Hin b (list_elem_of_lookup_2 _ _ _ Hj)) as (? & _). done.
      * cbn in Hi. apply (Hord i j); [lia | done..].
Qed.

Lemma laid_out_words var_name base k n :
  laid_out (base + Z.of_nat k * 4) (base + Z.of_nat (k + n) * 4)
    (map (λ i, {| atom_name := indexed_name var_name i;
                  atom_offset := (base + Z.of_nat i * 4)%Z; atom_bytes := 4 |})
         (seq k n)).
Proof.
  revert k. induction n as [|n IH]; intros k; cbn [seq map laid_out atom_offset atom_bytes].
  - rewrite Nat.add_0_r. lia.
  - split_and!; [lia..|].
    replace (base + Z.of_nat k * 4 + 4)%Z with (base + Z.of_nat (S k) * 4)%Z by lia.
    replace (k + S n) with (S k + n) by lia. apply IH.
Qed.

Lemma laid_out_element var_name offset element_bytes e :
  (0 ≤ element_bytes)%Z →
  laid_out (offset + Z.of_nat e * element_bytes)
           (offset + Z.of_nat (S e) * element_bytes)
           (element_atoms var_name offset element_bytes e).
Proof.
  intros Hpos. unfold element_atoms. destruct (element_bytes <? 8)%Z eqn:Hlt.
  - cbn. split_and!; [lia..|]. lia.
  - apply Z.ltb_ge in Hlt.
    set (base := (offset + Z.of_nat e * element_bytes)%Z).
    set (words := Z.to_nat (element_bytes / 4)).
    assert (Z.of_nat words * 4 ≤ element_bytes)%Z as Hwords.
    { unfold words. rewrite Z2Nat.id by (apply Z.div_pos; lia).
      pose proof (Z.mul_div_le element_bytes 4). lia. }
    apply laid_out_weaken with (hi := (base + Z.of_nat (0 + words) * 4)%Z);
      [|unfold base; cbn [Nat.add]; lia].
    assert (∀ k n, laid_out (base + Z.of_nat k * 4) (base + Z.of_nat (k + n) * 4)
              (map (λ i, {| atom_name := indexed_name var_name (e * words + i);
                            atom_offset := (base + Z.of_nat i * 4)%Z;
                            atom_bytes := 4 |}) (seq k n))) as Hgen.
    { intros k n. revert k. induction n as [|n IH]; intros k; cbn [seq map laid_out atom_offset atom_bytes].
      - rewrite Nat.add_0_r. lia.
      - split_and!; [lia..|].
        replace (base + Z.of_nat k * 4 + 4)%Z with (base + Z.of_nat (S k) * 4)%Z by lia.
        replace (k + S n) with (S k + n) by lia. apply IH. }
    specialize (Hgen 0 words). cbn [Nat.add Z.of_nat Z.mul] in Hgen.
    by rewrite Z.add_0_r in Hgen.
Qed.

Lemma laid_out_elements var_name offset element_bytes k n :
  (0 ≤ element_bytes)%Z →
  laid_out (offset + Z.of_nat k * element_bytes)
           (offset + Z.of_nat (k + n) * element_bytes)
           (flat_map (element_atoms var_name offset element_bytes) (seq k n)).
Proof.
  intros Hpos. revert k. induction n as [|n IH]; intros k; cbn [seq flat_map].
  - cbn. rewrite Nat.add_0_r. lia.
  - eapply laid_out_app; [by apply laid_out_element|].
    replace (k + S n) with (S k + n) by lia. apply IH.
Qed.

Lemma map_seq_shift {A} (f : nat → A) a b n :
  map (λ x, f (a + x)) (seq b n) = map f (seq (a + b) n).
Proof.
  revert b. induction n as [|n IH]; intros b; cbn; [done|].
  f_equal. rewrite IH. by rewrite Nat.add_succ_r.
Qed.

(** The names of the atoms of the elements from [k] on. *)
Lemma names_elements var_name offset element_bytes k n :
  let per := if (element_bytes <? 8)%Z then 1 else Z.to_nat (element_bytes / 4) in
  map atom_name (flat_map (element_atoms var_name offset element_bytes) (seq k n))
  = map (indexed_name var_name) (seq (k * per) (n * per)).
Proof.
  intros per. revert k. induction n as [|n IH]; intros k; cbn [seq flat_map]; [done|].
  rewrite map_app, IH. replace (S n * per) with (per + n * per) by lia.
  rewrite seq_app, map_app. replace (S k * per) with (k * per + per) by lia.
  f_equal. unfold element_atoms, per. destruct (element_bytes <? 8)%Z.
  - cbn. by rewrite Nat.mul_1_r.
  - rewrite map_map. cbn [atom_name].
    by rewrite (map_seq_shift (indexed_name var_name)), Nat.add_0_r.
Qed.

(** X22. The atom variables [KleeSmtCrossbar.to_data] builds for an
    instance whose [bytes] are not negative: the atoms lie one after the
    other within the bytes of the item, [[offset, offset + bytes)], without
    overlap; a primitive item that is not wide has one atom, of the name of
    the variable; the atoms of an array or of a wide item are numbered
    [name_0], [name_1], ... in that order. *)
Theorem atom_variables_layout var_name item_inst atoms offset bytes :
  atom_variables var_name item_inst = inr atoms →
  getattr_item item_inst "offset" = inr offset →
  getattr_item item_inst "bytes" = inr bytes →
  (0 ≤ bytes)%Z →
  (∀ a, a ∈ atoms →
     (offset ≤ atom_offset a)%Z ∧ (0 ≤ atom_bytes a)%Z
     ∧ (atom_offset a + atom_bytes a ≤ offset + bytes)%Z)
  ∧ (∀ i j a b, i < j → atoms !! i = Some a → atoms !! j = Some b →
       (atom_offset a + atom_bytes a ≤ atom_offset b)%Z)
  ∧ match item_inst with
    | Primitive p =>
      if is_wide p then
        map atom_name atoms = map (indexed_name var_name) (seq 0 (length atoms))
      else atoms = [{| atom_name := var_name; atom_offset := offset;
                       atom_bytes := bytes |}]
    | Compound _ =>
      map atom_name atoms = map (indexed_name var_name) (seq 0 (length atoms))
    end.
Proof.
  intros Hatoms Hoff Hbytes Hpos.
  assert (laid_out offset (offset + bytes) atoms
          ∧ match item_inst with
            | Primitive p =>
              if is_wide p then
                map atom_name atoms = map (indexed_name var_name) (seq 0 (length atoms))
              else atoms = [{| atom_name := var_name; atom_offset := offset;
                               atom_bytes := bytes |}]
            | Compound _ =>
              map atom_name atoms = map (indexed_name var_name) (seq 0 (length atoms))
            end) as [Hlaid Hnames].
  { unfold atom_variables in Hatoms. destruct item_inst as [p|c].
    - destruct (is_wide p).
      + rewrite Hbytes in Hatoms.
        destruct (Z.to_nat (bytes / 4)) as [|w] eqn:Hw.
        * injection Hatoms as <-. cbn. split; [lia | done].
        * rewrite Hoff in Hatoms. injection Hatoms as <-. split.
          -- pose proof (laid_out_words var_name offset 0 (S w)) as H.
             cbn [Nat.add Z.of_nat Z.mul] in H. rewrite Z.add_0_r in H.
             eapply laid_out_weaken; [exact H|].
             rewrite <-Hw, Z2Nat.id by (apply Z.div_pos; lia).
             pose proof (Z.mul_div_le bytes 4). lia.
          -- cbn [map length atom_name]. by rewrite map_map, length_map, length_seq.
      + rewrite Hoff, Hbytes in Hatoms. injection Hatoms as <-.
        split; [|done]. cbn. lia.
    - rewrite Hbytes in Hatoms.
      destruct (capacity c =? 0)%nat eqn:Hcap; [done|]. apply Nat.eqb_neq in Hcap.
      rewrite Hoff in Hatoms. injection Hatoms as <-.
      set (eb := (bytes / Z.of_nat (capacity c))%Z).
      assert (0 ≤ eb)%Z as Heb by (apply Z.div_pos; lia).
      split.
      + pose proof (laid_out_elements var_name offset eb 0 (capacity c) Heb) as H.
        cbn [Nat.add Z.of_nat Z.mul] in H. rewrite Z.add_0_r in H.
        eapply laid_out_weaken; [exact H|].
        pose proof (Z.mul_div_le bytes (Z.of_nat (capacity c))). unfold eb. lia.
      + pose proof (names_elements var_name offset eb 0 (capacity c)) as H.
        cbn zeta in H. rewrite H.
        rewrite <-(length_map atom_name), H, length_map, length_seq. done. }
  destruct (laid_out_spec _ _ _ Hlaid) as [Hin Hord]. done.
Qed.

Lemma atom_variables_layout_witness :
  atom_variables "top__DOT__mem" example_array
  = inr [{| atom_name := "top__DOT__mem_0"; atom_offset := 16; atom_bytes := 4 |};
         {| atom_name := "top__DOT__mem_1"; atom_offset := 20; atom_bytes := 4 |};
         {| atom_name := "top__DOT__mem_2"; atom_offset := 24; atom_bytes := 4 |};
         {| atom_name := "top__DOT__mem_3"; atom_offset := 28; atom_bytes := 4 |};
         {| atom_name := "top__DOT__mem_4"; atom_offset := 32; atom_bytes := 4 |};
         {| atom_name := "top__DOT__mem_5"; atom_offset := 36; atom_bytes := 4 |}]
  ∧ ∀ atoms, atom_variables "top__DOT__mem" example_array = inr atoms →
      ∀ a, a ∈ atoms → (16 ≤ atom_offset a)%Z ∧ (atom_offset a + atom_bytes a ≤ 40)%Z.
Proof.
  split; [by vm_compute|]. intros atoms Hatoms a Ha.
  destruct (atom_variables_layout "top__DOT__mem" example_array atoms 16 24 Hatoms)
    as (Hin & _); [reflexivity | reflexivity | lia |].
  destruct (Hin a Ha) as (? & ? & ?). lia.
Defined.

End klee_extras.

Section translator_extras.
Import Translator.

Lemma length_combinations {A} (pool : list A) r :
  length (combinations pool r) = binomial (length pool) r.
Proof.
  revert r. induction pool as [|a pool IH]; intros [|r]; cbn; [done..|].
  by rewrite length_app, length_map, !IH.
Qed.

Lemma combinations_length {A} (pool : list A) r ops :
  ops ∈ combinations pool r → length ops = r ∧ ops `sublist_of` pool.
Proof.
  revert r ops. induction pool as [|a pool IH]; intros [|r] ops; cbn.
  - intros ->%list_elem_of_singleton. done.
  - by intros ?%elem_of_nil.
  - intros ->%list_elem_of_singleton. split; [done | apply sublist_nil_l].
  - intros [(ops' & -> & H)%list_elem_of_fmap | H]%elem_of_app.
    + destruct (IH _ _ H) as [<- Hsub]. split; [done | by apply sublist_skip].
    + destruct (IH _ _ H) as [<- Hsub]. split; [done | by apply sublist_cons].
Qed.

Lemma binomial_0 n : binomial n 0 = 1.
Proof. by destruct n. Qed.

Lemma binomial_1 n : binomial n 1 = n.
Proof. induction n as [|n IH]; [done|]. cbn [binomial]. rewrite binomial_0, IH. lia. Qed.

Lemma sum_binomial_step n m :
  sum_list (map (binomial (S n)) (seq 0 (S m)))
  = sum_list (map (binomial n) (seq 0 m)) + sum_list (map (binomial n) (seq 0 (S m))).
Proof.
  change (seq 0 (S m)) with (0 :: seq 1 m). rewrite <-fmap_S_seq.
  change (S <$> seq 0 m) with (map S (seq 0 m)). cbn [map sum_list]. rewrite !map_map.
  unfold id. rewrite (binomial_0 n). cbn [binomial].
  induction (seq 0 m) as [|k l IH]; cbn [map sum_list]; lia.
Qed.

Lemma sum_binomial_le n m :
  sum_list (map (binomial n) (seq 0 m)) ≤ 2 ^ n.
Proof.
  revert m. induction n as [|n IH]; intros m.
  - destruct m as [|m]; [cbn; lia|].
    assert (∀ k, sum_list (map (binomial 0) (seq (S k) m)) = 0) as Hzero.
    { induction m as [|m IHm]; intros k; cbn [seq map sum_list]; [done|].
      by rewrite IHm. }
    change (seq 0 (S m)) with (0 :: seq 1 m). cbn [map sum_list].
    rewrite Hzero. cbn. lia.
  - destruct m as [|m]; [cbn; lia|]. rewrite sum_binomial_step.
    pose proof (IH m). pose proof (IH (S m)). rewrite Nat.pow_succ_r'. lia.
Qed.

Lemma foldl_mul a l : foldl Nat.mul a l = a * foldl Nat.mul 1 l.
Proof.
  revert a. induction l as [|x l IH]; intros a; cbn [foldl]; [lia|].
  rewrite (IH (a * x)), (IH (1 * x)). lia.
Qed.

Lemma instance_count_ge options :
  Forall (λ op, domain op ≠ []) options → 2 ^ length options ≤ instance_count options.
Proof.
  unfold instance_count. induction 1 as [|op options Hop _ IH]; cbn; [done|].
  rewrite foldl_mul. unfold count at 1.
  destruct (domain op) as [|d ds]; [done|]. cbn [length]. lia.
Qed.

Lemma length_flat_map' {A B} (f : A → list B) l :
  length (flat_map f l) = sum_list (map (λ x, length (f x)) l).
Proof. induction l as [|a l IH]; cbn; [done|]. by rewrite length_app, IH. Qed.

(** X23. The instances [all_instances] yields for a translator with
    options: their number is the number of subsets of fewer than [max_op]
    options (one plus the number of options for [max_op = 2], none for
    [max_op = 0]); it never exceeds [instance_count] when no domain is
    empty; and each instance carries fewer than [max_op] extra arguments. *)
Theorem all_instances_count sample options max_op :
  options ≠ [] →
  Forall (λ op, domain op ≠ []) options →
  let instances := all_instances sample options max_op in
  length instances = sum_list (map (binomial (length options)) (seq 0 max_op))
  ∧ length instances ≤ instance_count options
  ∧ (max_op = 2 → length instances = 1 + length options)
  ∧ (max_op = 0 → instances = [])
  ∧ ∀ policy, policy ∈ instances →
      ∃ ops, policy = Some ops ∧ length ops < max_op.
Proof.
  intros Hne Hdom instances.
  assert (length instances
          = sum_list (map (binomial (length options)) (seq 0 max_op))) as Hlen.
  { unfold instances, all_instances. destruct options as [|op options]; [done|].
    rewrite length_flat_map'. f_equal. apply map_ext. intros k.
    by rewrite length_map, length_combinations, length_imap. }
  split; [done|]. split_and!.
  - rewrite Hlen. etrans; [apply sum_binomial_le | by apply instance_count_ge].
  - intros ->. rewrite Hlen. cbn [seq map sum_list]. unfold id.
    rewrite binomial_0, binomial_1. lia.
  - intros ->. unfold instances, all_instances. by destruct options.
  - intros policy. unfold instances, all_instances.
    destruct options as [|op options]; [done|].
    rewrite list_elem_of_In, in_flat_map.
    intros (k & Hk%in_seq & Hin%list_elem_of_In).
    change (policy ∈ Some <$> combinations
              (imap (λ i op', sample op' (k * length (op :: options) + i))
                    (op :: options)) k) in Hin.
    apply list_elem_of_fmap in Hin as (ops & -> & Hops).
    exists ops. split; [done|].
    apply combinations_length in Hops as [-> _]. lia.
Qed.

Lemma all_instances_count_witness :
  let options := [{| template := "--assert"; domain := ["None"] |};
                  {| template := "-j {}"; domain := ["1"; "2"] |};
                  {| template := "-O3"; domain := ["None"] |}] in
  let instances := all_instances (λ op _, template op) options 2 in
  instances = [Some []; Some ["--assert"]; Some ["-j {}"]; Some ["-O3"]]
  ∧ length instances ≤ instance_count options.
Proof.
  intros options instances. split; [reflexivity|].
  apply (all_instances_count (λ op _, template op) options 2); [done|].
  unfold options. repeat constructor; done.
Defined.

Section apply_to_facts.
Context {Translator Circuit : Type}.
Variable translate : Translator → Circuit → result Circuit.

(** X24. [Conversion.apply_to] composes: applying a chain followed by a
    second one is applying the first and then the second to its result; a
    failure of the first chain is the failure of the whole, whatever
    follows; and the empty chain returns the circuit as it is. *)
Theorem apply_to_app (chain1 chain2 : list Translator) (circuit : Circuit) :
  apply_to translate (chain1 ++ chain2) circuit
  = (apply_to translate chain1 circuit ≫= apply_to translate chain2)
  ∧ (∀ e, apply_to translate chain1 circuit = Raise e →
          apply_to translate (chain1 ++ chain2) circuit = Raise e)
  ∧ apply_to translate [] circuit = Ok circuit.
Proof.
  assert (apply_to translate (chain1 ++ chain2) circuit
          = (apply_to translate chain1 circuit ≫= apply_to translate chain2)) as Happ.
  { unfold apply_to. revert circuit.
    induction chain1 as [|t chain1 IH]; intros circuit; cbn [app foldM]; [done|].
    destruct (translate t circuit) as [c|e]; cbn; [apply IH | done]. }
  split; [done|]. split; [|done]. intros e He. by rewrite Happ, He.
Qed.

End apply_to_facts.

End translator_extras.

Section workspace_extras.
Import Item Workspace.

Lemma append_inj_r s a b : s +:+ a = s +:+ b → a = b.
Proof. induction s as [|c s IH]; cbn; [done|]. intros [= H]. by apply IH. Qed.

Lemma str_of_nat_inj i j : str_of_nat i = str_of_nat j → i = j.
Proof.
  intros H. apply Nat2Z.inj.
  pose proof (match_index_str_of_nat i) as Hi. rewrite H in Hi.
  rewrite match_index_str_of_nat in Hi. by injection Hi.
Qed.

Lemma first_free_fuel existing dirname fuel fuel' suffix p :
  first_free existing dirname fuel suffix = Some p → fuel ≤ fuel' →
  first_free existing dirname fuel' suffix = Some p.
Proof.
  revert fuel' suffix. induction fuel as [|fuel IH]; intros fuel' suffix; [done|].
  destruct fuel' as [|fuel']; [lia|]. cbn [first_free].
  case_bool_decide; [|done]. intros Hp Hle. apply IH; [done | lia].
Qed.

Lemma first_free_other existing dirname fuel suffix x :
  (∀ j, suffix ≤ j → dirname +:+ str_of_nat j ≠ x) →
  first_free (existing ∖ {[x]}) dirname fuel suffix
  = first_free existing dirname fuel suffix.
Proof.
  revert suffix. induction fuel as [|fuel IH]; intros suffix Hx; [done|].
  cbn [first_free].
  assert (bool_decide (dirname +:+ str_of_nat suffix ∈ existing ∖ {[x]})
          = bool_decide (dirname +:+ str_of_nat suffix ∈ existing)) as ->.
  { apply bool_decide_ext. specialize (Hx suffix (le_n _)). set_solver. }
  rewrite IH; [done|]. intros j Hj. apply Hx. lia.
Qed.

Lemma first_free_found dirname fuel existing suffix :
  size existing < fuel →
  ∃ k, first_free existing dirname fuel suffix
       = Some (dirname +:+ str_of_nat (suffix + k))
     ∧ (dirname +:+ str_of_nat (suffix + k) ∉ existing)
     ∧ ∀ j, j < k → dirname +:+ str_of_nat (suffix + j) ∈ existing.
Proof.
  revert existing suffix. induction fuel as [|fuel IH]; intros existing suffix Hsize; [lia|].
  cbn [first_free]. case_bool_decide as Hin.
  - set (x := dirname +:+ str_of_nat suffix) in *.
    assert (∀ j, S suffix ≤ j → dirname +:+ str_of_nat j ≠ x) as Hother.
    { intros j Hj Heq. apply append_inj_r, str_of_nat_inj in Heq. lia. }
    destruct (IH (existing ∖ {[x]}) (S suffix)) as (k & Hk & Hfree & Hbusy).
    { assert (size existing = size ({[x]} : gset string) + size (existing ∖ {[x]})) as Hs.
      { rewrite <-size_union by set_solver. f_equal. apply set_eq. intros y.
        destruct (decide (y = x)) as [->|]; set_solver. }
      rewrite size_singleton in Hs. lia. }
    rewrite first_free_other in Hk by done.
    exists (S k). replace (suffix + S k) with (S suffix + k) by lia.
    split; [done|]. split.
    + intros Hx. apply Hfree. apply elem_of_difference. split; [done|].
      apply not_elem_of_singleton, Hother. lia.
    + intros [|j] Hj; [by rewrite Nat.add_0_r|].
      replace (suffix + S j) with (S suffix + j) by lia.
      assert (j < k) as Hj' by lia. specialize (Hbusy j Hj'). set_solver.
  - exists 0. rewrite Nat.add_0_r. split; [done|]. split; [done|]. lia.
Qed.


End workspace_extras.

Section mutator_extras.
Import Heuristics.

Lemma insert_by_start_perm n l : insert_by_start n l ≡ₚ n :: l.
Proof.
  induction l as [|s l IH]; cbn; [done|].
  destruct (_ <=? _); [done|]. rewrite IH. apply perm_swap.
Qed.

Lemma sorted_by_start_perm l : sorted_by_start l ≡ₚ l.
Proof.
  induction l as [|n l IH]; cbn; [done|]. by rewrite insert_by_start_perm, IH.
Qed.

Lemma list_remove_Some n l :
  n ∈ l → ∃ l', list_remove n l = Some l' ∧ l ≡ₚ n :: l' ∧ l' `sublist_of` l.
Proof.
  induction l as [|x l IH]; [by intros ?%elem_of_nil|]. cbn.
  destruct (decide (x = n)) as [->|Hne].
  - intros _. exists l. split; [done|]. split; [done | by apply sublist_cons].
  - intros [?|Hin]%elem_of_cons; [done|].
    destruct (IH Hin) as (l' & -> & Hperm & Hsub). cbn. exists (x :: l').
    split; [done|]. split; [|by apply sublist_skip].
    rewrite Hperm. apply perm_swap.
Qed.

Lemma disjoint_nodes_perm l l' : l ≡ₚ l' → disjoint_nodes l → disjoint_nodes l'.
Proof.
  intros Hperm Hl i j a b Hij Hi Hj. symmetry in Hperm.
  destruct (perm_lookup_pair _ _ i j a b Hperm Hij Hi Hj) as (i' & j' & Hij' & Hi' & Hj').
  by apply (Hl i' j' a b).
Qed.

Lemma disjoint_nodes_cons n kept :
  (∀ a, a ∈ kept → node_end_byte a ≤ node_start_byte n) →
  disjoint_nodes kept → disjoint_nodes (n :: kept).
Proof.
  intros Hn Hkept [|i] [|j] a b Hij Hi Hj; cbn in Hi, Hj.
  - done.
  - injection Hi as <-. right. by eapply Hn, list_elem_of_lookup_2.
  - injection Hj as <-. left. by eapply Hn, list_elem_of_lookup_2.
  - apply (Hkept i j); [lia | done..].
Qed.

(** The loop, from a state whose list holds the nodes kept so far and the
    nodes still to be seen. *)
Lemma to_be_replaced_loop todo min_start_byte exprs kept :
  Forall (λ n, node_start_byte n ≤ node_end_byte n) todo →
  exprs ≡ₚ kept ++ todo →
  disjoint_nodes kept →
  (∀ a, a ∈ kept → node_end_byte a ≤ min_start_byte) →
  ∃ min' exprs' kept',
    foldM to_be_replaced_step todo (min_start_byte, exprs) = Ok (min', exprs')
    ∧ exprs' ≡ₚ kept' ∧ disjoint_nodes kept' ∧ exprs' `sublist_of` exprs
    ∧ length kept ≤ length kept'
    ∧ (min_start_byte = 0 → todo ≠ [] → kept' ≠ []).
Proof.
  revert min_start_byte exprs kept.
  induction todo as [|node todo IH]; intros min_start_byte exprs kept Hwf Hperm Hdis Hends.
  - exists min_start_byte, exprs, kept. cbn. rewrite (right_id_L [] (++)) in Hperm.
    split_and!; done.
  - apply Forall_cons in Hwf as [Hnode Hwf]. cbn [foldM to_be_replaced_step].
    destruct (min_start_byte <=? node_start_byte node) eqn:Hkeep.
    + apply Nat.leb_le in Hkeep. cbn.
      destruct (IH (node_end_byte node) exprs (node :: kept)) as
        (min' & exprs' & kept' & Hrun & Hperm' & Hdis' & Hsub & Hlen & _).
      * done.
      * rewrite Hperm. by rewrite <-Permutation_middle.
      * apply disjoint_nodes_cons; [|done]. intros a Ha. specialize (Hends a Ha). lia.
      * intros a [->|Ha]%elem_of_cons; [done|]. specialize (Hends a Ha). lia.
      * exists min', exprs', kept'. split_and!; try done.
        -- cbn in Hlen. lia.
        -- intros _ _ ->. cbn in Hlen. lia.
    + apply Nat.leb_gt in Hkeep.
      destruct (list_remove_Some node exprs) as (exprs1 & -> & Hperm1 & Hsub1).
      { rewrite Hperm. apply elem_of_app. right. by left. }
      cbn.
      destruct (IH min_start_byte exprs1 kept) as
        (min' & exprs' & kept' & Hrun & Hperm' & Hdis' & Hsub & Hlen & _).
      * done.
      * apply (Permutation_cons_inv (a := node)).
        rewrite <-Hperm1, Hperm. by rewrite <-Permutation_middle.
      * done.
      * done.
      * exists min', exprs', kept'. split_and!; try done.
        -- by etrans.
        -- intros ->. lia.
Qed.

(** X26. [to_be_replaced] never fails on its [remove], and the nodes it
    returns, which it takes from the sample in the order of the sample, do
    not overlap: of any two of them one ends before the other starts.  At
    least one node of a sample that is not empty is returned. *)
Theorem to_be_replaced_disjoint sampled :
  Forall (λ n, node_start_byte n ≤ node_end_byte n) sampled →
  ∃ exprs, to_be_replaced sampled = Ok exprs
    ∧ exprs `sublist_of` sampled
    ∧ disjoint_nodes exprs
    ∧ (sampled ≠ [] → exprs ≠ []).
Proof.
  intros Hwf. pose proof (sorted_by_start_perm sampled) as Hsorted.
  destruct (to_be_replaced_loop (sorted_by_start sampled) 0 sampled [])
    as (min' & exprs & kept & Hrun & Hperm & Hdis & Hsub & _ & Hne).
  - by rewrite Hsorted.
  - by rewrite Hsorted.
  - by intros i j a b _ ?.
  - by intros a ?%elem_of_nil.
  - exists exprs. unfold to_be_replaced. rewrite Hrun. cbn.
    split; [done|]. split; [done|]. split.
    + symmetry in Hperm. by eapply disjoint_nodes_perm.
    + intros Hs Hnil. apply Hne; [done| |].
      * intros H. rewrite H in Hsorted. by apply Permutation_nil_l in Hsorted.
      * rewrite Hnil in Hperm. by apply Permutation_nil_l in Hperm.
Qed.

Lemma to_be_replaced_disjoint_witness :
  let a := {| node_id := 1; node_start_byte := 10; node_end_byte := 20 |} in
  let b := {| node_id := 2; node_start_byte := 0; node_end_byte := 12 |} in
  let c := {| node_id := 3; node_start_byte := 12; node_end_byte := 15 |} in
  to_be_replaced [a; b; c] = Ok [b; c] ∧ disjoint_nodes [b; c].
Proof.
  intros a b c. split; [reflexivity|].
  destruct (to_be_replaced_disjoint [a; b; c]) as (exprs & Hrun & _ & Hdis & _).
  - unfold a, b, c. repeat constructor; cbn; lia.
  - assert (exprs = [b; c]) as -> by (vm_compute in Hrun; by injection Hrun as <-).
    exact Hdis.
Defined.

End mutator_extras.

Section scan_extras.
Import Item Decl.

Lemma capture_lt_pos a b : capture_lt a b = true → a.1.1 ≤ b.1.1.
Proof.
  destruct a as [[p1 n1] l1], b as [[p2 n2] l2]. cbn.
  intros [H|[H _]%andb_true_iff]%orb_true_iff.
  - apply Nat.ltb_lt in H. lia.
  - apply Nat.eqb_eq in H. lia.
Qed.

Lemma capture_lt_false a b : capture_lt a b = false → b.1.1 ≤ a.1.1.
Proof.
  destruct a as [[p1 n1] l1], b as [[p2 n2] l2]. cbn.
  intros [H _]%orb_false_iff. apply Nat.ltb_ge in H. lia.
Qed.

Lemma elem_of_insert_capture c x l : x ∈ insert_capture c l ↔ x = c ∨ x ∈ l.
Proof.
  induction l as [|y l IH]; cbn.
  - rewrite list_elem_of_singleton, elem_of_nil. tauto.
  - destruct (decide (c = y)) as [->|Hne].
    + rewrite elem_of_cons. tauto.
    + destruct (capture_lt c y); rewrite !elem_of_cons, ?IH; tauto.
Qed.

Lemma elem_of_sorted_set captures x : x ∈ sorted_set captures ↔ x ∈ captures.
Proof.
  induction captures as [|c captures IH]; cbn; [done|].
  by rewrite elem_of_insert_capture, elem_of_cons, IH.
Qed.

Lemma insert_capture_sorted c l :
  StronglySorted (λ a b : Capture, a.1.1 < b.1.1) l →
  (∀ x, x ∈ l → x.1.1 = c.1.1 → x = c) →
  StronglySorted (λ a b : Capture, a.1.1 < b.1.1) (insert_capture c l).
Proof.
  induction 1 as [|x l Hl IH Hx]; intros Hdist; cbn.
  - repeat constructor.
  - destruct (decide (c = x)) as [->|Hne]; [by constructor|].
    assert (x.1.1 ≠ c.1.1) as Hpos.
    { intros Heq. apply Hne. symmetry. apply Hdist; [by left | done]. }
    destruct (capture_lt c x) eqn:Hlt.
    + apply capture_lt_pos in Hlt. constructor; [by constructor|].
      constructor; [lia|]. eapply Forall_impl; [exact Hx|]. cbn. lia.
    + apply capture_lt_false in Hlt. constructor.
      * apply IH. intros y Hy. apply Hdist. by right.
      * apply Forall_forall. intros y [->|Hy]%elem_of_insert_capture; [lia|].
        rewrite Forall_forall in Hx. by apply Hx.
Qed.

Lemma sorted_set_sorted captures :
  (∀ c1 c2, c1 ∈ captures → c2 ∈ captures → c1.1.1 = c2.1.1 → c1 = c2) →
  StronglySorted (λ a b : Capture, a.1.1 < b.1.1) (sorted_set captures).
Proof.
  induction captures as [|c captures IH]; intros Hdist; cbn; [constructor|].
  apply insert_capture_sorted.
  - apply IH. intros c1 c2 H1 H2. apply Hdist; by right.
  - intros x Hx. apply (elem_of_sorted_set captures) in Hx.
    apply Hdist; [by right | by left].
Qed.

Lemma scan_fst cur r l :
  (foldl scan_step (cur, r) l).1 = current_module_after cur l.
Proof.
  revert cur r. induction l as [|[[p n] lab] l IH]; intros cur r; [done|].
  cbn [foldl scan_step current_module_after fst snd].
  destruct (String.eqb lab "module-id"); [apply IH|].
  destruct (String.eqb lab "reg-id"); apply IH.
Qed.

Lemma scan_snd cur r l k name :
  name ∈ default ∅ ((foldl scan_step (cur, r) l).2 !! k) ↔
  name ∈ default ∅ (r !! k)
  ∨ ∃ pre p post, l = pre ++ (p, name, "reg-id") :: post
                  ∧ current_module_after cur pre = k.
Proof.
  revert cur r. induction l as [|[[p0 n0] lab] l IH]; intros cur r.
  - cbn. split; [by left|]. intros [?|(pre & p & post & H & _)]; [done|].
    by destruct pre.
  - cbn [foldl scan_step].
    destruct (String.eqb lab "module-id") eqn:Hmod.
    + rewrite IH. split.
      * intros [?|(pre & p & post & -> & Hk)]; [by left|]. right.
        exists ((p0, n0, lab) :: pre), p, post. split; [done|].
        cbn. by rewrite Hmod.
      * intros [?|(pre & p & post & H & Hk)]; [by left|]. right.
        destruct pre as [|c pre].
        { cbn in H. apply String.eqb_eq in Hmod. by simplify_eq. }
        cbn in H. simplify_eq. exists pre, p, post. split; [done|].
        cbn. cbn in Hmod. by rewrite Hmod.
    + destruct (String.eqb lab "reg-id") eqn:Hreg.
      * rewrite IH.
        assert (name ∈ default ∅
                  (<[cur := {[n0]} ∪ default ∅ (r !! cur)]> r !! k)
                ↔ name ∈ default ∅ (r !! k) ∨ (k = cur ∧ name = n0)) as ->.
        { destruct (decide (cur = k)) as [->|Hne].
          - rewrite lookup_insert_eq. cbn. set_solver.
          - rewrite lookup_insert_ne by done. naive_solver. }
        apply String.eqb_eq in Hreg as ->. split.
        -- intros [[?|[-> ->]]|(pre & p & post & -> & Hk)].
           ++ by left.
           ++ right. by exists [], p0, l.
           ++ right. exists ((p0, n0, "reg-id") :: pre), p, post. done.
        -- intros [?|(pre & p & post & H & Hk)]; [by left; left|].
           destruct pre as [|c pre].
           ++ cbn in H, Hk. simplify_eq. left. by right.
           ++ cbn in H. simplify_eq. right. by exists pre, p, post.
      * rewrite IH. split.
        -- intros [?|(pre & p & post & -> & Hk)]; [by left|]. right.
           exists ((p0, n0, lab) :: pre), p, post. split; [done|].
           cbn. by rewrite Hmod.
        -- intros [?|(pre & p & post & H & Hk)]; [by left|]. right.
           destruct pre as [|c pre].
           { cbn in H. apply String.eqb_neq in Hreg. by simplify_eq. }
           cbn in H. simplify_eq. exists pre, p, post. split; [done|].
           cbn. cbn in Hmod. by rewrite Hmod.
Qed.

(** The module the loop is in: the last one of the captures seen. *)
Lemma current_module_after_Some cur pre m :
  current_module_after cur pre = Some m ↔
  (cur = Some m ∧ ∀ c, c ∈ pre → c.2 ≠ "module-id")
  ∨ ∃ pre1 pm pre2, pre = pre1 ++ (pm, m, "module-id") :: pre2
                    ∧ ∀ c, c ∈ pre2 → c.2 ≠ "module-id".
Proof.
  revert cur. induction pre as [|[[p0 n0] lab] pre IH]; intros cur.
  - cbn. split.
    + intros ->. left. split; [done|]. by intros c ?%elem_of_nil.
    + intros [[-> _]|(pre1 & pm & pre2 & H & _)]; [done | by destruct pre1].
  - assert (current_module_after cur ((p0, n0, lab) :: pre)
            = current_module_after
                (if String.eqb lab "module-id" then Some n0 else cur) pre) as ->
      by done.
    destruct (String.eqb lab "module-id") eqn:Hmod.
    + apply String.eqb_eq in Hmod as ->. rewrite IH. split.
      * intros [[[= ->] Hno]|(pre1 & pm & pre2 & -> & Hno)]; right.
        -- by exists [], p0, pre.
        -- by exists ((p0, n0, "module-id") :: pre1), pm, pre2.
      * intros [[_ Hno]|(pre1 & pm & pre2 & H & Hno)].
        -- exfalso. by apply (Hno (p0, n0, "module-id")); [left|].
        -- destruct pre1 as [|c pre1].
           ++ cbn in H. simplify_eq. by left.
           ++ cbn in H. simplify_eq. right. by exists pre1, pm, pre2.
    + apply String.eqb_neq in Hmod. rewrite IH. split.
      * intros [[-> Hno]|(pre1 & pm & pre2 & -> & Hno)].
        -- left. split; [done|]. intros c [->|Hc]%elem_of_cons; [done | by apply Hno].
        -- right. by exists ((p0, n0, lab) :: pre1), pm, pre2.
      * intros [[-> Hno]|(pre1 & pm & pre2 & H & Hno)].
        -- left. split; [done|]. intros c Hc. apply Hno. by right.
        -- destruct pre1 as [|c pre1].
           ++ cbn in H. by simplify_eq.
           ++ cbn in H. simplify_eq. right. by exists pre1, pm, pre2.
Qed.

(** X27. [registers_by_module_in], for captures that start at different
    bytes: a name is among the registers of a module exactly when it is
    captured as [reg-id] after the [module-id] capture of that module with
    no other [module-id] capture in between, in the order of the bytes and
    whatever the order of the captures given. *)
Theorem registers_by_module_spec captures m name :
  (∀ c1 c2, c1 ∈ captures → c2 ∈ captures → c1.1.1 = c2.1.1 → c1 = c2) →
  name ∈ default ∅ (registers_by_module_in captures !! Some m) ↔
  ∃ p pm, (p, name, "reg-id") ∈ captures ∧ (pm, m, "module-id") ∈ captures
          ∧ pm < p
          ∧ ∀ p' m', (p', m', "module-id") ∈ captures → ¬ (pm < p' < p).
Proof.
  intros Hdist. pose proof (sorted_set_sorted captures Hdist) as Hsorted.
  unfold registers_by_module_in. rewrite scan_snd, lookup_empty. cbn [default].
  split.
  - intros [?%elem_of_empty|(pre & p & post & Hl & Hcur)]; [done|].
    apply current_module_after_Some in Hcur
      as [[? _]|(pre1 & pm & pre2 & -> & Hno)]; [done|].
    rewrite Hl in Hsorted.
    apply StronglySorted_app in Hsorted as (Hcross & Hpre & Hpost).
    apply StronglySorted_app in Hpre as (Hcross1 & _ & Hpre2).
    apply StronglySorted_cons in Hpre2 as [Hpm _].
    apply StronglySorted_cons in Hpost as [Hp _].
    assert (∀ c, c ∈ captures ↔
              c ∈ pre1 ∨ c = (pm, m, "module-id") ∨ c ∈ pre2
              ∨ c = (p, name, "reg-id") ∨ c ∈ post) as Hmem.
    { intros c. rewrite <-elem_of_sorted_set, Hl.
      rewrite !elem_of_app, !elem_of_cons. tauto. }
    exists p, pm. split_and!.
    + apply Hmem. tauto.
    + apply Hmem. tauto.
    + apply (Hcross (pm, m, "module-id") (p, name, "reg-id")).
      * apply elem_of_app. right. by left.
      * by left.
    + intros p' m' Hc [Hlo Hhi]. apply Hmem in Hc
        as [Hc|[Hc|[Hc|[Hc|Hc]]]].
      * assert ((pm, m, "module-id") ∈ (pm, m, "module-id") :: pre2) as Hhead by by left.
        specialize (Hcross1 _ _ Hc Hhead). cbn in Hcross1. lia.
      * injection Hc as -> _. lia.
      * by apply (Hno _ Hc).
      * done.
      * rewrite Forall_forall in Hp. specialize (Hp _ Hc). cbn in Hp. lia.
  - intros (p & pm & Hreg & Hmod & Hlt & Hbetween). right.
    apply elem_of_sorted_set in Hreg, Hmod.
    apply list_elem_of_split in Hreg as (pre & post & Hl).
    rewrite Hl in Hsorted, Hmod.
    apply StronglySorted_app in Hsorted as (Hcross & Hpre & Hpost).
    apply StronglySorted_cons in Hpost as [Hp _].
    assert ((pm, m, "module-id") ∈ pre) as Hin.
    { apply elem_of_app in Hmod as [?|[?|Hc]%elem_of_cons]; [done|done|].
      rewrite Forall_forall in Hp. specialize (Hp _ Hc). cbn in Hp. lia. }
    apply list_elem_of_split in Hin as (pre1 & pre2 & ->).
    exists (pre1 ++ (pm, m, "module-id") :: pre2), p, post. split; [done|].
    apply current_module_after_Some. right. exists pre1, pm, pre2.
    split; [done|]. intros [[p' m'] lab] Hc. cbn. intros ->.
    apply (Hbetween p' m').
    + apply elem_of_sorted_set. rewrite Hl. rewrite !elem_of_app, elem_of_cons.
      left. right. by right.
    + apply StronglySorted_app in Hpre as (_ & _ & Hpre2).
      apply StronglySorted_cons in Hpre2 as [Hpm _].
      rewrite Forall_forall in Hpm. specialize (Hpm _ Hc). cbn in Hpm.
      specialize (Hcross (p', m', "module-id") (p, name, "reg-id")).
      cbn in Hcross. split; [done|]. apply Hcross; [|by left].
      rewrite elem_of_app, elem_of_cons. right. by right.
Qed.

Lemma registers_by_module_spec_witness :
  registers_by_module_in example_captures
  = {[Some "top" := {["q"; "state"]}; Some "leaf" := {["r"]}]}
  ∧ ("state" ∈ default ∅ (registers_by_module_in example_captures !! Some "top") ↔
     ∃ p pm, (p, "state", "reg-id") ∈ example_captures
             ∧ (pm, "top", "module-id") ∈ example_captures ∧ pm < p
             ∧ ∀ p' m', (p', m', "module-id") ∈ example_captures → ¬ (pm < p' < p)).
Proof.
  split; [by vm_compute|].
  apply (registers_by_module_spec example_captures "top" "state").
  intros c1 c2 H1 H2 Hpos. unfold example_captures in H1, H2.
  repeat (apply elem_of_cons in H1 as [->|H1]);
    try (by apply elem_of_nil in H1);
    repeat (apply elem_of_cons in H2 as [->|H2]);
    try (by apply elem_of_nil in H2); done.
Defined.

End scan_extras.
